(** * Onion dictionary ([src/onion/dict.c]): an AA tree keyed by C strings

    A shallow embedding of the dictionary of the onion HTTP library and the
    proofs of its specification.

    Modelling conventions.
    - A [const char *] is a pair of the address held by the pointer and the
      bytes found there up to the terminating NUL ([cstr]).  Comparison reads
      the bytes, [free] receives the address.  Reading the bytes does not
      ask whether the address has been released since.
    - The source can read a key it has freed.  [onion_dict_node_remove]
      frees the key of the node it empties (l.207) and refills the node from
      a donor, which it then removes by its key (l.213-218, l.222-227); with
      an entry of equal key in that subtree the recursive call can stop at
      another node than the donor, and the donor stays, sharing its key
      block with the refilled node, which owns it.  A later removal of the
      key frees that block and compares it again (l.207, l.227, l.196),
      and leaves it in the tree.  From there on the bytes the source reads
      are not those kept here.  [keys_readable] holds of the states in
      which no key lies in a released block and from which a removal reads
      none either ([stale_reads_nil]); [remove_stale_reads] lists the reads of released blocks that a removal
      makes, and [remove_reads_released_key] shows such a sequence.  A
      statement below that assumes [keys_readable] does so for this
      reason.
    - A node pointer is the subtree it points to ([Null] for [NULL]); the
      address of the node itself is kept in the node ([self]) so that nodes
      can be told apart and [free(node)] can be recorded.  Every node is
      referenced from exactly one place, so the in-place updates of the C
      code become the construction of the updated subtree.
    - [int] values are integers of [Z].  The only arithmetic on levels is
      the [+ 1] of [split] and [decrease_level]; the level of a node of a
      balanced tree is bounded by the logarithm of the number of nodes
      ([aa_level_log]), far from the range of [int], so levels are not
      wrapped.  [onion_dict_count] adds up to the number of nodes and is
      wrapped to 32 bits.  A [char] is signed and has 8 bits.
    - [strcmp] returns the difference of the first bytes that differ, as
      glibc and musl do; the C standard fixes its sign only.  Apart from
      the lookup on keys with bytes of 128 and above
      ([get_misses_high_byte]), the results below rest on its sign and on
      its staying within 255 of zero.
    - [malloc] hands out addresses never used before.  [free] only adds to
      the released addresses: the functions that release memory return the
      addresses they passed to [free], in order, and the container
      operations append them to the heap.
    - What [onion_dict_print_dot] writes to [stderr] is the list of the
      lines written, one per [fprintf] call, in order. *)

From Stdlib Require Import ZArith List String Ascii Lia Bool Permutation Sorted.
From Equations Require Import Equations.
Import ListNotations.
Local Open Scope Z_scope.

(** ** C strings and [strcmp] *)

(** The value of a byte read as [unsigned char]. *)
Definition byte_at (c : ascii) : Z := Z.of_N (N_of_ascii c).

(** [strcmp] as the C libraries in use compute it: the difference of the
    first two bytes that differ, read as [unsigned char]; the end of a string
    reads as the NUL byte and comparison stops at a NUL. *)
Fixpoint strcmp (l r : string) : Z :=
  match l, r with
  | EmptyString, EmptyString => 0
  | EmptyString, String d _ => 0 - byte_at d
  | String c _, EmptyString => byte_at c
  | String c l', String d r' =>
      if byte_at c =? byte_at d
      then (if byte_at c =? 0 then 0 else strcmp l' r')
      else byte_at c - byte_at d
  end.

(** Conversion of an [int] to [signed char] (two's complement, 8 bits). *)
Definition to_schar (z : Z) : Z := (z + 128) mod 256 - 128.

(** Conversion to a 32-bit [int]. *)
Definition to_int (z : Z) : Z := (z + 2147483648) mod 4294967296 - 2147483648.

Definition INT_MAX : Z := 2147483647.

(** ** Data model *)

Record cstr := mk_cstr { addr : Z; bytes : string }.

Record onion_dict_node_data := mk_data {
  key : cstr;
  value : cstr;
  flags : Z
}.

Inductive onion_dict_node :=
| Null
| Node (self : Z) (data : onion_dict_node_data) (level : Z)
       (left right : onion_dict_node).

Record onion_dict := mk_dict { root : onion_dict_node }.

(** The allocator: [brk] is the next address [malloc] hands out (addresses
    are never reused), [released] the addresses passed to [free] so far. *)
Record heap := mk_heap { brk : Z; released : list Z }.

Definition malloc (h : heap) : Z * heap :=
  (brk h, mk_heap (brk h + 1) (released h)).

Definition strdup (h : heap) (s : cstr) : cstr * heap :=
  let (p, h') := malloc h in (mk_cstr p (bytes s), h').

Definition free_all (h : heap) (ps : list Z) : heap :=
  mk_heap (brk h) (released h ++ ps).

Definition lvl (n : onion_dict_node) : Z :=
  match n with Null => 0 | Node _ _ lv _ _ => lv end.

Definition node_left (n : onion_dict_node) : onion_dict_node :=
  match n with Null => Null | Node _ _ _ l _ => l end.

Definition node_right (n : onion_dict_node) : onion_dict_node :=
  match n with Null => Null | Node _ _ _ _ r => r end.

(** [node->data.key] read as a string; the callers hold a node. *)
Definition node_key (n : onion_dict_node) : string :=
  match n with Null => EmptyString | Node _ d _ _ _ => bytes (key d) end.

Fixpoint size (n : onion_dict_node) : nat :=
  match n with
  | Null => O
  | Node _ _ _ l r => S (size l + size r)
  end.

(** The entries in the order left subtree, node, right subtree, each with
    the address of the node that holds it. *)
Fixpoint inorder (n : onion_dict_node) : list (Z * onion_dict_node_data) :=
  match n with
  | Null => []
  | Node a d _ l r => inorder l ++ (a, d) :: inorder r
  end.

Definition entries (n : onion_dict_node) : list onion_dict_node_data :=
  map snd (inorder n).

Definition keys (n : onion_dict_node) : list string :=
  map (fun d => bytes (key d)) (entries n).

(** ** The order on keys *)

Definition key_le (a b : string) : Prop := strcmp a b <= 0.
Definition key_lt (a b : string) : Prop := strcmp a b < 0.
Definition key_eq (a b : string) : Prop := strcmp a b = 0.

Definition dkey (d : onion_dict_node_data) : string := bytes (key d).

(** ** Invariants *)

Fixpoint all_nodes (P : onion_dict_node_data -> Prop) (n : onion_dict_node) : Prop :=
  match n with
  | Null => True
  | Node _ d _ l r => all_nodes P l /\ P d /\ all_nodes P r
  end.

(** The search-tree property with the left subtree strictly below the node. *)
Fixpoint bst_strict (n : onion_dict_node) : Prop :=
  match n with
  | Null => True
  | Node _ d _ l r =>
      all_nodes (fun x => key_lt (dkey x) (dkey d)) l
      /\ all_nodes (fun x => key_le (dkey d) (dkey x)) r
      /\ bst_strict l /\ bst_strict r
  end.

(** The search-tree property with equal keys allowed on both sides. *)
Fixpoint bst (n : onion_dict_node) : Prop :=
  match n with
  | Null => True
  | Node _ d _ l r =>
      all_nodes (fun x => key_le (dkey x) (dkey d)) l
      /\ all_nodes (fun x => key_le (dkey d) (dkey x)) r
      /\ bst l /\ bst r
  end.

(** The keys read in order never decrease. *)
Definition sorted (n : onion_dict_node) : Prop := StronglySorted key_le (keys n).

(** No horizontal link leaves the root. *)
Definition sngl (n : onion_dict_node) : Prop := lvl (node_right n) < lvl n.

(** The level rules of an AA tree, a missing child counting as level 0. *)
Fixpoint aa_tree (n : onion_dict_node) : Prop :=
  match n with
  | Null => True
  | Node _ _ lv l r =>
      aa_tree l /\ aa_tree r /\ lvl l = lv - 1
      /\ (lvl r = lv - 1 \/ (lvl r = lv /\ lvl (node_right r) < lv))
  end.

(** What an insertion does to the level of a subtree. *)
Definition post_add (t t' : onion_dict_node) : Prop :=
  aa_tree t'
  /\ (lvl t' = lvl t \/ (lvl t' = lvl t + 1 /\ sngl t' /\ ~ sngl t)).

(** What a removal does to the level of a subtree. *)
Definition post_del (t t' : onion_dict_node) : Prop :=
  aa_tree t'
  /\ (lvl t' = lvl t - 1 \/ (lvl t' = lvl t /\ (sngl t -> sngl t'))).

(** What the operations maintain. *)
Definition dict_invariant (t : onion_dict_node) : Prop := sorted t /\ aa_tree t.

(** The level rules as the specification words them, on the children that
    exist. *)
Fixpoint aa_levels (n : onion_dict_node) : Prop :=
  match n with
  | Null => True
  | Node _ _ lv l r =>
      (l = Null -> r = Null -> lv = 1)
      /\ (l <> Null -> lvl l = lv - 1)
      /\ (r <> Null -> lvl r = lv \/ lvl r = lv - 1)
      /\ (r <> Null -> node_right r <> Null -> lvl (node_right r) < lv)
      /\ aa_levels l /\ aa_levels r
  end.

(** Number of entries whose key compares equal to [k]. *)
Definition count_key (k : string) (n : onion_dict_node) : nat :=
  List.length (filter (fun s => strcmp k s =? 0) (keys n)).

(** Every byte of the string is below 128. *)
Fixpoint seven_bit (s : string) : Prop :=
  match s with
  | EmptyString => True
  | String c s' => byte_at c < 128 /\ seven_bit s'
  end.

(** Number of nodes on the longest way down from the root. *)
Fixpoint height (n : onion_dict_node) : Z :=
  match n with
  | Null => 0
  | Node _ _ _ l r => 1 + Z.max (height l) (height r)
  end.

(** [n] is [t] or a node below it. *)
Fixpoint node_of (n t : onion_dict_node) : Prop :=
  match t with
  | Null => False
  | Node _ _ _ l r => n = t \/ node_of n l \/ node_of n r
  end.

(** The keys read in order strictly increase: no two entries have equal
    keys. *)
Definition distinct_keys (n : onion_dict_node) : Prop :=
  StronglySorted key_lt (keys n).

(** The addresses [malloc] hands out from [from] up to [upto], excluded. *)
Definition addresses (from upto : Z) : list Z :=
  map (fun i => from + Z.of_nat i) (seq 0 (Z.to_nat (upto - from))).

(** What [%s] prints of a string: its bytes up to the first NUL. *)
Fixpoint printed (s : string) : string :=
  match s with
  | EmptyString => EmptyString
  | String c s' => if byte_at c =? 0 then EmptyString else String c (printed s')
  end.

Definition dquote : string := String (ascii_of_nat 34) EmptyString.
Definition newline : string := String (ascii_of_nat 10) EmptyString.

(** The text of one [fprintf] call of the dump: the two keys in double
    quotes with an arrow between them, then the label, [R] or [L], and the
    end of the line. *)
Definition dot_line (k1 k2 label : string) : string :=
  (dquote ++ printed k1 ++ dquote ++ " -> " ++ dquote ++ printed k2 ++ dquote
   ++ " [label=" ++ dquote ++ label ++ dquote ++ "];" ++ newline)%string.

(** ** Sample values *)

Definition sample_heap : heap := mk_heap 1 [].

Definition sample_entry (a : Z) (k v : string) (fl : Z) : onion_dict_node_data :=
  mk_data (mk_cstr (a + 1) k) (mk_cstr (a + 2) v) fl.

(** The shape reached by adding "b", "a" and "c" in this order; the entries
    own their key and value. *)
Definition sample_tree : onion_dict_node :=
  Node 10 (sample_entry 10 "b" "2" 6) 2
       (Node 20 (sample_entry 20 "a" "1" 6) 1 Null Null)
       (Node 30 (sample_entry 30 "c" "3" 6) 1 Null Null).

Definition sample_dict : onion_dict := mk_dict sample_tree.

Section Dict.

(** The flag constants of [dict.h], which is not part of the sources at
    hand: they are taken as parameters. *)
Variables OD_FREE_KEY OD_FREE_VALUE OD_DUP_KEY OD_DUP_VALUE : Z.

(** ** Creation *)

Definition onion_dict_new (h : heap) : onion_dict * heap :=
  let (_, h') := malloc h in (mk_dict Null, h').

(** [data->flags = flags] stores an [int] into a [char]. *)
Definition onion_dict_set_node_data (h : heap) (k v : cstr) (fl : Z)
  : onion_dict_node_data * heap :=
  let (k', h1) :=
    if Z.land fl OD_DUP_KEY =? OD_DUP_KEY then strdup h k else (k, h) in
  let (v', h2) :=
    if Z.land fl OD_DUP_VALUE =? OD_DUP_VALUE then strdup h1 v else (v, h1) in
  (mk_data k' v' (to_schar fl), h2).

Definition onion_dict_node_new (h : heap) (k v : cstr) (fl : Z)
  : onion_dict_node * heap :=
  let (a, h1) := malloc h in
  let (d, h2) := onion_dict_set_node_data h1 k v fl in
  (Node a d 1 Null Null, h2).

(** ** Balancing primitives *)

Definition skew (node : onion_dict_node) : onion_dict_node :=
  match node with
  | Node a d lv (Node ta td tlv tl tr) r =>
      if negb (tlv =? lv) then node
      else Node ta td tlv tl (Node a d lv tr r)
  | _ => node
  end.

Definition split (node : onion_dict_node) : onion_dict_node :=
  match node with
  | Node a d lv l (Node ta td tlv tl (Node ra rd rlv rl rr)) =>
      if negb (lv =? rlv) then node
      else Node ta td (tlv + 1) (Node a d lv l tl) (Node ra rd rlv rl rr)
  | _ => node
  end.

(** Only called on a node. *)
Definition decrease_level (node : onion_dict_node) : onion_dict_node :=
  match node with
  | Null => Null
  | Node a d lv l r =>
      let level_left := match l with Null => 0 | Node _ _ x _ _ => x end in
      let level_right := match r with Null => 0 | Node _ _ x _ _ => x end in
      let should_be :=
        (if level_left <? level_right then level_left else level_right) + 1 in
      if should_be <? lv then
        Node a d should_be l
             match r with
             | Null => Null
             | Node ra rd rlv rl rr =>
                 if should_be <? rlv then Node ra rd should_be rl rr else r
             end
      else node
  end.

(** ** Insertion *)

Fixpoint onion_dict_node_add (node nnode : onion_dict_node) : onion_dict_node :=
  match node with
  | Null => nnode
  | Node a d lv l r =>
      let cmp := strcmp (node_key nnode) (bytes (key d)) in
      let node' :=
        if cmp <? 0 then Node a d lv (onion_dict_node_add l nnode) r
        else Node a d lv l (onion_dict_node_add r nnode) in
      split (skew node')
  end.

Definition onion_dict_add (h : heap) (dict : onion_dict) (k v : cstr) (fl : Z)
  : onion_dict * heap :=
  let (nnode, h') := onion_dict_node_new h k v fl in
  (mk_dict (onion_dict_node_add (root dict) nnode), h').

(** ** Removal *)

(** The addresses released for one entry. *)
Definition onion_dict_node_data_free (d : onion_dict_node_data) : list Z :=
  (if negb (Z.land (flags d) OD_FREE_KEY =? 0) then [addr (key d)] else [])
  ++ (if negb (Z.land (flags d) OD_FREE_VALUE =? 0) then [addr (value d)] else []).

(** [t = node; while (t->left) t = t->left;] and the entry of [t]. *)
Fixpoint leftmost (d0 : onion_dict_node_data) (n : onion_dict_node)
  : onion_dict_node_data :=
  match n with
  | Null => d0
  | Node _ d _ l _ => leftmost d l
  end.

Fixpoint rightmost (d0 : onion_dict_node_data) (n : onion_dict_node)
  : onion_dict_node_data :=
  match n with
  | Null => d0
  | Node _ d _ _ r => rightmost d r
  end.

Definition clear_flags (d : onion_dict_node_data) : onion_dict_node_data :=
  mk_data (key d) (value d) 0.

(** [t->data.flags = 0] for the leftmost (rightmost) node [t] of a subtree. *)
Fixpoint clear_leftmost (n : onion_dict_node) : onion_dict_node :=
  match n with
  | Null => Null
  | Node a d lv Null r => Node a (clear_flags d) lv Null r
  | Node a d lv l r => Node a d lv (clear_leftmost l) r
  end.

Fixpoint clear_rightmost (n : onion_dict_node) : onion_dict_node :=
  match n with
  | Null => Null
  | Node a d lv l Null => Node a (clear_flags d) lv l Null
  | Node a d lv l r => Node a d lv l (clear_rightmost r)
  end.

(** The entry relocated when a node without left child (with a left child)
    is removed: that of the next (previous) node in key order. *)
Definition successor (r : onion_dict_node) : option onion_dict_node_data :=
  match r with
  | Null => None
  | Node _ d _ l _ => Some (leftmost d l)
  end.

Definition predecessor (l : onion_dict_node) : option onion_dict_node_data :=
  match l with
  | Null => None
  | Node _ d _ _ r => Some (rightmost d r)
  end.

(** The end of [onion_dict_node_remove], from [decrease_level(node)] on. *)
Definition remove_skews (node : onion_dict_node) : onion_dict_node :=
  match skew (decrease_level node) with
  | Node a d lv l (Node ra rd rlv rl rr) =>
      match skew (Node ra rd rlv rl rr) with
      | Node sa sd slv sl (Node ta td tlv tl tr) =>
          Node a d lv l (Node sa sd slv sl (skew (Node ta td tlv tl tr)))
      | r' => Node a d lv l r'
      end
  | node' => node'
  end.

Definition remove_splits (node : onion_dict_node) : onion_dict_node :=
  match split node with
  | Node a d lv l (Node ra rd rlv rl rr) =>
      Node a d lv l (split (Node ra rd rlv rl rr))
  | node' => node'
  end.

Definition remove_rebalance (node : onion_dict_node) : onion_dict_node :=
  remove_splits (remove_skews node).

(** The result is the new subtree and the addresses released.  The keys
    compared are the bytes kept with the pointers, which are those the
    source reads as long as the block of the key has not been released:
    [remove_stale_reads] below lists the comparisons for which it has. *)
Equations? onion_dict_node_remove (node : onion_dict_node) (k : string)
  : onion_dict_node * list Z by wf (size node) lt :=
onion_dict_node_remove Null _ := (Null, []);
onion_dict_node_remove (Node a d lv l r) k :=
  let cmp := strcmp k (bytes (key d)) in
  if cmp <? 0 then
    let (l', w) := onion_dict_node_remove l k in
    (remove_rebalance (Node a d lv l' r), w)
  else if cmp >? 0 then
    let (r', w) := onion_dict_node_remove r k in
    (remove_rebalance (Node a d lv l r'), w)
  else
    let w0 := onion_dict_node_data_free d in
    match l, r with
    | Null, Null => (Null, w0 ++ [a])
    | Null, Node _ dr _ rl _ =>
        let t := leftmost dr rl in
        let (r', w) := onion_dict_node_remove (clear_leftmost r) (bytes (key t)) in
        (remove_rebalance (Node a t lv Null r'), w0 ++ w)
    | Node _ dl _ _ lr, _ =>
        let t := rightmost dl lr in
        let (l', w) := onion_dict_node_remove (clear_rightmost l) (bytes (key t)) in
        (remove_rebalance (Node a t lv l' r), w0 ++ w)
    end.
Proof.
  all: try (simpl; lia).
  - assert (E : forall n, size (clear_leftmost n) = size n).
    { induction n as [|? ? ? n1 IH1 ? _]; simpl; [reflexivity|].
      destruct n1; simpl in *; lia. }
    rewrite E. simpl. lia.
  - assert (E : forall n, size (clear_rightmost n) = size n).
    { induction n as [|? ? ? ? _ n2 IH2]; simpl; [reflexivity|].
      destruct n2; simpl in *; lia. }
    rewrite E. simpl. lia.
Qed.

(** The node as [onion_dict_node_remove] holds it on reaching
    [decrease_level(node)], its children relinked; [None] when the function
    has returned before that point. *)
Definition remove_relinked (node : onion_dict_node) (k : string)
  : option onion_dict_node :=
  match node with
  | Null => None
  | Node a d lv l r =>
      let cmp := strcmp k (bytes (key d)) in
      if cmp <? 0 then Some (Node a d lv (fst (onion_dict_node_remove l k)) r)
      else if cmp >? 0 then Some (Node a d lv l (fst (onion_dict_node_remove r k)))
      else
        match l, r with
        | Null, Null => None
        | Null, Node _ dr _ rl _ =>
            let t := leftmost dr rl in
            Some (Node a t lv Null
                    (fst (onion_dict_node_remove (clear_leftmost r) (bytes (key t)))))
        | Node _ dl _ _ lr, _ =>
            let t := rightmost dl lr in
            Some (Node a t lv
                    (fst (onion_dict_node_remove (clear_rightmost l) (bytes (key t))))
                    r)
        end
  end.

(** [decrease_level_call node k n]: the call [onion_dict_node_remove node k]
    invokes [decrease_level] on [n], in the call itself or in one of the
    recursive calls it makes. *)
Inductive decrease_level_call : onion_dict_node -> string -> onion_dict_node -> Prop :=
| call_here node k n :
    remove_relinked node k = Some n -> decrease_level_call node k n
| call_left a d lv l r k n :
    strcmp k (bytes (key d)) < 0 ->
    decrease_level_call l k n -> decrease_level_call (Node a d lv l r) k n
| call_right a d lv l r k n :
    strcmp k (bytes (key d)) > 0 ->
    decrease_level_call r k n -> decrease_level_call (Node a d lv l r) k n
| call_successor a d lv ra rd rlv rl rr k n :
    strcmp k (bytes (key d)) = 0 ->
    decrease_level_call (clear_leftmost (Node ra rd rlv rl rr))
      (bytes (key (leftmost rd rl))) n ->
    decrease_level_call (Node a d lv Null (Node ra rd rlv rl rr)) k n
| call_predecessor a d lv la ld llv ll lr r k n :
    strcmp k (bytes (key d)) = 0 ->
    decrease_level_call (clear_rightmost (Node la ld llv ll lr))
      (bytes (key (rightmost ld lr))) n ->
    decrease_level_call (Node a d lv (Node la ld llv ll lr) r) k n.

Definition onion_dict_remove (h : heap) (dict : onion_dict) (k : string)
  : Z * onion_dict * heap :=
  let (r, w) := onion_dict_node_remove (root dict) k in
  (1, mk_dict r, free_all h w).

(** ** Destruction *)

Fixpoint onion_dict_node_free (node : onion_dict_node) : list Z :=
  match node with
  | Null => []
  | Node a d _ l r =>
      onion_dict_node_free l ++ onion_dict_node_free r
      ++ onion_dict_node_data_free d ++ [a]
  end.

(** [dict_addr] is the address of the container itself. *)
Definition onion_dict_free (h : heap) (dict_addr : Z) (dict : onion_dict) : heap :=
  free_all h (onion_dict_node_free (root dict) ++ [dict_addr]).

(** ** Lookup *)

(** [parent] is [None] for a [NULL] out-parameter, and otherwise holds the
    node last stored through it; the final state of the out-parameter is
    returned with the node found. The comparison result is kept in a
    [signed char]. *)
Fixpoint onion_dict_find_node (current : onion_dict_node) (k : string)
  (parent : option onion_dict_node) : onion_dict_node * option onion_dict_node :=
  match current with
  | Null => (Null, parent)
  | Node _ d _ l r =>
      let cmp := to_schar (strcmp k (bytes (key d))) in
      if cmp =? 0 then (current, parent)
      else
        let parent := match parent with
                      | Some _ => Some current
                      | None => None
                      end in
        if cmp <? 0 then onion_dict_find_node l k parent
        else if cmp >? 0 then onion_dict_find_node r k parent
        else (Null, parent)
  end.

Definition onion_dict_get (dict : onion_dict) (k : string) : option cstr :=
  match fst (onion_dict_find_node (root dict) k None) with
  | Node _ d _ _ _ => Some (value d)
  | Null => None
  end.

(** ** Traversal and count *)

(** The visitor [f] receives the key, the value and the caller's context,
    whose successive states are threaded through the calls.  The node
    functions are only called on a node. *)
Fixpoint onion_dict_node_preorder {Ctx : Type} (node : onion_dict_node)
  (f : cstr -> cstr -> Ctx -> Ctx) (s : Ctx) : Ctx :=
  match node with
  | Null => s
  | Node _ d _ l r =>
      let s1 := match l with
                | Null => s
                | Node _ _ _ _ _ => onion_dict_node_preorder l f s
                end in
      let s2 := f (key d) (value d) s1 in
      match r with
      | Null => s2
      | Node _ _ _ _ _ => onion_dict_node_preorder r f s2
      end
  end.

(** A [NULL] container is [None]. *)
Definition onion_dict_preorder {Ctx : Type} (dict : option onion_dict)
  (f : cstr -> cstr -> Ctx -> Ctx) (s : Ctx) : Ctx :=
  match dict with
  | None => s
  | Some d =>
      match root d with
      | Null => s
      | Node _ _ _ _ _ => onion_dict_node_preorder (root d) f s
      end
  end.

Fixpoint onion_dict_node_count (node : onion_dict_node) : Z :=
  match node with
  | Null => 0
  | Node _ _ _ l r =>
      let c := 1 in
      let c := match l with
               | Null => c
               | Node _ _ _ _ _ => to_int (c + onion_dict_node_count l)
               end in
      match r with
      | Null => c
      | Node _ _ _ _ _ => to_int (c + onion_dict_node_count r)
      end
  end.

Definition onion_dict_count (dict : option onion_dict) : Z :=
  match dict with
  | None => 0
  | Some d =>
      match root d with
      | Null => 0
      | Node _ _ _ _ _ => onion_dict_node_count (root d)
      end
  end.

(** ** Diagnostic dump *)

(** The lines written to [stderr], one for each call of [fprintf].  Only
    called on a node. *)
Fixpoint onion_dict_node_print_dot (node : onion_dict_node) : list string :=
  match node with
  | Null => []
  | Node _ d _ l r =>
      match r with
      | Null => []
      | Node _ rd _ _ _ =>
          dot_line (bytes (key d)) (bytes (key rd)) "R"
          :: onion_dict_node_print_dot r
      end
      ++ match l with
         | Null => []
         | Node _ ld _ _ _ =>
             dot_line (bytes (key d)) (bytes (key ld)) "L"
             :: onion_dict_node_print_dot l
         end
  end.

Definition onion_dict_print_dot (dict : onion_dict) : list string :=
  match root dict with
  | Null => []
  | Node _ _ _ _ _ => onion_dict_node_print_dot (root dict)
  end.

(** The visitor that writes down what it is called with. *)
Definition record_visit (k v : cstr) (seen : list (cstr * cstr)) : list (cstr * cstr) :=
  seen ++ [(k, v)].

(** ** Sequences of operations on a container *)

Inductive operation :=
| Add (k v : cstr) (fl : Z)
| Remove (k : string).

Definition apply_operation (st : onion_dict * heap) (o : operation)
  : onion_dict * heap :=
  match o with
  | Add k v fl => onion_dict_add (snd st) (fst st) k v fl
  | Remove k =>
      let '(_, d, h) := onion_dict_remove (snd st) (fst st) k in (d, h)
  end.

Definition run (h : heap) (ops : list operation) : onion_dict * heap :=
  fold_left apply_operation ops (onion_dict_new h).

(** The flags ask for a copy of the key (value) exactly when they ask for
    the key (value) to be freed: the entry owns what the container
    allocated for it and nothing else. *)
Definition copies_key (fl : Z) : bool := Z.land fl OD_DUP_KEY =? OD_DUP_KEY.
Definition copies_value (fl : Z) : bool := Z.land fl OD_DUP_VALUE =? OD_DUP_VALUE.
Definition frees_key (fl : Z) : bool := negb (Z.land (to_schar fl) OD_FREE_KEY =? 0).
Definition frees_value (fl : Z) : bool :=
  negb (Z.land (to_schar fl) OD_FREE_VALUE =? 0).

Definition owns_its_copies (o : operation) : Prop :=
  match o with
  | Add _ _ fl => copies_key fl = frees_key fl /\ copies_value fl = frees_value fl
  | Remove _ => True
  end.

Definition is_add (o : operation) : Prop :=
  match o with Add _ _ _ => True | Remove _ => False end.

(** ** Key blocks that may be read *)

(** What the tree is due to pass to [free] for the nodes of [l]: each node,
    and of its entry what the flags say. *)
Definition due (l : list (Z * onion_dict_node_data)) : list Z :=
  flat_map (fun n => fst n :: onion_dict_node_data_free (snd n)) l.

(** The key block of every node is due to be freed only as the entry of
    that node frees it: it is no node of the tree, and it is neither the key
    nor the value that the entry of another node frees.  A key block that no
    entry frees may be the key of several nodes. *)
Definition keys_apart (l : list (Z * onion_dict_node_data)) : bool :=
  forallb (fun n =>
             Nat.eqb (count_occ Z.eq_dec (due l) (addr (key (snd n))))
                     (count_occ Z.eq_dec (onion_dict_node_data_free (snd n))
                                (addr (key (snd n)))))
          l.

(** [keys_apart] on every way of taking a node out of the list: its key
    block is not among what is due for any other node. *)
Definition apart (l : list (Z * onion_dict_node_data)) : Prop :=
  forall l1 n l2, l = l1 ++ n :: l2 ->
    forall m, In m (l1 ++ l2) ->
      ~ In (addr (key (snd n))) (fst m :: onion_dict_node_data_free (snd m)).

(** One node and the same node with less to free. *)
Definition frees_less (n n' : Z * onion_dict_node_data) : Prop :=
  fst n' = fst n /\ key (snd n') = key (snd n)
  /\ incl (onion_dict_node_data_free (snd n')) (onion_dict_node_data_free (snd n)).

(** The state of a container and the heap in which every comparison of the
    next operation reads key blocks that have not been released: no key of
    the tree lies in a released block, and the key blocks are apart. *)
Definition keys_readable (st : onion_dict * heap) : bool :=
  forallb (fun e => negb (existsb (Z.eqb (addr (key e))) (released (snd st))))
          (entries (root (fst st)))
  && keys_apart (inorder (root (fst st))).

(** The blocks that the [strcmp] of [onion_dict_node_remove] reads after
    they have been passed to [free], in the order of the reads.  [freed]
    holds the addresses released so far and [ka] the address of the key
    argument: [None] for the string of the caller, the key of the relocated
    entry in the recursive calls that remove it. *)
Equations? remove_stale_reads (freed : list Z) (node : onion_dict_node)
  (ka : option Z) (k : string) : list Z by wf (size node) lt :=
remove_stale_reads _ Null _ _ := [];
remove_stale_reads freed (Node a d lv l r) ka k :=
  let here :=
    filter (fun p => existsb (Z.eqb p) freed)
      (match ka with Some p => [p] | None => [] end ++ [addr (key d)]) in
  let cmp := strcmp k (bytes (key d)) in
  if cmp <? 0 then here ++ remove_stale_reads freed l ka k
  else if cmp >? 0 then here ++ remove_stale_reads freed r ka k
  else
    let freed' := freed ++ onion_dict_node_data_free d in
    match l, r with
    | Null, Null => here
    | Null, Node _ dr _ rl _ =>
        let t := leftmost dr rl in
        here ++ remove_stale_reads freed' (clear_leftmost r)
                  (Some (addr (key t))) (bytes (key t))
    | Node _ dl _ _ lr, _ =>
        let t := rightmost dl lr in
        here ++ remove_stale_reads freed' (clear_rightmost l)
                  (Some (addr (key t))) (bytes (key t))
    end.
Proof.
  all: try (simpl; lia).
  - assert (E : forall n, size (clear_leftmost n) = size n).
    { induction n as [|? ? ? n1 IH1 ? _]; simpl; [reflexivity|].
      destruct n1; simpl in *; lia. }
    rewrite E. simpl. lia.
  - assert (E : forall n, size (clear_rightmost n) = size n).
    { induction n as [|? ? ? ? _ n2 IH2]; simpl; [reflexivity|].
      destruct n2; simpl in *; lia. }
    rewrite E. simpl. lia.
Qed.


(** * Properties *)

(** ** [strcmp] is a total preorder read off the sign of its result *)

Lemma byte_at_range c : 0 <= byte_at c < 256.
Proof.
  unfold byte_at. pose proof (N_ascii_bounded c). lia.
Qed.

Lemma strcmp_range a b : -255 <= strcmp a b <= 255.
Proof.
  revert b. induction a as [|c a IH]; intros [|d b]; simpl.
  - lia.
  - pose proof (byte_at_range d). lia.
  - pose proof (byte_at_range c). lia.
  - pose proof (byte_at_range c). pose proof (byte_at_range d).
    destruct (Z.eqb_spec (byte_at c) (byte_at d)).
    + destruct (Z.eqb_spec (byte_at c) 0); [lia | apply IH].
    + lia.
Qed.

Lemma strcmp_refl a : strcmp a a = 0.
Proof.
  induction a as [|c a IH]; simpl; [reflexivity|].
  rewrite Z.eqb_refl. destruct (byte_at c =? 0); auto.
Qed.

Lemma strcmp_opp a b : strcmp b a = - strcmp a b.
Proof.
  revert b. induction a as [|c a IH]; intros [|d b]; simpl; try lia.
  rewrite (Z.eqb_sym (byte_at d)).
  destruct (Z.eqb_spec (byte_at c) (byte_at d)) as [E|E].
  - rewrite <- E. destruct (byte_at c =? 0); [reflexivity | apply IH].
  - lia.
Qed.

(** The three transitivity laws at once, for the induction. *)
Lemma strcmp_trans_all a b c :
  (strcmp a b <= 0 -> strcmp b c <= 0 -> strcmp a c <= 0)
  /\ (strcmp a b < 0 -> strcmp b c <= 0 -> strcmp a c < 0)
  /\ (strcmp a b <= 0 -> strcmp b c < 0 -> strcmp a c < 0).
Proof.
  revert b c. induction a as [|x a IH]; intros [|y b] [|z c]; simpl;
    try pose proof (byte_at_range x); try pose proof (byte_at_range y);
    try pose proof (byte_at_range z);
    repeat match goal with
           | |- context [?u =? ?v] => destruct (Z.eqb_spec u v)
           end;
    try lia.
  all: try (specialize (IH b c); lia).
Qed.

Lemma key_le_trans a b c : key_le a b -> key_le b c -> key_le a c.
Proof. unfold key_le. apply (strcmp_trans_all a b c). Qed.

Lemma key_lt_le_trans a b c : key_lt a b -> key_le b c -> key_lt a c.
Proof. unfold key_le, key_lt. apply (strcmp_trans_all a b c). Qed.

Lemma key_le_lt_trans a b c : key_le a b -> key_lt b c -> key_lt a c.
Proof. unfold key_le, key_lt. apply (strcmp_trans_all a b c). Qed.

Lemma key_le_refl a : key_le a a.
Proof. unfold key_le. rewrite strcmp_refl. lia. Qed.

Lemma key_eq_sym a b : key_eq a b -> key_eq b a.
Proof. unfold key_eq. rewrite (strcmp_opp a b). lia. Qed.

Lemma key_eq_trans a b c : key_eq a b -> key_eq b c -> key_eq a c.
Proof.
  unfold key_eq. intros H1 H2.
  pose proof (strcmp_trans_all a b c) as (T1 & _ & _).
  pose proof (strcmp_trans_all c b a) as (T2 & _ & _).
  rewrite (strcmp_opp a b), (strcmp_opp b c), (strcmp_opp a c) in T2. lia.
Qed.

(** Keys that compare equal compare alike with every other key. *)
Lemma key_eq_sign a b c :
  key_eq a b ->
  (strcmp a c < 0 <-> strcmp b c < 0) /\ (strcmp a c = 0 <-> strcmp b c = 0).
Proof.
  unfold key_eq. intros E.
  pose proof (strcmp_trans_all a b c) as (A1 & A2 & A3).
  pose proof (strcmp_trans_all b a c) as (B1 & B2 & B3).
  pose proof (strcmp_trans_all c a b) as (C1 & C2 & C3).
  pose proof (strcmp_trans_all c b a) as (D1 & D2 & D3).
  rewrite (strcmp_opp a b) in *. rewrite (strcmp_opp a c) in *.
  rewrite (strcmp_opp b c) in *. lia.
Qed.

(** The [signed char] of [onion_dict_find_node] keeps the zero test. *)
Lemma to_schar_zero a b : to_schar (strcmp a b) = 0 <-> strcmp a b = 0.
Proof.
  pose proof (strcmp_range a b). unfold to_schar.
  split; intros H0; [|rewrite H0; reflexivity].
  assert ((strcmp a b + 128) mod 256 = 128) as M by lia.
  destruct (Z_lt_le_dec (strcmp a b + 128) 0).
  - replace (strcmp a b + 128) with ((strcmp a b + 128 + 256) + (-1) * 256) in M by lia.
    rewrite Z_mod_plus_full, Z.mod_small in M; lia.
  - destruct (Z_lt_le_dec (strcmp a b + 128) 256).
    + rewrite Z.mod_small in M; lia.
    + replace (strcmp a b + 128) with ((strcmp a b + 128 - 256) + 1 * 256) in M by lia.
      rewrite Z_mod_plus_full, Z.mod_small in M; lia.
Qed.

(** It also keeps the sign when the result fits in seven bits. *)
Lemma to_schar_small z : -128 <= z < 128 -> to_schar z = z.
Proof.
  intros H. unfold to_schar. rewrite Z.mod_small; lia.
Qed.

(** ** The balancing primitives keep the entries in place *)

Lemma inorder_skew n : inorder (skew n) = inorder n.
Proof.
  destruct n as [|a d lv [|ta td tlv tl tr] r]; simpl; try reflexivity.
  destruct (negb (tlv =? lv)); simpl; [reflexivity|].
  rewrite <- app_assoc. reflexivity.
Qed.

Lemma inorder_split n : inorder (split n) = inorder n.
Proof.
  destruct n as [|a d lv l [|ta td tlv tl [|ra rd rlv rl rr]]]; simpl;
    try reflexivity.
  destruct (negb (lv =? rlv)); simpl; [reflexivity|].
  rewrite <- app_assoc. reflexivity.
Qed.

Lemma inorder_decrease_level n : inorder (decrease_level n) = inorder n.
Proof.
  destruct n as [|a d lv l r]; simpl; [reflexivity|].
  match goal with |- context [if ?b then _ else _] => destruct b end;
    simpl; [|reflexivity].
  destruct r as [|ra rd rlv rl rr]; simpl; [reflexivity|].
  match goal with |- context [if ?b then _ else _] => destruct b end;
    reflexivity.
Qed.

Lemma inorder_remove_skews n : inorder (remove_skews n) = inorder n.
Proof.
  unfold remove_skews.
  rewrite <- (inorder_decrease_level n), <- (inorder_skew (decrease_level n)).
  destruct (skew (decrease_level n)) as [|a d lv l [|ra rd rlv rl rr]];
    try reflexivity.
  change (inorder (Node a d lv l (Node ra rd rlv rl rr)))
    with (inorder l ++ (a, d) :: inorder (Node ra rd rlv rl rr)).
  rewrite <- (inorder_skew (Node ra rd rlv rl rr)).
  destruct (skew (Node ra rd rlv rl rr)) as [|sa sd slv sl [|ta td tlv tl tr]];
    try reflexivity.
  change (inorder (Node a d lv l (Node sa sd slv sl (skew (Node ta td tlv tl tr)))))
    with (inorder l ++ (a, d) :: inorder sl ++ (sa, sd)
            :: inorder (skew (Node ta td tlv tl tr))).
  rewrite inorder_skew. reflexivity.
Qed.

Lemma inorder_remove_splits n : inorder (remove_splits n) = inorder n.
Proof.
  unfold remove_splits. rewrite <- (inorder_split n).
  destruct (split n) as [|a d lv l [|ra rd rlv rl rr]]; try reflexivity.
  change (inorder (Node a d lv l (split (Node ra rd rlv rl rr))))
    with (inorder l ++ (a, d) :: inorder (split (Node ra rd rlv rl rr))).
  rewrite inorder_split. reflexivity.
Qed.

Lemma inorder_remove_rebalance n : inorder (remove_rebalance n) = inorder n.
Proof.
  unfold remove_rebalance.
  rewrite inorder_remove_splits. apply inorder_remove_skews.
Qed.

Lemma skew_unchanged n :
  skew n = n \/ (node_left n <> Null /\ lvl (node_left n) = lvl n).
Proof.
  destruct n as [|a d lv [|ta td tlv tl tr] r]; simpl; auto.
  destruct (Z.eqb_spec tlv lv); simpl; auto.
  right. split; [discriminate | assumption].
Qed.

Lemma split_unchanged n :
  split n = n
  \/ (node_right (node_right n) <> Null /\ lvl (node_right (node_right n)) = lvl n).
Proof.
  destruct n as [|a d lv l [|ta td tlv tl [|ra rd rlv rl rr]]]; simpl; auto.
  destruct (Z.eqb_spec lv rlv); simpl; auto.
  right. split; [discriminate | congruence].
Qed.

(** C10. [skew] and [split] return a tree with the same nodes (addresses)
    holding the same key, value and flags, in the same left-to-right order.
    [skew] returns its argument unless the left child exists and has the
    level of the node; [split] returns its argument unless the right
    grandchild exists and has the level of the node. *)
Theorem skew_split_same_entries (n : onion_dict_node) :
  inorder (skew n) = inorder n
  /\ inorder (split n) = inorder n
  /\ (skew n = n \/ (node_left n <> Null /\ lvl (node_left n) = lvl n))
  /\ (split n = n
      \/ (node_right (node_right n) <> Null
          /\ lvl (node_right (node_right n)) = lvl n)).
Proof.
  repeat split.
  - apply inorder_skew.
  - apply inorder_split.
  - destruct (skew_unchanged n) as [H|[H1 H2]]; [left|right]; auto.
  - destruct (split_unchanged n) as [H|[H1 H2]]; [left|right]; auto.
Qed.

(** ** Level invariants *)

Lemma aa_tree_node a d lv l r :
  aa_tree (Node a d lv l r) <->
  aa_tree l /\ aa_tree r /\ lvl l = lv - 1
  /\ (lvl r = lv - 1 \/ (lvl r = lv /\ lvl (node_right r) < lv)).
Proof. reflexivity. Qed.

Lemma aa_tree_lvl_nonneg n : aa_tree n -> 0 <= lvl n.
Proof.
  induction n as [|a d lv l IHl r IHr]; simpl; [lia|].
  intros (Hl & _ & El & _). specialize (IHl Hl). lia.
Qed.

Lemma aa_tree_lvl_pos a d lv l r : aa_tree (Node a d lv l r) -> 1 <= lv.
Proof.
  intros (Hl & _ & El & _). pose proof (aa_tree_lvl_nonneg l Hl). lia.
Qed.

Lemma aa_tree_lvl_zero n : aa_tree n -> lvl n = 0 -> n = Null.
Proof.
  destruct n as [|a d lv l r]; [reflexivity|].
  intros H E. apply aa_tree_lvl_pos in H. simpl in E. lia.
Qed.

(** Case analysis on the shape of a tree under the level invariant: the
    hypotheses on a node are replaced by those on its parts. *)
Ltac aa_open :=
  repeat match goal with
         | H : aa_tree Null |- _ => clear H
         | H : aa_tree (Node _ _ _ _ _) |- _ =>
             pose proof (aa_tree_lvl_pos _ _ _ _ _ H);
             destruct (proj1 (aa_tree_node _ _ _ _ _) H) as (? & ? & ? & ?);
             clear H
         end;
  unfold sngl in *; cbn [lvl node_right node_left] in *;
  repeat match goal with
         | H : _ /\ _ |- _ => destruct H
         | H : _ \/ _ |- _ => destruct H
         end.

Ltac aa_nonneg :=
  repeat match goal with
         | H : aa_tree ?x |- _ =>
             is_var x;
             lazymatch goal with
             | _ : 0 <= lvl x |- _ => fail
             | _ => pose proof (aa_tree_lvl_nonneg x H)
             end
         end.

Ltac aa_case :=
  match goal with
  | |- context [match ?x with Null => _ | Node _ _ _ _ _ => _ end] =>
      is_var x; destruct x; aa_open
  | |- context [if negb (?u =? ?v) then _ else _] =>
      destruct (Z.eqb_spec u v); cbn [negb]
  | |- context [if ?u <? ?v then _ else _] =>
      destruct (Z.ltb_spec u v)
  end; try (exfalso; lia).

Ltac aa_close :=
  cbn [aa_tree skew split negb lvl node_right node_left]; unfold sngl;
  cbn [lvl node_right node_left];
  repeat match goal with
         | |- _ /\ _ => split
         | |- aa_tree ?x => assumption
         | |- True => exact I
         end;
  try assumption; try lia.

Ltac aa_solve := aa_open; aa_nonneg; repeat aa_case; aa_close.

Lemma add_fix_left a d lv l l' r :
  aa_tree (Node a d lv l r) -> post_add l l' ->
  post_add (Node a d lv l r) (split (skew (Node a d lv l' r))).
Proof.
  unfold post_add, split, skew. intros H (Hl' & Hlv).
  aa_solve.
Qed.

Lemma add_fix_right a d lv l r r' :
  aa_tree (Node a d lv l r) -> post_add r r' ->
  post_add (Node a d lv l r) (split (skew (Node a d lv l r'))).
Proof.
  unfold post_add, split, skew. intros H (Hr' & Hlv).
  aa_solve.
Qed.

Lemma post_add_node t a d :
  aa_tree t -> post_add t (onion_dict_node_add t (Node a d 1 Null Null)).
Proof.
  induction t as [|b e lv l IHl r IHr]; intros H.
  - unfold post_add, sngl. simpl. intuition lia.
  - cbn [onion_dict_node_add].
    destruct (proj1 (aa_tree_node _ _ _ _ _) H) as (Hl & Hr & _).
    destruct (_ <? 0).
    + apply add_fix_left; auto.
    + apply add_fix_right; auto.
Qed.

(** [decrease_level] in terms of the levels of the children. *)
Lemma decrease_level_eq a d lv l r :
  decrease_level (Node a d lv l r) =
  if Z.min (lvl l) (lvl r) + 1 <? lv then
    Node a d (Z.min (lvl l) (lvl r) + 1) l
         match r with
         | Null => Null
         | Node ra rd rlv rl rr =>
             if Z.min (lvl l) (lvl r) + 1 <? rlv
             then Node ra rd (Z.min (lvl l) (lvl r) + 1) rl rr
             else r
         end
  else Node a d lv l r.
Proof.
  unfold decrease_level.
  replace (Z.min (lvl l) (lvl r))
    with (if lvl l <? lvl r then lvl l else lvl r)
    by (destruct (Z.ltb_spec (lvl l) (lvl r)); lia).
  destruct l, r; reflexivity.
Qed.

(** Evaluation of the rebalancing code on a tree known by its levels. *)
Ltac aa_eval :=
  unfold remove_rebalance, remove_splits, remove_skews;
  rewrite ?decrease_level_eq;
  repeat (cbn [skew split negb lvl node_right node_left]; aa_case).

Lemma del_fix_left a d lv l l' r b e :
  aa_tree (Node a d lv l r) -> post_del l l' ->
  post_del (Node a d lv l r) (remove_rebalance (Node b e lv l' r)).
Proof using.
  intros H Hl'. destruct Hl' as (Hl' & Hlv).
  aa_open; aa_nonneg.
  all: aa_eval.
  all: unfold post_del; aa_close.
Qed.

Lemma del_fix_right a d lv l r r' b e :
  aa_tree (Node a d lv l r) -> post_del r r' ->
  post_del (Node a d lv l r) (remove_rebalance (Node b e lv l r')).
Proof using.
  intros H Hr'. destruct Hr' as (Hr' & Hlv).
  aa_open; aa_nonneg.
  all: aa_eval.
  all: unfold post_del; aa_close.
Qed.

(** ** Removal: the tree it returns *)

Lemma remove_tree_eq node k :
  fst (onion_dict_node_remove node k) =
  match remove_relinked node k with
  | None => Null
  | Some n => remove_rebalance n
  end.
Proof.
  destruct node as [|a d lv l r]; simp onion_dict_node_remove; [reflexivity|].
  cbn [remove_relinked]. cbv zeta.
  destruct (_ <? 0).
  { destruct (onion_dict_node_remove l k); reflexivity. }
  destruct (_ >? 0).
  { destruct (onion_dict_node_remove r k); reflexivity. }
  destruct l as [|la ld llv ll lr].
  - destruct r as [|ra rd rlv rl rr]; [reflexivity|].
    destruct (onion_dict_node_remove _ _); reflexivity.
  - destruct (onion_dict_node_remove _ _); reflexivity.
Qed.

Lemma tree_size_ind (P : onion_dict_node -> Prop) :
  (forall t, (forall t', (size t' < size t)%nat -> P t') -> P t) ->
  forall t, P t.
Proof.
  intros H t.
  assert (G : forall m t', (size t' < m)%nat -> P t').
  { induction m as [|m IH]; intros t' Hm; [lia|].
    apply H. intros t'' Hs. apply IH. lia. }
  apply (G (S (size t))). lia.
Qed.

Lemma size_clear_leftmost n : size (clear_leftmost n) = size n.
Proof.
  induction n as [|a d lv l IHl r _]; simpl; [reflexivity|].
  destruct l; simpl in *; lia.
Qed.

Lemma size_clear_rightmost n : size (clear_rightmost n) = size n.
Proof.
  induction n as [|a d lv l _ r IHr]; simpl; [reflexivity|].
  destruct r; simpl in *; lia.
Qed.

Lemma lvl_clear_leftmost n : lvl (clear_leftmost n) = lvl n.
Proof. destruct n as [|a d lv [|] r]; reflexivity. Qed.

Lemma lvl_clear_rightmost n : lvl (clear_rightmost n) = lvl n.
Proof. destruct n as [|a d lv l [|]]; reflexivity. Qed.

Lemma right_clear_leftmost n : node_right (clear_leftmost n) = node_right n.
Proof. destruct n as [|a d lv [|] r]; reflexivity. Qed.

Lemma right_clear_rightmost n :
  node_right (clear_rightmost n) = clear_rightmost (node_right n).
Proof. destruct n as [|a d lv l [|]]; reflexivity. Qed.

Lemma aa_tree_clear_leftmost n : aa_tree n -> aa_tree (clear_leftmost n).
Proof.
  induction n as [|a d lv l IHl r _]; [auto|].
  intros (Hl & Hr & El & Er).
  destruct l as [|la ld llv ll lr]; [simpl; auto|].
  change (clear_leftmost (Node a d lv (Node la ld llv ll lr) r))
    with (Node a d lv (clear_leftmost (Node la ld llv ll lr)) r).
  apply aa_tree_node. rewrite lvl_clear_leftmost. auto.
Qed.

Lemma aa_tree_clear_rightmost n : aa_tree n -> aa_tree (clear_rightmost n).
Proof.
  induction n as [|a d lv l _ r IHr]; [auto|].
  intros (Hl & Hr & El & Er).
  destruct r as [|ra rd rlv rl rr]; [simpl; auto|].
  change (clear_rightmost (Node a d lv l (Node ra rd rlv rl rr)))
    with (Node a d lv l (clear_rightmost (Node ra rd rlv rl rr))).
  apply aa_tree_node. rewrite lvl_clear_rightmost, right_clear_rightmost,
    lvl_clear_rightmost. auto.
Qed.

Lemma post_del_clear_leftmost r r' :
  post_del (clear_leftmost r) r' -> post_del r r'.
Proof.
  unfold post_del, sngl.
  rewrite lvl_clear_leftmost, right_clear_leftmost. auto.
Qed.

Lemma post_del_clear_rightmost l l' :
  post_del (clear_rightmost l) l' -> post_del l l'.
Proof.
  unfold post_del, sngl.
  rewrite lvl_clear_rightmost, right_clear_rightmost, lvl_clear_rightmost. auto.
Qed.

(** Removal keeps the level rules and lowers the level by at most one. *)
Lemma remove_post_del t :
  forall k, aa_tree t -> post_del t (fst (onion_dict_node_remove t k)).
Proof.
  induction t as [t IH] using tree_size_ind. intros k H.
  rewrite remove_tree_eq.
  destruct t as [|a d lv l r].
  { simpl. unfold post_del, sngl. simpl. intuition lia. }
  destruct (proj1 (aa_tree_node _ _ _ _ _) H) as (Hl & Hr & El & Er).
  cbn [remove_relinked]. cbv zeta.
  destruct (_ <? 0).
  { apply del_fix_left; [assumption|]. apply IH; [simpl; lia | assumption]. }
  destruct (_ >? 0).
  { apply del_fix_right; [assumption|]. apply IH; [simpl; lia | assumption]. }
  destruct l as [|la ld llv ll lr].
  - destruct r as [|ra rd rlv rl rr].
    + unfold post_del, sngl. simpl in *. intuition lia.
    + apply del_fix_right; [assumption|].
      apply post_del_clear_leftmost. apply IH.
      * rewrite size_clear_leftmost. simpl. lia.
      * apply aa_tree_clear_leftmost. assumption.
  - apply del_fix_left; [assumption|].
    apply post_del_clear_rightmost. apply IH.
    + rewrite size_clear_rightmost. simpl. lia.
    + apply aa_tree_clear_rightmost. assumption.
Qed.

Lemma aa_tree_remove t k :
  aa_tree t -> aa_tree (fst (onion_dict_node_remove t k)).
Proof. intros H. apply (remove_post_del t k H). Qed.

Lemma aa_tree_add t a d :
  aa_tree t -> aa_tree (onion_dict_node_add t (Node a d 1 Null Null)).
Proof. intros H. apply (post_add_node t a d H). Qed.

Lemma aa_tree_levels n : aa_tree n -> aa_levels n.
Proof.
  induction n as [|a d lv l IHl r IHr]; [auto|].
  intros H. pose proof (aa_tree_lvl_pos _ _ _ _ _ H) as Hp.
  destruct H as (Hl & Hr & El & Er). cbn [aa_levels].
  repeat split; auto.
  - intros -> ->. simpl in El. lia.
  - intros _. lia.
  - intros Hr0 Hrr. destruct Er as [Er|[Er Err]]; [|assumption].
    destruct r as [|ra rd rlv rl rr]; [congruence|].
    destruct Hr as (_ & Hrr' & _ & Errr). simpl in *. lia.
Qed.

(** The level is at most the logarithm of the number of nodes. *)
Lemma aa_level_log n : aa_tree n -> 2 ^ lvl n <= Z.of_nat (size n) + 1.
Proof.
  induction n as [|a d lv l IHl r IHr]; [simpl; lia|].
  intros H. pose proof (aa_tree_lvl_pos _ _ _ _ _ H) as Hp.
  destruct H as (Hl & Hr & El & Er).
  specialize (IHl Hl). specialize (IHr Hr). rewrite El in IHl.
  assert (Hr2 : 2 ^ (lv - 1) <= Z.of_nat (size r) + 1).
  { destruct Er as [Er|[Er _]]; rewrite Er in IHr; [exact IHr|].
    assert (2 ^ (lv - 1) <= 2 ^ lv) by (apply Z.pow_le_mono_r; lia). lia. }
  cbn [lvl size].
  replace lv with (Z.succ (lv - 1)) at 1 by lia.
  rewrite Z.pow_succ_r by lia. lia.
Qed.

(** ** Keys in order *)

Lemma keys_node a d lv l r :
  keys (Node a d lv l r) = keys l ++ dkey d :: keys r.
Proof.
  unfold keys, entries. simpl. rewrite !map_app. reflexivity.
Qed.

Lemma entries_node a d lv l r :
  entries (Node a d lv l r) = entries l ++ d :: entries r.
Proof.
  unfold entries. simpl. rewrite map_app. reflexivity.
Qed.

Lemma keys_inorder_eq t t' : inorder t = inorder t' -> keys t = keys t'.
Proof. unfold keys, entries. intros ->. reflexivity. Qed.

Lemma sorted_app_cons l1 x l2 :
  StronglySorted key_le (l1 ++ x :: l2) <->
  StronglySorted key_le l1 /\ StronglySorted key_le l2
  /\ Forall (fun y => key_le y x) l1 /\ Forall (key_le x) l2.
Proof.
  induction l1 as [|y l1 IH]; simpl.
  - split.
    + intros H. inversion H; subst. repeat split; auto. constructor.
    + intros (_ & H2 & _ & H4). constructor; auto.
  - split.
    + intros H. inversion H as [|? ? Hs Hf]; subst.
      apply IH in Hs. destruct Hs as (S1 & S2 & F1 & F2).
      rewrite Forall_app in Hf. destruct Hf as (Hf1 & Hf2).
      inversion Hf2; subst.
      repeat split; auto. constructor; auto.
    + intros (S1 & S2 & F1 & F2).
      inversion S1; subst. inversion F1; subst.
      constructor.
      * apply IH. auto.
      * rewrite Forall_app. split; [assumption|].
        constructor; [assumption|].
        eapply Forall_impl; [|exact F2].
        intros z Hz. eapply key_le_trans; eauto.
Qed.

Lemma sorted_node a d lv l r :
  sorted (Node a d lv l r) <->
  sorted l /\ sorted r
  /\ Forall (fun y => key_le y (dkey d)) (keys l)
  /\ Forall (key_le (dkey d)) (keys r).
Proof. unfold sorted. rewrite keys_node. apply sorted_app_cons. Qed.

Lemma all_nodes_Forall P n : all_nodes P n <-> Forall P (entries n).
Proof.
  induction n as [|a d lv l IHl r IHr]; simpl.
  - split; [auto | intros _; constructor].
  - rewrite entries_node, Forall_app, Forall_cons_iff, IHl, IHr. tauto.
Qed.

Lemma all_nodes_keys (P : string -> Prop) n :
  all_nodes (fun x => P (dkey x)) n <-> Forall P (keys n).
Proof.
  rewrite all_nodes_Forall. unfold keys. rewrite Forall_map. reflexivity.
Qed.

Lemma bst_sorted n : bst n <-> sorted n.
Proof.
  induction n as [|a d lv l IHl r IHr].
  - simpl. split; [intros _; constructor | auto].
  - rewrite sorted_node. cbn [bst].
    rewrite (all_nodes_keys (fun y => key_le y (dkey d))),
      (all_nodes_keys (key_le (dkey d))), IHl, IHr.
    tauto.
Qed.

Lemma all_nodes_impl (P Q : onion_dict_node_data -> Prop) n :
  (forall d, P d -> Q d) -> all_nodes P n -> all_nodes Q n.
Proof.
  intros HPQ. induction n as [|a d lv l IHl r IHr]; simpl; [auto|].
  intros (H1 & H2 & H3). auto.
Qed.

Lemma bst_strict_bst n : bst_strict n -> bst n.
Proof.
  induction n as [|a d lv l IHl r IHr]; simpl; [auto|].
  intros (H1 & H2 & H3 & H4). repeat split; auto.
  eapply all_nodes_impl; [|exact H1].
  unfold key_lt, key_le. intros. lia.
Qed.

(** *** Insertion puts one entry in, in order *)

Lemma inorder_add t nn :
  exists l1 l2,
    inorder t = l1 ++ l2
    /\ inorder (onion_dict_node_add t nn) = l1 ++ inorder nn ++ l2.
Proof.
  induction t as [|a d lv l IHl r IHr].
  - exists [], []. simpl. rewrite app_nil_r. auto.
  - cbn [onion_dict_node_add]. cbv zeta.
    rewrite inorder_split, inorder_skew.
    destruct (_ <? 0).
    + destruct IHl as (l1 & l2 & E1 & E2).
      exists l1, (l2 ++ (a, d) :: inorder r). simpl.
      rewrite E1, E2, <- !app_assoc. auto.
    + destruct IHr as (l1 & l2 & E1 & E2).
      exists (inorder l ++ (a, d) :: l1), l2. simpl.
      rewrite E1, E2, <- !app_assoc. auto.
Qed.

Lemma keys_add_incl t nn :
  incl (keys (onion_dict_node_add t nn)) (keys nn ++ keys t).
Proof.
  destruct (inorder_add t nn) as (l1 & l2 & E1 & E2).
  unfold keys, entries. rewrite E1, E2, !map_app.
  intros x. rewrite !in_app_iff. tauto.
Qed.

Lemma sorted_add t a d :
  sorted t -> sorted (onion_dict_node_add t (Node a d 1 Null Null)).
Proof.
  induction t as [|b e lv l IHl r IHr]; intros H.
  - unfold sorted, keys, entries. simpl. repeat constructor.
  - cbn [onion_dict_node_add]. cbv zeta.
    unfold sorted.
    rewrite (keys_inorder_eq _ _ (inorder_split _)),
      (keys_inorder_eq _ _ (inorder_skew _)).
    apply sorted_node in H. destruct H as (Sl & Sr & Fl & Fr).
    cbn [node_key]. fold (dkey d). fold (dkey e).
    destruct (Z.ltb_spec (strcmp (dkey d) (dkey e)) 0) as [C|C];
      apply sorted_node; repeat split; auto.
    + apply Forall_forall. intros x Hx. apply keys_add_incl in Hx.
      rewrite keys_node in Hx. simpl in Hx.
      destruct Hx as [<-|Hx]; [unfold key_le; lia|].
      rewrite Forall_forall in Fl. auto.
    + apply Forall_forall. intros x Hx. apply keys_add_incl in Hx.
      rewrite keys_node in Hx. simpl in Hx.
      destruct Hx as [<-|Hx].
      * unfold key_le. rewrite (strcmp_opp (dkey d) (dkey e)). lia.
      * rewrite Forall_forall in Fr. auto.
Qed.

(** *** Removal takes keys out, in order *)

Lemma keys_clear_leftmost n : keys (clear_leftmost n) = keys n.
Proof.
  induction n as [|a d lv l IHl r _]; [reflexivity|].
  destruct l as [|la ld llv ll lr].
  - cbn [clear_leftmost]. rewrite !keys_node. reflexivity.
  - change (clear_leftmost (Node a d lv (Node la ld llv ll lr) r))
      with (Node a d lv (clear_leftmost (Node la ld llv ll lr)) r).
    rewrite (keys_node a d lv (clear_leftmost _)),
      (keys_node a d lv (Node _ _ _ _ _)), IHl. reflexivity.
Qed.

Lemma keys_clear_rightmost n : keys (clear_rightmost n) = keys n.
Proof.
  induction n as [|a d lv l _ r IHr]; [reflexivity|].
  destruct r as [|ra rd rlv rl rr].
  - cbn [clear_rightmost]. rewrite !keys_node. reflexivity.
  - change (clear_rightmost (Node a d lv l (Node ra rd rlv rl rr)))
      with (Node a d lv l (clear_rightmost (Node ra rd rlv rl rr))).
    rewrite (keys_node a d lv l (clear_rightmost _)),
      (keys_node a d lv l (Node _ _ _ _ _)), IHr. reflexivity.
Qed.

Lemma leftmost_head a d lv l r :
  exists tl, keys (Node a d lv l r) = dkey (leftmost d l) :: tl.
Proof.
  revert a d lv r. induction l as [|la ld llv ll IHl lr _]; intros a d lv r.
  - exists (keys r). rewrite keys_node. reflexivity.
  - destruct (IHl la ld llv lr) as (tl & E).
    exists (tl ++ dkey d :: keys r).
    rewrite keys_node, E. reflexivity.
Qed.

Lemma rightmost_last a d lv l r :
  exists init, keys (Node a d lv l r) = init ++ [dkey (rightmost d r)].
Proof.
  revert a d lv l. induction r as [|ra rd rlv rl _ rr IHr]; intros a d lv l.
  - exists (keys l). rewrite keys_node. reflexivity.
  - destruct (IHr ra rd rlv rl) as (init & E).
    exists (keys l ++ dkey d :: init).
    rewrite keys_node, E, <- app_assoc. reflexivity.
Qed.

Lemma keys_remove_incl t :
  forall k, incl (keys (fst (onion_dict_node_remove t k))) (keys t).
Proof.
  induction t as [t IH] using tree_size_ind. intros k.
  rewrite remove_tree_eq.
  destruct t as [|a d lv l r]; [apply incl_refl|].
  cbn [remove_relinked]. cbv zeta.
  destruct (_ <? 0).
  { rewrite (keys_inorder_eq _ _ (inorder_remove_rebalance _)), !keys_node.
    apply incl_app_app; [|apply incl_refl]. apply IH. simpl. lia. }
  destruct (_ >? 0).
  { rewrite (keys_inorder_eq _ _ (inorder_remove_rebalance _)), !keys_node.
    apply incl_app_app; [apply incl_refl|].
    apply incl_cons; [left; reflexivity|]. apply incl_tl. apply IH. simpl. lia. }
  destruct l as [|la ld llv ll lr].
  - destruct r as [|ra rd rlv rl rr]; [intros x []|].
    rewrite (keys_inorder_eq _ _ (inorder_remove_rebalance _)), !keys_node.
    simpl app. rewrite <- (keys_node ra rd rlv rl rr).
    destruct (leftmost_head ra rd rlv rl rr) as (tl & E).
    apply incl_cons.
    + right. rewrite E. left. reflexivity.
    + apply incl_tl.
      rewrite <- (keys_clear_leftmost (Node ra rd rlv rl rr)).
      apply IH. rewrite size_clear_leftmost. simpl. lia.
  - rewrite (keys_inorder_eq _ _ (inorder_remove_rebalance _)).
    rewrite (keys_node a d), (keys_node a (rightmost ld lr)).
    destruct (rightmost_last la ld llv ll lr) as (init & E).
    intros x. rewrite !in_app_iff. simpl. intros [Hx|[Hx|Hx]]; auto.
    + left. rewrite <- (keys_clear_rightmost (Node la ld llv ll lr)).
      eapply IH; [|exact Hx]. rewrite size_clear_rightmost. simpl. lia.
    + left. rewrite E, in_app_iff. right. left. assumption.
Qed.

Lemma sorted_head_le x tl :
  StronglySorted key_le (x :: tl) -> Forall (key_le x) (x :: tl).
Proof.
  intros H. inversion H; subst. constructor; [apply key_le_refl | assumption].
Qed.

Lemma sorted_last_ge init x :
  StronglySorted key_le (init ++ [x]) ->
  Forall (fun y => key_le y x) (init ++ [x]).
Proof.
  intros H. apply sorted_app_cons in H. destruct H as (_ & _ & F & _).
  rewrite Forall_app. split; [assumption|].
  constructor; [apply key_le_refl | constructor].
Qed.

Lemma sorted_remove t :
  forall k, sorted t -> sorted (fst (onion_dict_node_remove t k)).
Proof.
  induction t as [t IH] using tree_size_ind. intros k H.
  rewrite remove_tree_eq.
  destruct t as [|a d lv l r]; [exact H|].
  apply sorted_node in H. destruct H as (Sl & Sr & Fl & Fr).
  cbn [remove_relinked]. cbv zeta.
  destruct (_ <? 0).
  { unfold sorted. rewrite (keys_inorder_eq _ _ (inorder_remove_rebalance _)).
    apply sorted_node. repeat split; auto.
    - apply IH; [simpl; lia | assumption].
    - rewrite Forall_forall in *. intros x Hx. apply Fl.
      eapply keys_remove_incl; eauto. }
  destruct (_ >? 0).
  { unfold sorted. rewrite (keys_inorder_eq _ _ (inorder_remove_rebalance _)).
    apply sorted_node. repeat split; auto.
    - apply IH; [simpl; lia | assumption].
    - rewrite Forall_forall in *. intros x Hx. apply Fr.
      eapply keys_remove_incl; eauto. }
  destruct l as [|la ld llv ll lr].
  - destruct r as [|ra rd rlv rl rr]; [constructor|].
    unfold sorted. rewrite (keys_inorder_eq _ _ (inorder_remove_rebalance _)).
    apply sorted_node.
    assert (Sc : sorted (clear_leftmost (Node ra rd rlv rl rr))).
    { unfold sorted. rewrite keys_clear_leftmost. exact Sr. }
    repeat split.
    + constructor.
    + apply IH; [rewrite size_clear_leftmost; simpl; lia | assumption].
    + constructor.
    + destruct (leftmost_head ra rd rlv rl rr) as (tl & E).
      unfold sorted in Sr. rewrite E in Sr. apply sorted_head_le in Sr.
      rewrite <- E in Sr.
      rewrite Forall_forall in *. intros x Hx. apply Sr.
      rewrite <- (keys_clear_leftmost (Node ra rd rlv rl rr)).
      eapply keys_remove_incl; eauto.
  - unfold sorted. rewrite (keys_inorder_eq _ _ (inorder_remove_rebalance _)).
    apply sorted_node.
    assert (Sc : sorted (clear_rightmost (Node la ld llv ll lr))).
    { unfold sorted. rewrite keys_clear_rightmost. exact Sl. }
    destruct (rightmost_last la ld llv ll lr) as (init & E).
    assert (Hin : In (dkey (rightmost ld lr)) (keys (Node la ld llv ll lr))).
    { rewrite E, in_app_iff. right. left. reflexivity. }
    repeat split.
    + apply IH; [rewrite size_clear_rightmost; simpl; lia | assumption].
    + assumption.
    + unfold sorted in Sl. rewrite E in Sl. apply sorted_last_ge in Sl.
      rewrite <- E in Sl.
      rewrite Forall_forall in *. intros x Hx. apply Sl.
      rewrite <- (keys_clear_rightmost (Node la ld llv ll lr)).
      eapply keys_remove_incl; eauto.
    + rewrite Forall_forall in *. intros x Hx.
      eapply key_le_trans; [apply Fl; exact Hin | apply Fr; exact Hx].
Qed.

(** *** Removal of an absent key *)

Lemma count_key_node k a d lv l r :
  count_key k (Node a d lv l r) =
  (count_key k l + (if Z.eqb (strcmp k (dkey d)) 0 then 1 else 0)
   + count_key k r)%nat.
Proof.
  unfold count_key. rewrite keys_node, filter_app, length_app. simpl.
  destruct (strcmp k (dkey d) =? 0); simpl; lia.
Qed.

Lemma count_key_inorder_eq k t t' :
  inorder t = inorder t' -> count_key k t = count_key k t'.
Proof. unfold count_key. intros E. rewrite (keys_inorder_eq _ _ E). reflexivity. Qed.

Lemma aa_primitives_id n :
  aa_tree n -> decrease_level n = n /\ skew n = n /\ split n = n.
Proof.
  intros H. destruct n as [|a d lv l r]; [auto|].
  aa_open; aa_nonneg.
  all: repeat split.
  all: rewrite ?decrease_level_eq;
    repeat (cbn [skew split negb lvl node_right node_left]; aa_case);
    reflexivity.
Qed.

Lemma remove_rebalance_id n : aa_tree n -> remove_rebalance n = n.
Proof.
  intros H. destruct n as [|a d lv l r]; [reflexivity|].
  aa_open; aa_nonneg.
  all: aa_eval.
  all: reflexivity.
Qed.

Lemma remove_absent t k :
  aa_tree t -> count_key k t = O -> onion_dict_node_remove t k = (t, []).
Proof.
  induction t as [|a d lv l IHl r IHr]; intros H C;
    simp onion_dict_node_remove; [reflexivity|].
  cbv zeta.
  rewrite count_key_node in C. fold (dkey d).
  destruct (Z.eqb_spec (strcmp k (dkey d)) 0) as [E|E]; [lia|].
  destruct (proj1 (aa_tree_node _ _ _ _ _) H) as (Hl & Hr & _).
  destruct (Z.ltb_spec (strcmp k (dkey d)) 0).
  - rewrite IHl by (auto; lia). rewrite remove_rebalance_id; auto.
  - destruct (Z.gtb_spec (strcmp k (dkey d)) 0); [|lia].
    rewrite IHr by (auto; lia). rewrite remove_rebalance_id; auto.
Qed.

(** *** Removal of a present key *)

Lemma count_key_eq_key k k' t :
  key_eq k k' -> count_key k t = count_key k' t.
Proof.
  intros E. unfold count_key. induction (keys t) as [|x xs IH]; simpl; auto.
  destruct (key_eq_sign k k' x E) as (_ & Z0).
  destruct (Z.eqb_spec (strcmp k x) 0), (Z.eqb_spec (strcmp k' x) 0);
    simpl; try rewrite IH; auto; tauto.
Qed.

Lemma count_key_above k x l :
  key_lt k x -> Forall (key_le x) l ->
  List.length (filter (fun s => strcmp k s =? 0) l) = O.
Proof.
  intros Hk F. induction F as [|y l Hy F IH]; simpl; auto.
  destruct (Z.eqb_spec (strcmp k y) 0) as [E|E]; auto.
  exfalso. pose proof (key_lt_le_trans _ _ _ Hk Hy) as C.
  unfold key_lt in C. lia.
Qed.

Lemma count_key_below k x l :
  key_lt x k -> Forall (fun y => key_le y x) l ->
  List.length (filter (fun s => strcmp k s =? 0) l) = O.
Proof.
  intros Hk F. induction F as [|y l Hy F IH]; simpl; auto.
  destruct (Z.eqb_spec (strcmp k y) 0) as [E|E]; auto.
  exfalso. pose proof (key_le_lt_trans _ _ _ Hy Hk) as C.
  unfold key_lt in C. rewrite (strcmp_opp y k) in E. lia.
Qed.

Lemma strcmp_zero_test k k' x :
  strcmp k x = 0 -> (strcmp k' x =? 0) = (strcmp k' k =? 0).
Proof.
  intros E. destruct (key_eq_sign k x k' E) as (_ & Z0).
  rewrite (strcmp_opp k' k), (strcmp_opp k' x) in Z0.
  destruct (Z.eqb_spec (strcmp k' x) 0), (Z.eqb_spec (strcmp k' k) 0);
    auto; lia.
Qed.

(** A key that is present: one entry with an equal key goes. *)
Lemma count_key_remove t :
  forall k k', sorted t -> (0 < count_key k t)%nat ->
  count_key k' t =
  (count_key k' (fst (onion_dict_node_remove t k))
   + (if Z.eqb (strcmp k' k) 0 then 1 else 0))%nat.
Proof.
  induction t as [t IH] using tree_size_ind. intros k k' S C.
  rewrite remove_tree_eq.
  destruct t as [|a d lv l r]; [unfold count_key in C; simpl in C; lia|].
  apply sorted_node in S. destruct S as (Sl & Sr & Fl & Fr).
  cbn [remove_relinked]. cbv zeta. fold (dkey d).
  rewrite count_key_node in C.
  destruct (Z.ltb_spec (strcmp k (dkey d)) 0) as [C1|C1].
  { rewrite (count_key_inorder_eq _ _ _ (inorder_remove_rebalance _)).
    rewrite !count_key_node.
    assert (count_key k r = O) as Cr by (eapply count_key_above; eauto).
    destruct (Z.eqb_spec (strcmp k (dkey d)) 0); [lia|].
    rewrite (IH l ltac:(simpl; lia) k k' Sl ltac:(lia)). lia. }
  destruct (Z.gtb_spec (strcmp k (dkey d)) 0) as [C2|C2].
  { rewrite (count_key_inorder_eq _ _ _ (inorder_remove_rebalance _)).
    rewrite !count_key_node.
    assert (count_key k l = O) as Cl.
    { eapply count_key_below; [|exact Fl].
      unfold key_lt. rewrite (strcmp_opp k (dkey d)). lia. }
    destruct (Z.eqb_spec (strcmp k (dkey d)) 0); [lia|].
    rewrite (IH r ltac:(simpl; lia) k k' Sr ltac:(lia)). lia. }
  assert (E : strcmp k (dkey d) = 0) by lia.
  rewrite (count_key_node k' a d). rewrite (strcmp_zero_test k k' (dkey d) E).
  destruct l as [|la ld llv ll lr].
  - destruct r as [|ra rd rlv rl rr]; [change (count_key k' Null) with O; lia|].
    rewrite (count_key_inorder_eq _ _ _ (inorder_remove_rebalance _)).
    destruct (leftmost_head ra rd rlv rl rr) as (tl & Et).
    set (t := leftmost rd rl) in *.
    rewrite (count_key_node k' a t lv Null (fst (onion_dict_node_remove _ _))).
    assert (Sc : sorted (clear_leftmost (Node ra rd rlv rl rr))).
    { unfold sorted. rewrite keys_clear_leftmost. exact Sr. }
    assert (Ct : (0 < count_key (dkey t) (clear_leftmost (Node ra rd rlv rl rr)))%nat).
    { unfold count_key. rewrite keys_clear_leftmost, Et. simpl.
      rewrite strcmp_refl. simpl. lia. }
    pose proof (IH (clear_leftmost (Node ra rd rlv rl rr))
                  ltac:(rewrite size_clear_leftmost; simpl; lia)
                  (dkey t) k' Sc Ct) as R.
    unfold count_key in R at 1. rewrite keys_clear_leftmost in R.
    fold (count_key k' (Node ra rd rlv rl rr)) in R.
    change (count_key k' Null) with O. unfold dkey in *. lia.
  - rewrite (count_key_inorder_eq _ _ _ (inorder_remove_rebalance _)).
    destruct (rightmost_last la ld llv ll lr) as (init & Et).
    set (t := rightmost ld lr) in *.
    rewrite (count_key_node k' a t lv (fst (onion_dict_node_remove _ _)) r).
    assert (Sc : sorted (clear_rightmost (Node la ld llv ll lr))).
    { unfold sorted. rewrite keys_clear_rightmost. exact Sl. }
    assert (Ct : (0 < count_key (dkey t) (clear_rightmost (Node la ld llv ll lr)))%nat).
    { unfold count_key. rewrite keys_clear_rightmost, Et, filter_app, length_app.
      simpl. rewrite strcmp_refl. simpl. lia. }
    pose proof (IH (clear_rightmost (Node la ld llv ll lr))
                  ltac:(rewrite size_clear_rightmost; simpl; lia)
                  (dkey t) k' Sc Ct) as R.
    unfold count_key in R at 1. rewrite keys_clear_rightmost in R.
    fold (count_key k' (Node la ld llv ll lr)) in R.
    unfold dkey in *. lia.
Qed.

(** ** Lookup *)

Lemma seven_bit_strcmp a b :
  seven_bit a -> seven_bit b -> -128 < strcmp a b < 128.
Proof.
  revert b. induction a as [|c a IH]; intros [|d b]; simpl.
  - lia.
  - intros _ (Hd & _). pose proof (byte_at_range d). lia.
  - intros (Hc & _) _. pose proof (byte_at_range c). lia.
  - intros (Hc & Ha) (Hd & Hb).
    pose proof (byte_at_range c). pose proof (byte_at_range d).
    destruct (byte_at c =? byte_at d); [|lia].
    destruct (byte_at c =? 0); [lia | auto].
Qed.

Lemma count_key_nil k : count_key k Null = O.
Proof. reflexivity. Qed.

Lemma count_key_In k t a d :
  In (a, d) (inorder t) -> strcmp k (dkey d) = 0 -> (0 < count_key k t)%nat.
Proof.
  intros Hin E.
  assert (Hk : In (dkey d) (keys t)).
  { unfold keys, entries. rewrite map_map. apply (in_map (fun x => dkey (snd x)) _ _ Hin). }
  unfold count_key.
  assert (Hf : In (dkey d) (filter (fun s => strcmp k s =? 0) (keys t))).
  { apply filter_In. split; [assumption|]. rewrite E. reflexivity. }
  destruct (filter _ _); [destruct Hf | simpl; lia].
Qed.

(** Without an entry of that key the search ends on [NULL]. *)
Lemma find_absent t k :
  count_key k t = O -> forall p, fst (onion_dict_find_node t k p) = Null.
Proof.
  induction t as [|a d lv l IHl r IHr]; intros C p; [reflexivity|].
  rewrite count_key_node in C. cbn [onion_dict_find_node]. cbv zeta.
  fold (dkey d).
  destruct (Z.eqb_spec (strcmp k (dkey d)) 0) as [E|E]; [lia|].
  destruct (Z.eqb_spec (to_schar (strcmp k (dkey d))) 0) as [E8|E8].
  { apply to_schar_zero in E8. contradiction. }
  destruct (_ <? 0); [apply IHl; lia|].
  destruct (_ >? 0); [apply IHr; lia | reflexivity].
Qed.

(** On seven-bit keys the search in an ordered tree reaches an entry of the
    key when there is one. *)
Lemma find_present t k :
  sorted t -> (0 < count_key k t)%nat ->
  seven_bit k -> Forall seven_bit (keys t) ->
  forall p, exists a d lv l r,
    fst (onion_dict_find_node t k p) = Node a d lv l r
    /\ In (a, d) (inorder t) /\ strcmp k (dkey d) = 0.
Proof.
  induction t as [|a d lv l IHl r IHr]; intros S C K7 T7 p.
  { rewrite count_key_nil in C. lia. }
  apply sorted_node in S. destruct S as (Sl & Sr & Fl & Fr).
  rewrite keys_node, Forall_app, Forall_cons_iff in T7.
  destruct T7 as (T7l & D7 & T7r).
  rewrite count_key_node in C. cbn [onion_dict_find_node]. cbv zeta.
  fold (dkey d).
  pose proof (seven_bit_strcmp k (dkey d) K7 D7) as Rg.
  rewrite (to_schar_small (strcmp k (dkey d))) by lia.
  destruct (Z.eqb_spec (strcmp k (dkey d)) 0) as [E|E].
  { exists a, d, lv, l, r. simpl. repeat split; auto.
    apply in_or_app. right. left. reflexivity. }
  destruct (Z.ltb_spec (strcmp k (dkey d)) 0) as [C1|C1].
  - assert (count_key k r = O) as Cr by (eapply count_key_above; eauto).
    destruct (IHl Sl ltac:(lia) K7 T7l
                (match p with Some _ => Some (Node a d lv l r) | None => None end))
      as (a' & d' & lv' & l' & r' & F & I & Z0).
    exists a', d', lv', l', r'. repeat split; auto.
    simpl. apply in_or_app. left. assumption.
  - destruct (Z.gtb_spec (strcmp k (dkey d)) 0) as [C2|C2]; [|lia].
    assert (count_key k l = O) as Cl.
    { eapply count_key_below; [|exact Fl].
      unfold key_lt. rewrite (strcmp_opp k (dkey d)). lia. }
    destruct (IHr Sr ltac:(lia) K7 T7r
                (match p with Some _ => Some (Node a d lv l r) | None => None end))
      as (a' & d' & lv' & l' & r' & F & I & Z0).
    exists a', d', lv', l', r'. repeat split; auto.
    simpl. apply in_or_app. right. right. assumption.
Qed.

(** The entry just added is the one found when its key was not there. *)
Lemma find_added t k a d :
  sorted t -> count_key k t = O -> strcmp k (dkey d) = 0 ->
  seven_bit k -> seven_bit (dkey d) -> Forall seven_bit (keys t) ->
  forall p, exists lv l r,
    fst (onion_dict_find_node (onion_dict_node_add t (Node a d 1 Null Null)) k p)
    = Node a d lv l r.
Proof.
  intros S C E K7 D7 T7 p.
  destruct (inorder_add t (Node a d 1 Null Null)) as (l1 & l2 & E1 & E2).
  simpl in E2.
  assert (Hin : In (a, d) (inorder (onion_dict_node_add t (Node a d 1 Null Null)))).
  { rewrite E2. apply in_or_app. right. left. reflexivity. }
  destruct (find_present _ k (sorted_add t a d S)
              (count_key_In k _ a d Hin E) K7) with (p := p)
    as (a' & d' & lv' & l' & r' & F & I & Z0).
  { rewrite Forall_forall in *. intros x Hx. apply keys_add_incl in Hx.
    rewrite keys_node in Hx. simpl in Hx. destruct Hx as [<-|Hx]; auto. }
  rewrite E2 in I. apply in_app_or in I.
  assert (I' : (a', d') = (a, d) \/ In (a', d') (inorder t)).
  { rewrite E1. rewrite in_app_iff. simpl in I.
    destruct I as [I|[I|I]]; auto. }
  destruct I' as [I'|I'].
  - inversion I'; subst. exists lv', l', r'. assumption.
  - pose proof (count_key_In k t a' d' I' Z0). lia.
Qed.

(** ** Count and traversal *)

Lemma size_inorder t : List.length (inorder t) = size t.
Proof.
  induction t as [|a d lv l IHl r IHr]; simpl; [reflexivity|].
  rewrite length_app. simpl. lia.
Qed.

Lemma size_entries t : List.length (entries t) = size t.
Proof. unfold entries. rewrite length_map. apply size_inorder. Qed.

Lemma size_add t nn :
  size (onion_dict_node_add t nn) = (size t + size nn)%nat.
Proof.
  destruct (inorder_add t nn) as (l1 & l2 & E1 & E2).
  rewrite <- !size_inorder, E1, E2, !length_app. lia.
Qed.

Lemma to_int_small z : - INT_MAX - 1 <= z <= INT_MAX -> to_int z = z.
Proof.
  unfold INT_MAX, to_int. intros H. rewrite Z.mod_small; lia.
Qed.

Lemma node_count_size t :
  Z.of_nat (size t) <= INT_MAX -> onion_dict_node_count t = Z.of_nat (size t).
Proof.
  induction t as [|a d lv l IHl r IHr]; intros H; [reflexivity|].
  cbn [onion_dict_node_count]. cbv zeta. cbn [size] in H.
  assert (Hl : onion_dict_node_count l = Z.of_nat (size l)) by (apply IHl; lia).
  assert (Hr : onion_dict_node_count r = Z.of_nat (size r)) by (apply IHr; lia).
  unfold INT_MAX in *.
  destruct l as [|la ld llv ll lr], r as [|ra rd rlv rl rr].
  - reflexivity.
  - rewrite Hr, to_int_small; unfold INT_MAX; cbn [size] in *; lia.
  - rewrite Hl, to_int_small; unfold INT_MAX; cbn [size] in *; lia.
  - rewrite Hl, Hr.
    rewrite (to_int_small (1 + _)) by (unfold INT_MAX; cbn [size] in *; lia).
    rewrite to_int_small; unfold INT_MAX; cbn [size] in *; lia.
Qed.

Lemma dict_count_size d :
  Z.of_nat (size (root d)) <= INT_MAX ->
  onion_dict_count (Some d) = Z.of_nat (size (root d)).
Proof.
  intros H. unfold onion_dict_count.
  destruct (root d) eqn:E; [reflexivity|].
  apply node_count_size. assumption.
Qed.

Lemma node_preorder_fold {Ctx : Type} t (f : cstr -> cstr -> Ctx -> Ctx) :
  forall s,
    onion_dict_node_preorder t f s
    = fold_left (fun s d => f (key d) (value d) s) (entries t) s.
Proof.
  induction t as [|a d lv l IHl r IHr]; intros s; [reflexivity|].
  rewrite entries_node, fold_left_app. cbn [fold_left].
  cbn [onion_dict_node_preorder]. cbv zeta.
  rewrite <- IHl, <- IHr.
  destruct l, r; reflexivity.
Qed.

Lemma dict_preorder_fold {Ctx : Type} d (f : cstr -> cstr -> Ctx -> Ctx) s :
  onion_dict_preorder (Some d) f s
  = fold_left (fun s e => f (key e) (value e) s) (entries (root d)) s.
Proof.
  unfold onion_dict_preorder. rewrite <- node_preorder_fold.
  destruct (root d); reflexivity.
Qed.

Lemma fold_left_record {A B : Type} (g : A -> B) (l : list A) (acc : list B) :
  fold_left (fun tr e => tr ++ [g e]) l acc = acc ++ map g l.
Proof.
  revert acc. induction l as [|x l IH]; intros acc; simpl.
  - rewrite app_nil_r. reflexivity.
  - rewrite IH, <- app_assoc. reflexivity.
Qed.

(** ** Memory released by removal *)

(** Permutations of address lists are compared by counting occurrences. *)
Ltac perm_count x :=
  apply (Permutation_count_occ Z.eq_dec); intros x;
  repeat match goal with
         | H : Permutation _ _ |- _ =>
             pose proof (proj1 (Permutation_count_occ Z.eq_dec _ _) H x);
             clear H
         end;
  repeat rewrite count_occ_app in *.

Lemma node_free_inorder t :
  Permutation (onion_dict_node_free t)
    (flat_map (fun e => onion_dict_node_data_free (snd e) ++ [fst e]) (inorder t)).
Proof.
  induction t as [|a d lv l IHl r IHr]; simpl; [constructor|].
  rewrite flat_map_app. simpl.
  perm_count x. simpl. lia.
Qed.

Lemma node_free_inorder_eq t t' :
  inorder t = inorder t' ->
  Permutation (onion_dict_node_free t) (onion_dict_node_free t').
Proof.
  intros E. rewrite (node_free_inorder t), (node_free_inorder t'), E.
  reflexivity.
Qed.

Lemma data_free_clear d : onion_dict_node_data_free (clear_flags d) = [].
Proof. reflexivity. Qed.

Lemma donor_leftmost ra rd rlv rl rr :
  Permutation
    (onion_dict_node_data_free (leftmost rd rl)
     ++ onion_dict_node_free (clear_leftmost (Node ra rd rlv rl rr)))
    (onion_dict_node_free (Node ra rd rlv rl rr)).
Proof.
  revert ra rd rlv rr. induction rl as [|la ld llv ll IHl lr _]; intros.
  - cbn [clear_leftmost leftmost onion_dict_node_free].
    rewrite data_free_clear. perm_count x. simpl. lia.
  - change (clear_leftmost (Node ra rd rlv (Node la ld llv ll lr) rr))
      with (Node ra rd rlv (clear_leftmost (Node la ld llv ll lr)) rr).
    specialize (IHl la ld llv lr).
    cbn [leftmost]. cbn [onion_dict_node_free] in *.
    perm_count x. simpl in *. lia.
Qed.

Lemma donor_rightmost la ld llv ll lr :
  Permutation
    (onion_dict_node_data_free (rightmost ld lr)
     ++ onion_dict_node_free (clear_rightmost (Node la ld llv ll lr)))
    (onion_dict_node_free (Node la ld llv ll lr)).
Proof.
  revert la ld llv ll. induction lr as [|ra rd rlv rl _ rr IHr]; intros.
  - cbn [clear_rightmost rightmost onion_dict_node_free].
    rewrite data_free_clear. perm_count x. simpl. lia.
  - change (clear_rightmost (Node la ld llv ll (Node ra rd rlv rl rr)))
      with (Node la ld llv ll (clear_rightmost (Node ra rd rlv rl rr))).
    specialize (IHr ra rd rlv rl).
    cbn [rightmost]. cbn [onion_dict_node_free] in *.
    perm_count x. simpl in *. lia.
Qed.

(** What removal releases and what is left to release add up to what there
    was to release. *)
Lemma remove_conserves t :
  forall k,
    Permutation
      (snd (onion_dict_node_remove t k)
       ++ onion_dict_node_free (fst (onion_dict_node_remove t k)))
      (onion_dict_node_free t).
Proof.
  induction t as [t IH] using tree_size_ind. intros k.
  destruct t as [|a d lv l r]; simp onion_dict_node_remove; [constructor|].
  cbv zeta.
  destruct (_ <? 0).
  { pose proof (IH l ltac:(simpl; lia) k) as R.
    destruct (onion_dict_node_remove l k) as [l' w]. cbn [fst snd] in *.
    pose proof (node_free_inorder_eq _ _
                  (inorder_remove_rebalance (Node a d lv l' r))) as B.
    cbn [onion_dict_node_free] in *. perm_count x. lia. }
  destruct (_ >? 0).
  { pose proof (IH r ltac:(simpl; lia) k) as R.
    destruct (onion_dict_node_remove r k) as [r' w]. cbn [fst snd] in *.
    pose proof (node_free_inorder_eq _ _
                  (inorder_remove_rebalance (Node a d lv l r'))) as B.
    cbn [onion_dict_node_free] in *. perm_count x. lia. }
  destruct l as [|la ld llv ll lr].
  - destruct r as [|ra rd rlv rl rr].
    + cbn [fst snd onion_dict_node_free]. perm_count x. simpl. lia.
    + pose proof (IH (clear_leftmost (Node ra rd rlv rl rr))
                    ltac:(rewrite size_clear_leftmost; simpl; lia)
                    (bytes (key (leftmost rd rl)))) as R.
      pose proof (donor_leftmost ra rd rlv rl rr) as D.
      destruct (onion_dict_node_remove _ _) as [r' w]. cbn [fst snd] in *.
      pose proof (node_free_inorder_eq _ _
                    (inorder_remove_rebalance (Node a (leftmost rd rl) lv Null r'))) as B.
      remember (Node ra rd rlv rl rr) as r0.
      cbn [onion_dict_node_free app] in B |- *.
      perm_count x. lia.
  - pose proof (IH (clear_rightmost (Node la ld llv ll lr))
                  ltac:(rewrite size_clear_rightmost; simpl; lia)
                  (bytes (key (rightmost ld lr)))) as R.
    pose proof (donor_rightmost la ld llv ll lr) as D.
    destruct (onion_dict_node_remove _ _) as [l' w]. cbn [fst snd] in *.
    pose proof (node_free_inorder_eq _ _
                  (inorder_remove_rebalance (Node a (rightmost ld lr) lv l' r))) as B.
    remember (Node la ld llv ll lr) as l0.
    cbn [onion_dict_node_free app] in B |- *.
    perm_count x. lia.
Qed.

(** ** Key blocks read after their release *)

Lemma existsb_eqb_false p l : ~ In p l -> existsb (Z.eqb p) l = false.
Proof.
  intros N. destruct (existsb (Z.eqb p) l) eqn:E; [|reflexivity].
  apply existsb_exists in E. destruct E as (x & I & E).
  apply Z.eqb_eq in E. subst x. contradiction.
Qed.

Lemma existsb_eqb_true p l : existsb (Z.eqb p) l = false -> ~ In p l.
Proof.
  intros E I. assert (T : existsb (Z.eqb p) l = true).
  { apply existsb_exists. exists p. split; [exact I | apply Z.eqb_refl]. }
  congruence.
Qed.

Lemma keys_apart_apart l : keys_apart l = true -> apart l.
Proof.
  unfold keys_apart. intros H l1 n l2 E m Hm Hin. subst l.
  rewrite forallb_forall in H.
  specialize (H n ltac:(apply in_elt)). apply Nat.eqb_eq in H.
  unfold due in H. rewrite flat_map_app in H. cbn [flat_map] in H.
  rewrite count_occ_app in H. cbn [app count_occ] in H.
  fold (due l1) in H. fold (due l2) in H.
  assert (C : (count_occ Z.eq_dec
                 (onion_dict_node_data_free (snd n) ++ due l2)
                 (addr (key (snd n)))
               = count_occ Z.eq_dec (onion_dict_node_data_free (snd n))
                   (addr (key (snd n)))
                 + count_occ Z.eq_dec (due l2) (addr (key (snd n))))%nat)
    by apply count_occ_app.
  assert (D : In (addr (key (snd n))) (due l1 ++ due l2)).
  { apply in_app_or in Hm. apply in_or_app.
    destruct Hm as [Hm|Hm]; [left|right]; unfold due; apply in_flat_map;
      exists m; split; assumption. }
  apply in_app_or in D.
  destruct D as [D|D]; apply (count_occ_In Z.eq_dec) in D;
    destruct (Z.eq_dec (fst n) (addr (key (snd n)))); lia.
Qed.

Lemma keys_readable_live dict h :
  keys_readable (dict, h) = true ->
  forall n, In n (inorder (root dict)) -> ~ In (addr (key (snd n))) (released h).
Proof.
  unfold keys_readable. cbn [fst snd]. intros H n I.
  apply andb_prop in H. destruct H as (L & _).
  rewrite forallb_forall in L.
  specialize (L (snd n) ltac:(unfold entries; apply in_map; exact I)).
  apply negb_true_iff in L. apply existsb_eqb_true. exact L.
Qed.

Lemma keys_readable_apart dict h :
  keys_readable (dict, h) = true -> apart (inorder (root dict)).
Proof.
  unfold keys_readable. cbn [fst snd]. intros H.
  apply andb_prop in H. destruct H as (_ & A).
  apply keys_apart_apart. exact A.
Qed.

Lemma apart_sub p m s : apart (p ++ m ++ s) -> apart m.
Proof.
  intros H l1 n l2 E x Hx. subst m.
  apply (H (p ++ l1) n (l2 ++ s)).
  - rewrite <- !app_assoc. reflexivity.
  - rewrite <- app_assoc. apply in_or_app. right.
    apply in_app_or in Hx. destruct Hx as [Hx|Hx];
      apply in_or_app; [left; exact Hx | right; apply in_or_app; left; exact Hx].
Qed.

Lemma apart_other p m s n :
  apart (p ++ m :: s) -> In n (p ++ s) ->
  ~ In (addr (key (snd n))) (fst m :: onion_dict_node_data_free (snd m)).
Proof.
  intros H I. apply in_app_or in I. destruct I as [I|I];
    apply in_split in I; destruct I as (l1 & l2 & ->).
  - apply (H l1 n (l2 ++ m :: s)).
    + rewrite <- app_assoc. reflexivity.
    + apply in_or_app. right. apply in_or_app. right. left. reflexivity.
  - apply (H (p ++ m :: l1) n l2).
    + rewrite <- app_assoc. reflexivity.
    + apply in_or_app. left. apply in_or_app. right. left. reflexivity.
Qed.

Lemma Forall2_In_r {A B : Type} (R : A -> B -> Prop) l l' y :
  Forall2 R l l' -> In y l' -> exists x, In x l /\ R x y.
Proof.
  induction 1 as [|x y' l l' Rxy F IH]; intros I; [destruct I|].
  destruct I as [<-|I].
  - exists x. split; [left; reflexivity | exact Rxy].
  - destruct (IH I) as (x' & I' & R'). exists x'. split; [right|]; assumption.
Qed.

Lemma frees_less_refl l : Forall2 frees_less l l.
Proof.
  induction l as [|n l IH]; constructor; [|exact IH].
  repeat split. apply incl_refl.
Qed.

Lemma apart_relax l l' : Forall2 frees_less l l' -> apart l -> apart l'.
Proof.
  intros F H l1' n' l2' E m' Hm'. subst l'.
  apply Forall2_app_inv_r in F. destruct F as (l1 & l2x & F1 & F2 & ->).
  inversion F2 as [|n n0 l2 l20 Rn F2' E1 E2]. subst.
  destruct (Forall2_In_r _ _ _ _ (Forall2_app F1 F2') Hm') as (m & Hm & Rm).
  destruct Rn as (_ & Kn & _). destruct Rm as (Fm & _ & Im).
  rewrite Kn, Fm. intros [Q|Q].
  - apply (H l1 n l2 eq_refl m Hm). left. exact Q.
  - apply (H l1 n l2 eq_refl m Hm). right. apply Im. exact Q.
Qed.

Lemma clear_leftmost_frees_less r :
  Forall2 frees_less (inorder r) (inorder (clear_leftmost r)).
Proof.
  induction r as [|a d lv l IHl r _]; [constructor|].
  destruct l as [|la ld llv ll lr].
  - cbn [clear_leftmost inorder app]. constructor; [|apply frees_less_refl].
    repeat split. intros x [].
  - change (clear_leftmost (Node a d lv (Node la ld llv ll lr) r))
      with (Node a d lv (clear_leftmost (Node la ld llv ll lr)) r).
    remember (Node la ld llv ll lr) as l0. cbn [inorder].
    apply Forall2_app; [exact IHl | apply frees_less_refl].
Qed.

Lemma clear_rightmost_frees_less l :
  Forall2 frees_less (inorder l) (inorder (clear_rightmost l)).
Proof.
  induction l as [|a d lv l _ r IHr]; [constructor|].
  destruct r as [|ra rd rlv rl rr].
  - cbn [clear_rightmost inorder]. apply Forall2_app; [apply frees_less_refl|].
    constructor; [|constructor]. repeat split. intros x [].
  - change (clear_rightmost (Node a d lv l (Node ra rd rlv rl rr)))
      with (Node a d lv l (clear_rightmost (Node ra rd rlv rl rr))).
    remember (Node ra rd rlv rl rr) as r0. cbn [inorder].
    apply Forall2_app; [apply frees_less_refl|].
    constructor; [|exact IHr]. repeat split. apply incl_refl.
Qed.

Lemma leftmost_inorder ra rd rlv rl rr :
  exists x, In (x, leftmost rd rl) (inorder (Node ra rd rlv rl rr)).
Proof.
  revert ra rd rlv rr. induction rl as [|la ld llv ll IHl lr _]; intros.
  - exists ra. cbn. left. reflexivity.
  - destruct (IHl la ld llv lr) as (x & I). exists x.
    cbn [leftmost]. remember (Node la ld llv ll lr) as l0. cbn [inorder].
    apply in_or_app. left. exact I.
Qed.

Lemma rightmost_inorder la ld llv ll lr :
  exists x, In (x, rightmost ld lr) (inorder (Node la ld llv ll lr)).
Proof.
  revert la ld llv ll. induction lr as [|ra rd rlv rl _ rr IHr]; intros.
  - exists la. cbn. apply in_or_app. right. left. reflexivity.
  - destruct (IHr ra rd rlv rl) as (x & I). exists x.
    cbn [rightmost]. remember (Node ra rd rlv rl rr) as r0. cbn [inorder].
    apply in_or_app. right. right. exact I.
Qed.

(** From a subtree whose key blocks are apart and not released, with a key
    argument that is not released, the removal reads no released block. *)
Lemma stale_reads_nil node :
  forall freed ka k,
    (forall n, In n (inorder node) -> ~ In (addr (key (snd n))) freed) ->
    match ka with Some p => ~ In p freed | None => True end ->
    apart (inorder node) ->
    remove_stale_reads freed node ka k = [].
Proof.
  induction node as [node IH] using tree_size_ind. intros freed ka k L K A.
  destruct node as [|a d lv l r]; simp remove_stale_reads; [reflexivity|].
  cbv zeta.
  assert (Hd : ~ In (addr (key d)) freed).
  { apply (L (a, d)). cbn [inorder]. apply in_elt. }
  assert (Here : filter (fun p => existsb (Z.eqb p) freed)
                   (match ka with Some p => [p] | None => [] end
                    ++ [addr (key d)]) = []).
  { destruct ka as [p|]; cbn [app filter].
    - rewrite (existsb_eqb_false _ _ K), (existsb_eqb_false _ _ Hd).
      reflexivity.
    - rewrite (existsb_eqb_false _ _ Hd). reflexivity. }
  rewrite Here. cbn [app].
  cbn [inorder] in L, A.
  destruct (_ <? 0).
  { apply IH; [simpl; lia | | exact K |].
    - intros n I. apply L. apply in_or_app. left. exact I.
    - apply (apart_sub [] (inorder l) ((a, d) :: inorder r)). exact A. }
  destruct (_ >? 0).
  { apply IH; [simpl; lia | | exact K |].
    - intros n I. apply L. apply in_or_app. right. right. exact I.
    - apply (apart_sub (inorder l ++ [(a, d)]) (inorder r) []).
      rewrite app_nil_r, <- app_assoc. exact A. }
  assert (Out : forall n, In n (inorder l ++ inorder r) ->
                  ~ In (addr (key (snd n))) (freed ++ onion_dict_node_data_free d)).
  { intros n I Q. apply in_app_or in Q. destruct Q as [Q|Q].
    - revert Q. apply L. apply in_app_or in I. apply in_or_app.
      destruct I as [I|I]; [left | right; right]; exact I.
    - apply (apart_other _ _ _ n A I). right. exact Q. }
  destruct l as [|la ld llv ll lr].
  - destruct r as [|ra rd rlv rl rr]; [reflexivity|].
    apply IH.
    + rewrite size_clear_leftmost. simpl. lia.
    + intros n' I'.
      destruct (Forall2_In_r _ _ _ _ (clear_leftmost_frees_less _) I')
        as (n & I & (_ & Kn & _)).
      rewrite Kn. apply Out. exact I.
    + destruct (leftmost_inorder ra rd rlv rl rr) as (x & I).
      apply (Out (x, leftmost rd rl)). exact I.
    + apply (apart_relax _ _ (clear_leftmost_frees_less _)).
      apply (apart_sub [(a, d)] _ []). rewrite app_nil_r. exact A.
  - apply IH.
    + rewrite size_clear_rightmost. simpl. lia.
    + intros n' I'.
      destruct (Forall2_In_r _ _ _ _ (clear_rightmost_frees_less _) I')
        as (n & I & (_ & Kn & _)).
      rewrite Kn. apply Out. apply in_or_app. left. exact I.
    + destruct (rightmost_inorder la ld llv ll lr) as (x & I).
      apply (Out (x, rightmost ld lr)). apply in_or_app. left. exact I.
    + apply (apart_relax _ _ (clear_rightmost_frees_less _)).
      apply (apart_sub [] _ ((a, d) :: inorder r)). exact A.
Qed.

(** *** The keys left by a removal are not released *)

Lemma apart_two p s n m :
  apart (p ++ s) ->
  (In n s /\ In m p) \/ (In n p /\ In m s) ->
  ~ In (addr (key (snd n))) (fst m :: onion_dict_node_data_free (snd m)).
Proof.
  intros H [(In_ & Im)|(In_ & Im)];
    apply in_split in In_; destruct In_ as (l1 & l2 & ->).
  - apply (H (p ++ l1) n l2).
    + rewrite <- app_assoc. reflexivity.
    + apply in_or_app. left. apply in_or_app. left. exact Im.
  - apply (H l1 n (l2 ++ s)).
    + rewrite <- app_assoc. reflexivity.
    + apply in_or_app. right. apply in_or_app. right. exact Im.
Qed.

Lemma inorder_leftmost ra rd rlv rl rr :
  exists x tl,
    inorder (Node ra rd rlv rl rr) = (x, leftmost rd rl) :: tl
    /\ inorder (clear_leftmost (Node ra rd rlv rl rr))
       = (x, clear_flags (leftmost rd rl)) :: tl.
Proof.
  revert ra rd rlv rr. induction rl as [|la ld llv ll IHl lr _]; intros.
  - exists ra, (inorder rr). split; reflexivity.
  - destruct (IHl la ld llv lr) as (x & tl & E1 & E2).
    exists x, (tl ++ (ra, rd) :: inorder rr).
    change (clear_leftmost (Node ra rd rlv (Node la ld llv ll lr) rr))
      with (Node ra rd rlv (clear_leftmost (Node la ld llv ll lr)) rr).
    cbn [leftmost]. remember (Node la ld llv ll lr) as l0.
    cbn [inorder]. rewrite E1, E2. split; reflexivity.
Qed.

Lemma inorder_rightmost la ld llv ll lr :
  exists x init,
    inorder (Node la ld llv ll lr) = init ++ [(x, rightmost ld lr)]
    /\ inorder (clear_rightmost (Node la ld llv ll lr))
       = init ++ [(x, clear_flags (rightmost ld lr))].
Proof.
  revert la ld llv ll. induction lr as [|ra rd rlv rl _ rr IHr]; intros.
  - exists la, (inorder ll). split; reflexivity.
  - destruct (IHr ra rd rlv rl) as (x & init & E1 & E2).
    exists x, (inorder ll ++ (la, ld) :: init).
    change (clear_rightmost (Node la ld llv ll (Node ra rd rlv rl rr)))
      with (Node la ld llv ll (clear_rightmost (Node ra rd rlv rl rr))).
    cbn [rightmost]. remember (Node ra rd rlv rl rr) as r0.
    cbn [inorder]. rewrite E1, E2, <- !app_assoc. split; reflexivity.
Qed.

(** A removal leaves no key in the tree that was not there. *)
Lemma remove_keys_from t :
  forall k n', In n' (inorder (fst (onion_dict_node_remove t k))) ->
    exists n, In n (inorder t) /\ key (snd n') = key (snd n).
Proof.
  induction t as [t IH] using tree_size_ind. intros k n'.
  rewrite remove_tree_eq.
  destruct t as [|a d lv l r]; [intros []|].
  cbn [remove_relinked]. cbv zeta.
  destruct (_ <? 0).
  { rewrite inorder_remove_rebalance. cbn [inorder]. intros I.
    apply in_app_or in I. destruct I as [I|I].
    - destruct (IH l ltac:(simpl; lia) k n' I) as (n & In_ & E).
      exists n. split; [apply in_or_app; left|]; assumption.
    - exists n'. split; [apply in_or_app; right; exact I | reflexivity]. }
  destruct (_ >? 0).
  { rewrite inorder_remove_rebalance. cbn [inorder]. intros I.
    apply in_app_or in I. destruct I as [I|[I|I]].
    - exists n'. split; [apply in_or_app; left; exact I | reflexivity].
    - exists n'. split; [apply in_or_app; right; left; exact I | reflexivity].
    - destruct (IH r ltac:(simpl; lia) k n' I) as (n & In_ & E).
      exists n. split; [apply in_or_app; right; right|]; assumption. }
  destruct l as [|la ld llv ll lr].
  - destruct r as [|ra rd rlv rl rr]; [intros []|].
    rewrite inorder_remove_rebalance.
    destruct (leftmost_inorder ra rd rlv rl rr) as (x & Ix).
    remember (Node ra rd rlv rl rr) as r0.
    cbn [inorder app]. intros [<-|I].
    + exists (x, leftmost rd rl). split; [right; exact Ix | reflexivity].
    + destruct (IH (clear_leftmost r0)
                  ltac:(rewrite size_clear_leftmost; subst r0; simpl; lia)
                  _ n' I) as (n1 & I1 & E1).
      destruct (Forall2_In_r _ _ _ _ (clear_leftmost_frees_less r0) I1)
        as (n & In_ & (_ & Kn & _)).
      exists n. split; [right; exact In_ | congruence].
  - rewrite inorder_remove_rebalance.
    destruct (rightmost_inorder la ld llv ll lr) as (x & Ix).
    remember (Node la ld llv ll lr) as l0.
    cbn [inorder]. intros I. apply in_app_or in I. destruct I as [I|[<-|I]].
    + destruct (IH (clear_rightmost l0)
                  ltac:(rewrite size_clear_rightmost; subst l0; simpl; lia)
                  _ n' I) as (n1 & I1 & E1).
      destruct (Forall2_In_r _ _ _ _ (clear_rightmost_frees_less l0) I1)
        as (n & In_ & (_ & Kn & _)).
      exists n. split; [apply in_or_app; left; exact In_ | congruence].
    + exists (x, rightmost ld lr).
      split; [apply in_or_app; left; exact Ix | reflexivity].
    + exists n'. split; [apply in_or_app; right; right; exact I | reflexivity].
Qed.

(** What a removal releases was due. *)
Lemma released_due t k x :
  In x (snd (onion_dict_node_remove t k)) ->
  exists m, In m (inorder t)
            /\ In x (fst m :: onion_dict_node_data_free (snd m)).
Proof.
  intros I.
  assert (J : In x (onion_dict_node_free t)).
  { apply (Permutation_in _ (remove_conserves t k)).
    apply in_or_app. left. exact I. }
  apply (Permutation_in _ (node_free_inorder t)) in J.
  apply in_flat_map in J. destruct J as (m & Im & Q).
  exists m. split; [exact Im|].
  apply in_app_or in Q. destruct Q as [Q|[Q|[]]];
    [right; exact Q | left; exact Q].
Qed.

Lemma live_after node :
  forall k,
    apart (inorder node) ->
    (forall n m, In n (inorder node) -> In m (inorder node) ->
                 addr (key (snd n)) <> fst m) ->
    forall n', In n' (inorder (fst (onion_dict_node_remove node k))) ->
      ~ In (addr (key (snd n'))) (snd (onion_dict_node_remove node k)).
Proof.
  induction node as [node IH] using tree_size_ind. intros k A N.
  destruct node as [|a d lv l r]; simp onion_dict_node_remove;
    [intros n' []|].
  cbv zeta. cbn [inorder] in A, N.
  destruct (_ <? 0).
  { assert (Nl : forall n m, In n (inorder l) -> In m (inorder l) ->
                   addr (key (snd n)) <> fst m)
      by (intros; apply N; apply in_or_app; left; assumption).
    pose proof (IH l ltac:(simpl; lia) k (apart_sub [] _ _ A) Nl) as IHl.
    pose proof (released_due l k) as RD.
    destruct (onion_dict_node_remove l k) as [l' w]. cbn [fst snd] in *.
    intros n' I Q. rewrite inorder_remove_rebalance in I. cbn [inorder] in I.
    apply in_app_or in I. destruct I as [I|I]; [exact (IHl n' I Q)|].
    destruct (RD _ Q) as (m & Im & Qm).
    apply (apart_two _ _ n' m A); [left; split; assumption | exact Qm]. }
  destruct (_ >? 0).
  { assert (Ar : apart (inorder r)).
    { apply (apart_sub (inorder l ++ [(a, d)]) (inorder r) []).
      rewrite app_nil_r, <- app_assoc. exact A. }
    assert (Nr : forall n m, In n (inorder r) -> In m (inorder r) ->
                   addr (key (snd n)) <> fst m)
      by (intros; apply N; apply in_or_app; right; right; assumption).
    pose proof (IH r ltac:(simpl; lia) k Ar Nr) as IHr.
    pose proof (released_due r k) as RD.
    destruct (onion_dict_node_remove r k) as [r' w]. cbn [fst snd] in *.
    intros n' I Q. rewrite inorder_remove_rebalance in I. cbn [inorder] in I.
    destruct (RD _ Q) as (m & Im & Qm).
    assert (A' : apart ((inorder l ++ [(a, d)]) ++ inorder r))
      by (rewrite <- app_assoc; exact A).
    apply in_app_or in I. destruct I as [I|[I|I]]; [| |exact (IHr n' I Q)].
    - apply (apart_two _ _ n' m A'); [right; split; [|exact Im] | exact Qm].
      apply in_or_app. left. exact I.
    - apply (apart_two _ _ n' m A'); [right; split; [|exact Im] | exact Qm].
      apply in_or_app. right. left. exact I. }
  destruct l as [|la ld llv ll lr].
  - destruct r as [|ra rd rlv rl rr]; [intros n' []|].
    destruct (inorder_leftmost ra rd rlv rl rr) as (x & tl & E1 & E2).
    remember (Node ra rd rlv rl rr) as r0.
    cbn [app] in A, N.
    assert (Ar : apart (inorder r0)).
    { apply (apart_sub [(a, d)] _ []). rewrite app_nil_r. exact A. }
    assert (Nc : forall n m, In n (inorder (clear_leftmost r0)) ->
                   In m (inorder (clear_leftmost r0)) ->
                   addr (key (snd n)) <> fst m).
    { intros n m In_ Im.
      destruct (Forall2_In_r _ _ _ _ (clear_leftmost_frees_less r0) In_)
        as (n0 & In0 & (_ & Kn & _)).
      destruct (Forall2_In_r _ _ _ _ (clear_leftmost_frees_less r0) Im)
        as (m0 & Im0 & (Fm & _ & _)).
      rewrite Kn, Fm. apply N; right; assumption. }
    pose proof (IH (clear_leftmost r0)
                  ltac:(rewrite size_clear_leftmost; subst r0; simpl; lia)
                  (bytes (key (leftmost rd rl)))
                  (apart_relax _ _ (clear_leftmost_frees_less r0) Ar) Nc) as IHr.
    pose proof (released_due (clear_leftmost r0) (bytes (key (leftmost rd rl))))
      as RD.
    pose proof (remove_keys_from (clear_leftmost r0)
                  (bytes (key (leftmost rd rl)))) as KF.
    destruct (onion_dict_node_remove _ _) as [r' w]. cbn [fst snd] in *.
    assert (It : In (x, leftmost rd rl) (inorder r0))
      by (rewrite E1; left; reflexivity).
    intros n' I Q. rewrite inorder_remove_rebalance in I.
    cbn [inorder app] in I.
    apply in_app_or in Q. destruct I as [<-|I]; destruct Q as [Q|Q].
    + apply (apart_other [] (a, d) (inorder r0) (x, leftmost rd rl) A It).
      right. exact Q.
    + destruct (RD _ Q) as (m' & Im' & Qm). rewrite E2 in Im'.
      destruct Im' as [<-|Im'].
      * cbn in Qm. destruct Qm as [Qm|[]].
        apply (N (x, leftmost rd rl) (x, leftmost rd rl));
          [right; exact It | right; exact It | symmetry; exact Qm].
      * apply (Ar [] (x, leftmost rd rl) tl E1 m' Im'). exact Qm.
    + destruct (KF n' I) as (n1 & I1 & K1).
      destruct (Forall2_In_r _ _ _ _ (clear_leftmost_frees_less r0) I1)
        as (n0 & In0 & (_ & Kn & _)).
      apply (apart_other [] (a, d) (inorder r0) n0 A In0).
      right. rewrite <- Kn, <- K1. exact Q.
    + exact (IHr n' I Q).
  - destruct (inorder_rightmost la ld llv ll lr) as (x & init & E1 & E2).
    remember (Node la ld llv ll lr) as l0.
    assert (Al : apart (inorder l0)) by exact (apart_sub [] _ _ A).
    assert (Nc : forall n m, In n (inorder (clear_rightmost l0)) ->
                   In m (inorder (clear_rightmost l0)) ->
                   addr (key (snd n)) <> fst m).
    { intros n m In_ Im.
      destruct (Forall2_In_r _ _ _ _ (clear_rightmost_frees_less l0) In_)
        as (n0 & In0 & (_ & Kn & _)).
      destruct (Forall2_In_r _ _ _ _ (clear_rightmost_frees_less l0) Im)
        as (m0 & Im0 & (Fm & _ & _)).
      rewrite Kn, Fm. apply N; apply in_or_app; left; assumption. }
    pose proof (IH (clear_rightmost l0)
                  ltac:(rewrite size_clear_rightmost; subst l0; simpl; lia)
                  (bytes (key (rightmost ld lr)))
                  (apart_relax _ _ (clear_rightmost_frees_less l0) Al) Nc) as IHl.
    pose proof (released_due (clear_rightmost l0) (bytes (key (rightmost ld lr))))
      as RD.
    pose proof (remove_keys_from (clear_rightmost l0)
                  (bytes (key (rightmost ld lr)))) as KF.
    destruct (onion_dict_node_remove _ _) as [l' w]. cbn [fst snd] in *.
    assert (It : In (x, rightmost ld lr) (inorder l0))
      by (rewrite E1; apply in_or_app; right; left; reflexivity).
    intros n' I Q. rewrite inorder_remove_rebalance in I.
    cbn [inorder] in I.
    apply in_app_or in Q. apply in_app_or in I.
    destruct I as [I|[<-|I]]; destruct Q as [Q|Q].
    + destruct (KF n' I) as (n1 & I1 & K1).
      destruct (Forall2_In_r _ _ _ _ (clear_rightmost_frees_less l0) I1)
        as (n0 & In0 & (_ & Kn & _)).
      apply (apart_other (inorder l0) (a, d) (inorder r) n0 A
               (in_or_app _ _ _ (or_introl In0))).
      right. rewrite <- Kn, <- K1. exact Q.
    + exact (IHl n' I Q).
    + apply (apart_other (inorder l0) (a, d) (inorder r) (x, rightmost ld lr) A
               (in_or_app _ _ _ (or_introl It))).
      right. exact Q.
    + destruct (RD _ Q) as (m' & Im' & Qm). rewrite E2 in Im'.
      apply in_app_or in Im'. destruct Im' as [Im'|[<-|[]]].
      * apply (Al init (x, rightmost ld lr) [] E1 m'); [|exact Qm].
        rewrite app_nil_r. exact Im'.
      * cbn in Qm. destruct Qm as [Qm|[]].
        apply (N (x, rightmost ld lr) (x, rightmost ld lr));
          [apply in_or_app; left; exact It
          | apply in_or_app; left; exact It | symmetry; exact Qm].
    + apply (apart_other (inorder l0) (a, d) (inorder r) n' A
               (in_or_app _ _ _ (or_intror I))).
      right. exact Q.
    + destruct (RD _ Q) as (m' & Im' & Qm).
      destruct (Forall2_In_r _ _ _ _ (clear_rightmost_frees_less l0) Im')
        as (m0 & Im0 & (Fm & _ & Dm)).
      apply (apart_two (inorder l0) ((a, d) :: inorder r) n' m0 A).
      * left. split; [right; exact I | exact Im0].
      * rewrite <- Fm. destruct Qm as [Qm|Qm]; [left; exact Qm|].
        right. apply Dm. exact Qm.
Qed.

Lemma keys_apart_no_node l :
  keys_apart l = true ->
  forall n m, In n l -> In m l -> addr (key (snd n)) <> fst m.
Proof.
  intros H n m In_ Im E.
  pose proof (keys_apart_apart l H) as A.
  unfold keys_apart in H. rewrite forallb_forall in H.
  pose proof (H n In_) as Hn. apply Nat.eqb_eq in Hn.
  apply in_split in In_. destruct In_ as (l1 & l2 & ->).
  apply in_app_or in Im. destruct Im as [Im|[<-|Im]].
  - apply (A l1 n l2 eq_refl m); [apply in_or_app; left; exact Im|].
    left. symmetry. exact E.
  - unfold due in Hn. rewrite flat_map_app in Hn. cbn [flat_map] in Hn.
    rewrite count_occ_app in Hn. cbn [app count_occ] in Hn.
    assert (C : (count_occ Z.eq_dec
                   (onion_dict_node_data_free (snd n)
                    ++ flat_map (fun n0 => fst n0 :: onion_dict_node_data_free (snd n0)) l2)
                   (addr (key (snd n)))
                 = count_occ Z.eq_dec (onion_dict_node_data_free (snd n))
                     (addr (key (snd n)))
                   + count_occ Z.eq_dec
                       (flat_map (fun n0 => fst n0 :: onion_dict_node_data_free (snd n0)) l2)
                       (addr (key (snd n))))%nat)
      by apply count_occ_app.
    destruct (Z.eq_dec (fst n) (addr (key (snd n)))); [lia | congruence].
  - apply (A l1 n l2 eq_refl m); [apply in_or_app; right; exact Im|].
    left. symmetry. exact E.
Qed.

(** ** The container operations *)

Lemma node_new_shape h k v fl :
  exists d h',
    onion_dict_node_new h k v fl = (Node (brk h) d 1 Null Null, h')
    /\ bytes (key d) = bytes k /\ bytes (value d) = bytes v
    /\ flags d = to_schar fl
    /\ ((Z.land fl OD_DUP_VALUE =? OD_DUP_VALUE) = false -> value d = v).
Proof.
  unfold onion_dict_node_new, onion_dict_set_node_data, strdup, malloc.
  cbn [brk released].
  destruct (Z.land fl OD_DUP_KEY =? OD_DUP_KEY),
    (Z.land fl OD_DUP_VALUE =? OD_DUP_VALUE);
    eexists; eexists; repeat split; try reflexivity; discriminate.
Qed.

Lemma dict_add_shape h dict k v fl :
  exists d h',
    onion_dict_add h dict k v fl
    = (mk_dict (onion_dict_node_add (root dict) (Node (brk h) d 1 Null Null)), h')
    /\ bytes (key d) = bytes k /\ bytes (value d) = bytes v
    /\ flags d = to_schar fl
    /\ ((Z.land fl OD_DUP_VALUE =? OD_DUP_VALUE) = false -> value d = v).
Proof.
  destruct (node_new_shape h k v fl) as (d & h' & E & Hk & Hv & Hf & Hb).
  exists d, h'. unfold onion_dict_add. rewrite E. auto.
Qed.

Lemma dict_remove_shape h dict k :
  onion_dict_remove h dict k
  = (1, mk_dict (fst (onion_dict_node_remove (root dict) k)),
     free_all h (snd (onion_dict_node_remove (root dict) k))).
Proof.
  unfold onion_dict_remove. destruct (onion_dict_node_remove _ _). reflexivity.
Qed.

Lemma apply_operation_invariant st o :
  dict_invariant (root (fst st)) ->
  dict_invariant (root (fst (apply_operation st o))).
Proof.
  intros (S & A). destruct o as [k v fl|k]; cbn [apply_operation].
  - destruct (dict_add_shape (snd st) (fst st) k v fl) as (d & h' & E & _).
    rewrite E. cbn [fst root]. split; [apply sorted_add | apply aa_tree_add]; auto.
  - rewrite dict_remove_shape. cbn [fst root].
    split; [apply sorted_remove | apply aa_tree_remove]; auto.
Qed.

Lemma fold_operations_invariant ops :
  forall st, dict_invariant (root (fst st)) ->
             dict_invariant (root (fst (fold_left apply_operation ops st))).
Proof.
  induction ops as [|o ops IH]; intros st H; [exact H|].
  cbn [fold_left]. apply IH. apply apply_operation_invariant. exact H.
Qed.

Lemma run_dict_invariant h ops : dict_invariant (root (fst (run h ops))).
Proof.
  unfold run. apply fold_operations_invariant.
  unfold onion_dict_new, malloc. cbn [fst root].
  split; [constructor | exact I].
Qed.

(** C1, amended. Take a sequence of [add] and [remove] on a new container
    during which the keys stay readable: before the first and after each of
    its operations no key of the tree lies in a block that has been passed
    to [free], and no key block is due to be freed for another node than its
    own ([keys_readable]).  After it, and so after each of its operations,
    the tree is a search tree in which the keys of the left subtree of a
    node are less than or equal to the key of the node and those of the
    right subtree greater than or equal to it, and it obeys the level rules
    of an AA tree: a leaf has level 1, a left child is one level below its
    parent, a right child on the level of its parent or one below, and a
    right grandchild below its grandparent.

    The condition leaves out the sequences in which the source compares keys
    it has freed ([remove_reads_released_key]); in such a state the bytes
    the source reads are not those of the model. *)
Theorem run_keeps_invariants (h : heap) (ops : list operation) :
  (forall n, keys_readable (run h (firstn n ops)) = true) ->
  bst (root (fst (run h ops)))
  /\ aa_levels (root (fst (run h ops)))
  /\ aa_tree (root (fst (run h ops))).
Proof.
  intros _.
  destruct (run_dict_invariant h ops) as (S & A).
  split; [apply bst_sorted; exact S|].
  split; [apply aa_tree_levels; exact A | exact A].
Qed.

(** C2. [onion_dict_remove] returns 1 whatever the container and the key,
    whether or not an entry of that key was there. *)
Theorem remove_returns_one (h : heap) (dict : onion_dict) (k : string) :
  fst (fst (onion_dict_remove h dict k)) = 1.
Proof. rewrite dict_remove_shape. reflexivity. Qed.

(** C3. On a container that obeys the level rules, removing a key that no
    entry has returns the very same tree and releases nothing; this includes
    the empty container.  The rebalancing steps leave such a tree as it is. *)
Theorem remove_absent_unchanged (h : heap) (dict : onion_dict) (k : string) :
  aa_tree (root dict) -> count_key k (root dict) = O ->
  onion_dict_remove h dict k = (1, dict, h)
  /\ decrease_level (root dict) = root dict
  /\ skew (root dict) = root dict
  /\ split (root dict) = root dict
  /\ remove_rebalance (root dict) = root dict.
Proof.
  intros A C. split.
  - rewrite dict_remove_shape, (remove_absent _ _ A C).
    destruct dict as [t], h as [b rel]. unfold free_all. cbn.
    rewrite app_nil_r. reflexivity.
  - destruct (aa_primitives_id _ A) as (D & K & P).
    repeat split; auto. apply remove_rebalance_id. exact A.
Qed.

Lemma fold_adds_size ops :
  Forall is_add ops ->
  forall st, size (root (fst (fold_left apply_operation ops st)))
             = (size (root (fst st)) + List.length ops)%nat.
Proof.
  induction 1 as [|o ops Ho _ IH]; intros st; cbn [fold_left List.length]; [lia|].
  rewrite IH. destruct o as [k v fl|k]; [|destruct Ho].
  cbn [apply_operation].
  destruct (dict_add_shape (snd st) (fst st) k v fl) as (d & h' & E & _).
  rewrite E. cbn [fst root]. rewrite size_add. simpl. lia.
Qed.

(** C4. [onion_dict_add] puts exactly one new node, holding the given key and
    value, among the nodes of the tree, which all stay as they were, also
    when the key is already there.  After [k] additions to a new container
    and no removal, [onion_dict_count] returns [k] (as long as [k] is an
    [int]). *)
Theorem add_creates_one_node (h : heap) (dict : onion_dict) (k v : cstr)
  (fl : Z) (ops : list operation) :
  (exists d l1 l2,
      inorder (root dict) = l1 ++ l2
      /\ inorder (root (fst (onion_dict_add h dict k v fl)))
         = l1 ++ (brk h, d) :: l2
      /\ bytes (key d) = bytes k /\ bytes (value d) = bytes v
      /\ flags d = to_schar fl)
  /\ (Forall is_add ops -> Z.of_nat (List.length ops) <= INT_MAX ->
      onion_dict_count (Some (fst (run h ops))) = Z.of_nat (List.length ops)).
Proof.
  split.
  - destruct (dict_add_shape h dict k v fl) as (d & h' & E & Hk & Hv & Hf & _).
    destruct (inorder_add (root dict) (Node (brk h) d 1 Null Null))
      as (l1 & l2 & E1 & E2).
    exists d, l1, l2. rewrite E. cbn [fst root]. auto.
  - intros Ha Hn.
    assert (Hs : size (root (fst (run h ops))) = List.length ops).
    { unfold run. rewrite (fold_adds_size ops Ha). reflexivity. }
    rewrite dict_count_size; rewrite Hs; auto.
Qed.

(** C5, amended. When the container is a search tree, no entry has a key
    equal to [k], and [k] and the keys of the container are made of bytes
    below 128, [onion_dict_get] of [k] right after [onion_dict_add] of
    [k] and [v] returns the value kept in the new node: the bytes of [v],
    and [v] itself when the flags do not ask for a copy of the value. *)
Theorem get_after_add (h : heap) (dict : onion_dict) (k v : cstr) (fl : Z) :
  bst (root dict) -> count_key (bytes k) (root dict) = O ->
  seven_bit (bytes k) -> Forall seven_bit (keys (root dict)) ->
  exists v',
    onion_dict_get (fst (onion_dict_add h dict k v fl)) (bytes k) = Some v'
    /\ bytes v' = bytes v
    /\ ((Z.land fl OD_DUP_VALUE =? OD_DUP_VALUE) = false -> v' = v).
Proof.
  intros B C K7 T7.
  destruct (dict_add_shape h dict k v fl) as (d & h' & E & Hk & Hv & Hf & Hb).
  rewrite E. cbn [fst]. unfold onion_dict_get. cbn [root].
  destruct (find_added (root dict) (bytes k) (brk h) d) with (p := @None onion_dict_node)
    as (lv & l & r & F); auto.
  - apply bst_sorted. exact B.
  - unfold dkey. rewrite Hk. apply strcmp_refl.
  - unfold dkey. rewrite Hk. exact K7.
  - rewrite F. exists (value d). auto.
Qed.

(** C6. [onion_dict_preorder] calls the visitor once for each entry, in the
    order left subtree, node, right subtree, whatever the visitor and its
    context; so the calls are as many as the nodes and, on a search tree,
    the keys seen never decrease.  On an empty or [NULL] container the
    visitor is not called.  The container is read only: it is not part of
    the result. *)
Theorem preorder_in_key_order (dict : onion_dict) :
  bst (root dict) ->
  let seen := onion_dict_preorder (Some dict) record_visit [] in
  seen = map (fun e => (key e, value e)) (entries (root dict))
  /\ List.length seen = size (root dict)
  /\ StronglySorted key_le (map (fun kv => bytes (fst kv)) seen)
  /\ (forall (Ctx : Type) (f : cstr -> cstr -> Ctx -> Ctx) (s : Ctx),
         onion_dict_preorder (Some dict) f s
         = fold_left (fun s e => f (key e) (value e) s) (entries (root dict)) s)
  /\ (forall (Ctx : Type) (f : cstr -> cstr -> Ctx -> Ctx) (s : Ctx),
         onion_dict_preorder None f s = s
         /\ onion_dict_preorder (Some (mk_dict Null)) f s = s).
Proof.
  intros B seen.
  assert (E : seen = map (fun e => (key e, value e)) (entries (root dict))).
  { unfold seen. rewrite dict_preorder_fold. unfold record_visit.
    rewrite (fold_left_record (fun e => (key e, value e))). reflexivity. }
  split; [exact E|]. rewrite E.
  split; [rewrite length_map; apply size_entries|].
  split.
  - rewrite map_map. apply bst_sorted in B. exact B.
  - split; [intros; apply dict_preorder_fold | intros; split; reflexivity].
Qed.

(** C7. On a search tree in which exactly one entry has a key equal to [k],
    [onion_dict_get] of [k] after [onion_dict_remove] of [k] finds
    nothing. *)
Theorem get_after_remove (h : heap) (dict : onion_dict) (k : string) :
  bst (root dict) -> count_key k (root dict) = 1%nat ->
  onion_dict_get (snd (fst (onion_dict_remove h dict k))) k = None.
Proof.
  intros B C. rewrite dict_remove_shape. cbn [fst snd].
  unfold onion_dict_get. cbn [root].
  apply bst_sorted in B.
  pose proof (count_key_remove (root dict) k k B ltac:(lia)) as R.
  rewrite strcmp_refl in R. cbn in R.
  rewrite find_absent; [reflexivity | lia].
Qed.

Lemma decrease_level_spec a d lv l r :
  0 <= lvl l -> 0 <= lvl r <= lv -> Z.min (lvl l) (lvl r) + 1 <= lv ->
  let n := Node a d lv l r in
  let should_be := Z.min (lvl (node_left n)) (lvl (node_right n)) + 1 in
  lvl (decrease_level n) = should_be
  /\ lvl (node_right (decrease_level n)) = Z.min (lvl (node_right n)) should_be
  /\ node_left (decrease_level n) = node_left n
  /\ inorder (decrease_level n) = inorder n.
Proof.
  intros Nl Nr H n sb. subst n sb. cbn [node_left node_right].
  split; [|split; [|split; [|apply inorder_decrease_level]]];
    rewrite decrease_level_eq;
    destruct (Z.ltb_spec (Z.min (lvl l) (lvl r) + 1) lv) as [C|C];
    cbn [lvl node_right node_left]; try reflexivity; try lia.
  destruct r as [|ra rd rlv rl rr]; cbn [lvl] in *; [lia|].
  destruct (Z.ltb_spec (Z.min (lvl l) rlv + 1) rlv); cbn [lvl]; lia.
Qed.

Lemma relinked_levels t k n :
  aa_tree t -> remove_relinked t k = Some n ->
  0 <= lvl (node_left n) /\ 0 <= lvl (node_right n) <= lvl n
  /\ Z.min (lvl (node_left n)) (lvl (node_right n)) + 1 <= lvl n.
Proof.
  intros A E. destruct t as [|a d lv l r]; [discriminate|].
  destruct (proj1 (aa_tree_node _ _ _ _ _) A) as (Hl & Hr & El & Er).
  pose proof (aa_tree_lvl_nonneg _ Hl). pose proof (aa_tree_lvl_nonneg _ Hr).
  unfold remove_relinked in E. cbv zeta in E.
  destruct (_ <? 0).
  { destruct (remove_post_del l k Hl) as (Q & P).
    pose proof (aa_tree_lvl_nonneg _ Q).
    injection E as <-. cbn [lvl node_left node_right]. lia. }
  destruct (_ >? 0).
  { destruct (remove_post_del r k Hr) as (Q & P).
    pose proof (aa_tree_lvl_nonneg _ Q).
    injection E as <-. cbn [lvl node_left node_right]. lia. }
  destruct l as [|la ld llv ll lr].
  - destruct r as [|ra rd rlv rl rr]; [discriminate|].
    destruct (remove_post_del _ (bytes (key (leftmost rd rl)))
                (aa_tree_clear_leftmost _ Hr)) as (Q & P).
    pose proof (aa_tree_lvl_nonneg _ Q).
    rewrite lvl_clear_leftmost in P.
    remember (fst (onion_dict_node_remove (clear_leftmost _) _)) as r'.
    injection E as <-. cbn [lvl node_left node_right] in *. lia.
  - destruct (remove_post_del _ (bytes (key (rightmost ld lr)))
                (aa_tree_clear_rightmost _ Hl)) as (Q & P).
    pose proof (aa_tree_lvl_nonneg _ Q).
    rewrite lvl_clear_rightmost in P.
    remember (fst (onion_dict_node_remove (clear_rightmost _) _)) as l'.
    injection E as <-. cbn [lvl node_left node_right] in *. lia.
Qed.

(** C8. Whenever [decrease_level] is called during a removal from a tree
    that obeys the level rules, the node comes out with the level one above
    the lower of its two children (a missing child counting 0) and its right
    child with that same level if it was above it; nothing else changes. *)
Theorem decrease_level_recomputes (t : onion_dict_node) (k : string)
  (n : onion_dict_node) :
  aa_tree t -> decrease_level_call t k n ->
  let should_be := Z.min (lvl (node_left n)) (lvl (node_right n)) + 1 in
  lvl (decrease_level n) = should_be
  /\ lvl (node_right (decrease_level n)) = Z.min (lvl (node_right n)) should_be
  /\ node_left (decrease_level n) = node_left n
  /\ inorder (decrease_level n) = inorder n.
Proof.
  intros A C. induction C as
    [node k n E | a d lv l r k n _ _ IH | a d lv l r k n _ _ IH
    | a d lv ra rd rlv rl rr k n _ _ IH | a d lv la ld llv ll lr r k n _ _ IH].
  - pose proof (relinked_levels _ _ _ A E) as (Nl & Nr & L).
    destruct n as [|b e nlv nl nr].
    + destruct node as [|a d lv l r]; [discriminate|].
      cbn [remove_relinked] in E. cbv zeta in E.
      repeat match type of E with
             | (if ?c then _ else _) = _ => destruct c
             | match ?x with Null => _ | Node _ _ _ _ _ => _ end = _ => destruct x
             end; discriminate.
    + apply decrease_level_spec; assumption.
  - apply IH. apply A.
  - apply IH. apply A.
  - apply IH. apply aa_tree_clear_leftmost. apply A.
  - apply IH. apply aa_tree_clear_rightmost. apply A.
Qed.

Lemma successor_clear r :
  successor (clear_leftmost r) = option_map clear_flags (successor r).
Proof.
  induction r as [|a d lv l IHl r _]; [reflexivity|].
  destruct l as [|la ld llv ll lr]; [reflexivity|].
  destruct ll; [reflexivity | exact IHl].
Qed.

Lemma predecessor_clear l :
  predecessor (clear_rightmost l) = option_map clear_flags (predecessor l).
Proof.
  induction l as [|a d lv l _ r IHr]; [reflexivity|].
  destruct r as [|ra rd rlv rl rr]; [reflexivity|].
  destruct rr; [reflexivity | exact IHr].
Qed.

(** C9. When the entry of the next or previous node is moved into the node
    being removed, that donor node sits in the subtree handed to the
    recursive removal with its flags set to 0, so that freeing its entry
    releases nothing.  When no address is owned twice in the tree, a removal
    releases no address twice and none that the remaining tree still owns:
    what it releases and what the remaining tree owns are together what the
    tree owned. *)
Theorem remove_releases_once (t : onion_dict_node) (k : string) :
  NoDup (onion_dict_node_free t) ->
  Permutation
    (snd (onion_dict_node_remove t k)
     ++ onion_dict_node_free (fst (onion_dict_node_remove t k)))
    (onion_dict_node_free t)
  /\ NoDup (snd (onion_dict_node_remove t k)
            ++ onion_dict_node_free (fst (onion_dict_node_remove t k)))
  /\ NoDup (snd (onion_dict_node_remove t k))
  /\ successor (clear_leftmost (node_right t))
     = option_map clear_flags (successor (node_right t))
  /\ predecessor (clear_rightmost (node_left t))
     = option_map clear_flags (predecessor (node_left t))
  /\ (forall d, onion_dict_node_data_free (clear_flags d) = []).
Proof.
  intros N. pose proof (remove_conserves t k) as P.
  assert (N' : NoDup (snd (onion_dict_node_remove t k)
                      ++ onion_dict_node_free (fst (onion_dict_node_remove t k)))).
  { eapply Permutation_NoDup; [symmetry; exact P | exact N]. }
  repeat split; auto.
  - apply NoDup_app_remove_r in N'. exact N'.
  - apply successor_clear.
  - apply predecessor_clear.
Qed.

(** * Further properties of the operations *)

(** ** Lookup *)

Lemma node_of_refl a d lv l r : node_of (Node a d lv l r) (Node a d lv l r).
Proof. left. reflexivity. Qed.

Lemma node_of_inorder n t :
  node_of n t ->
  match n with
  | Null => False
  | Node a d _ _ _ => In (a, d) (inorder t)
  end.
Proof.
  induction t as [|b e lv l IHl r IHr]; [intros []|].
  intros [->|[H|H]].
  - simpl. apply in_or_app. right. left. reflexivity.
  - specialize (IHl H). destruct n; [assumption|].
    simpl. apply in_or_app. left. assumption.
  - specialize (IHr H). destruct n; [assumption|].
    simpl. apply in_or_app. right. right. assumption.
Qed.

Lemma to_schar_range z : -128 <= to_schar z < 128.
Proof.
  unfold to_schar. pose proof (Z.mod_pos_bound (z + 128) 256 ltac:(lia)). lia.
Qed.

(** The node found, the parent stored, and how they sit in the tree. *)
Lemma find_node_cases t k :
  forall p,
    match onion_dict_find_node t k (Some p) with
    | (Null, q) =>
        (t = Null /\ q = Some p)
        \/ (exists a d lv l r,
               q = Some (Node a d lv l r) /\ node_of (Node a d lv l r) t
               /\ ((to_schar (strcmp k (dkey d)) < 0 /\ l = Null)
                   \/ (0 < to_schar (strcmp k (dkey d)) /\ r = Null)))
    | (Node a d lv l r, q) =>
        strcmp k (dkey d) = 0
        /\ ((Node a d lv l r = t /\ q = Some p)
            \/ (exists P, q = Some P /\ node_of P t
                          /\ (Node a d lv l r = node_left P
                              \/ Node a d lv l r = node_right P)))
    end.
Proof.
  induction t as [|a d lv l IHl r IHr]; intros p.
  { simpl. left. auto. }
  cbn [onion_dict_find_node]. cbv zeta. fold (dkey d).
  destruct (Z.eqb_spec (to_schar (strcmp k (dkey d))) 0) as [E|E].
  { split; [apply to_schar_zero; assumption | left; auto]. }
  destruct (Z.ltb_spec (to_schar (strcmp k (dkey d))) 0) as [C|C].
  - specialize (IHl (Node a d lv l r)).
    destruct (onion_dict_find_node l k (Some (Node a d lv l r)))
      as [[|fa fd flv fl fr] q].
    + right. destruct IHl as [[-> ->]|(a' & d' & lv' & l' & r' & Q & N & S)].
      * exists a, d, lv, Null, r.
        split; [reflexivity|]. split; [apply node_of_refl|]. left. auto.
      * exists a', d', lv', l', r'.
        split; [assumption|]. split; [right; left; assumption | assumption].
    + destruct IHl as (Z0 & [[F ->]|(P & Q & N & S)]);
        (split; [assumption|]); right.
      * exists (Node a d lv l r).
        split; [reflexivity|]. split; [apply node_of_refl|]. left. assumption.
      * exists P.
        split; [assumption|]. split; [right; left; assumption | assumption].
  - destruct (Z.gtb_spec (to_schar (strcmp k (dkey d))) 0) as [C2|C2]; [|lia].
    specialize (IHr (Node a d lv l r)).
    destruct (onion_dict_find_node r k (Some (Node a d lv l r)))
      as [[|fa fd flv fl fr] q].
    + right. destruct IHr as [[-> ->]|(a' & d' & lv' & l' & r' & Q & N & S)].
      * exists a, d, lv, l, Null.
        split; [reflexivity|]. split; [apply node_of_refl|].
        right. split; [lia | reflexivity].
      * exists a', d', lv', l', r'.
        split; [assumption|]. split; [right; right; assumption | assumption].
    + destruct IHr as (Z0 & [[F ->]|(P & Q & N & S)]);
        (split; [assumption|]); right.
      * exists (Node a d lv l r).
        split; [reflexivity|]. split; [apply node_of_refl|]. right. assumption.
      * exists P.
        split; [assumption|]. split; [right; right; assumption | assumption].
Qed.

Lemma find_node_parent_free t k :
  forall p q, fst (onion_dict_find_node t k p) = fst (onion_dict_find_node t k q).
Proof.
  induction t as [|a d lv l IHl r IHr]; intros p q; [reflexivity|].
  cbn [onion_dict_find_node]. cbv zeta.
  destruct (_ =? 0); [reflexivity|].
  destruct (_ <? 0); [apply IHl|].
  destruct (_ >? 0); [apply IHr | reflexivity].
Qed.

Lemma find_node_null_parent t k : snd (onion_dict_find_node t k None) = None.
Proof.
  induction t as [|a d lv l IHl r IHr]; [reflexivity|].
  cbn [onion_dict_find_node]. cbv zeta.
  destruct (_ =? 0); [reflexivity|].
  destruct (_ <? 0); [apply IHl|].
  destruct (_ >? 0); [apply IHr | reflexivity].
Qed.

(** X1. Where the search stops and what it leaves in the parent
    out-parameter.  When the key is not found in a tree that is not empty,
    the parent is the node of the tree under which the search ran out: its
    child on the side the comparison pointed to is missing.  When the key
    is found, the node has a key that compares equal, and the parent is the
    node whose child it is, or is left as it was when the node is the root.
    With a [NULL] out-parameter nothing is stored and the node found is the
    same. *)
Theorem find_node_parent (t : onion_dict_node) (k : string) (p : onion_dict_node) :
  match onion_dict_find_node t k (Some p) with
  | (Null, q) =>
      (t = Null /\ q = Some p)
      \/ (exists a d lv l r,
             q = Some (Node a d lv l r) /\ node_of (Node a d lv l r) t
             /\ ((to_schar (strcmp k (dkey d)) < 0 /\ l = Null)
                 \/ (0 < to_schar (strcmp k (dkey d)) /\ r = Null)))
  | (Node a d lv l r, q) =>
      strcmp k (dkey d) = 0
      /\ ((Node a d lv l r = t /\ q = Some p)
          \/ (exists P, q = Some P /\ node_of P t
                        /\ (Node a d lv l r = node_left P
                            \/ Node a d lv l r = node_right P)))
  end
  /\ snd (onion_dict_find_node t k None) = None
  /\ fst (onion_dict_find_node t k None) = fst (onion_dict_find_node t k (Some p)).
Proof.
  split; [apply find_node_cases|].
  split; [apply find_node_null_parent | apply find_node_parent_free].
Qed.

Lemma find_sound t k :
  forall p a d lv l r,
    fst (onion_dict_find_node t k p) = Node a d lv l r ->
    strcmp k (dkey d) = 0 /\ In (a, d) (inorder t).
Proof.
  induction t as [|b e tlv tl IHl tr IHr]; intros p a d lv l r F;
    [discriminate|].
  cbn [onion_dict_find_node] in F. cbv zeta in F. fold (dkey e) in F.
  destruct (Z.eqb_spec (to_schar (strcmp k (dkey e))) 0) as [E|E].
  { cbn [fst] in F. injection F as <- <- <- <- <-.
    split; [apply to_schar_zero; assumption|].
    simpl. apply in_or_app. right. left. reflexivity. }
  destruct (_ <? 0).
  { destruct (IHl _ _ _ _ _ _ F) as (Z0 & I). split; [assumption|].
    simpl. apply in_or_app. left. assumption. }
  destruct (_ >? 0); [|discriminate].
  destruct (IHr _ _ _ _ _ _ F) as (Z0 & I). split; [assumption|].
  simpl. apply in_or_app. right. right. assumption.
Qed.

(** X2. [onion_dict_get] only returns a value that an entry of the
    container holds under a key comparing equal to the one asked for,
    whatever the shape of the tree. *)
Theorem get_returns_stored_value (dict : onion_dict) (k : string) (v : cstr) :
  onion_dict_get dict k = Some v ->
  exists e, In e (entries (root dict)) /\ strcmp k (dkey e) = 0 /\ value e = v.
Proof.
  unfold onion_dict_get. intros G.
  destruct (fst (onion_dict_find_node (root dict) k None)) as [|a d lv l r] eqn:F;
    [discriminate|].
  injection G as <-.
  destruct (find_sound _ _ _ _ _ _ _ _ F) as (Z0 & I).
  exists d. repeat split; auto.
  unfold entries. apply (in_map snd _ _ I).
Qed.

(** X3. On a search tree with keys of bytes below 128, [onion_dict_get]
    finds nothing exactly when no entry has a key comparing equal to the one
    asked for. *)
Theorem get_none_iff_absent (dict : onion_dict) (k : string) :
  bst (root dict) -> seven_bit k -> Forall seven_bit (keys (root dict)) ->
  (onion_dict_get dict k = None <-> count_key k (root dict) = O).
Proof.
  intros B K7 T7. unfold onion_dict_get. split.
  - intros G. destruct (count_key k (root dict)) eqn:C; [reflexivity|].
    apply bst_sorted in B.
    destruct (find_present (root dict) k B ltac:(lia) K7 T7 None)
      as (a & d & lv & l & r & F & _).
    rewrite F in G. discriminate.
  - intros C. rewrite find_absent; auto.
Qed.

(** ** Entries after an insertion *)

Lemma filter_all {A : Type} (f : A -> bool) (l : list A) :
  (forall x, In x l -> f x = true) -> filter f l = l.
Proof.
  induction l as [|x l IH]; intros H; simpl; [reflexivity|].
  rewrite (H x (or_introl eq_refl)), IH; [reflexivity|].
  intros y Hy. apply H. right. assumption.
Qed.

Lemma filter_none {A : Type} (f : A -> bool) (l : list A) :
  (forall x, In x l -> f x = false) -> filter f l = [].
Proof.
  induction l as [|x l IH]; intros H; simpl; [reflexivity|].
  rewrite (H x (or_introl eq_refl)). apply IH.
  intros y Hy. apply H. right. assumption.
Qed.

Lemma entries_inorder_eq t t' : inorder t = inorder t' -> entries t = entries t'.
Proof. unfold entries. intros ->. reflexivity. Qed.

Lemma keys_entries t : keys t = map dkey (entries t).
Proof. reflexivity. Qed.

Lemma Forall_keys_entries (P : string -> Prop) t :
  Forall P (keys t) -> forall e, In e (entries t) -> P (dkey e).
Proof.
  intros F e He. rewrite Forall_forall in F. apply F.
  rewrite keys_entries. apply in_map. assumption.
Qed.

Lemma entries_add_sorted t a d :
  sorted t ->
  entries (onion_dict_node_add t (Node a d 1 Null Null))
  = filter (fun e => 0 <=? strcmp (dkey d) (dkey e)) (entries t)
    ++ d :: filter (fun e => strcmp (dkey d) (dkey e) <? 0) (entries t).
Proof.
  induction t as [|b e lv l IHl r IHr]; intros S; [reflexivity|].
  apply sorted_node in S. destruct S as (Sl & Sr & Fl & Fr).
  cbn [onion_dict_node_add]. cbv zeta.
  rewrite (entries_inorder_eq _ _ (inorder_split _)),
    (entries_inorder_eq _ _ (inorder_skew _)).
  cbn [node_key]. fold (dkey d). fold (dkey e).
  rewrite (entries_node b e lv l r), !filter_app. cbn [filter].
  destruct (Z.ltb_spec (strcmp (dkey d) (dkey e)) 0) as [C|C].
  - rewrite entries_node, (IHl Sl).
    destruct (Z.leb_spec 0 (strcmp (dkey d) (dkey e))); [lia|].
    rewrite (filter_none _ (entries r)), (filter_all _ (entries r)).
    + rewrite app_nil_r, <- app_assoc. reflexivity.
    + intros x Hx. pose proof (Forall_keys_entries _ _ Fr x Hx) as Lx.
      pose proof (key_lt_le_trans _ _ _ C Lx) as T. unfold key_lt in T.
      apply Z.ltb_lt. assumption.
    + intros x Hx. pose proof (Forall_keys_entries _ _ Fr x Hx) as Lx.
      pose proof (key_lt_le_trans _ _ _ C Lx) as T. unfold key_lt in T.
      apply Z.leb_gt. assumption.
  - rewrite entries_node, (IHr Sr).
    destruct (Z.leb_spec 0 (strcmp (dkey d) (dkey e))); [|lia].
    assert (G : forall x, In x (entries l) -> 0 <= strcmp (dkey d) (dkey x)).
    { intros x Hx. pose proof (Forall_keys_entries _ _ Fl x Hx) as Lx.
      cbv beta in Lx.
      assert (key_le (dkey e) (dkey d)) as Le
        by (unfold key_le; rewrite (strcmp_opp (dkey d) (dkey e)); lia).
      pose proof (key_le_trans _ _ _ Lx Le) as T. unfold key_le in T.
      rewrite (strcmp_opp (dkey d) (dkey x)) in T. lia. }
    rewrite (filter_all _ (entries l)), (filter_none _ (entries l)).
    + cbn [app]. rewrite <- app_assoc. reflexivity.
    + intros x Hx. apply Z.ltb_ge. apply G. assumption.
    + intros x Hx. apply Z.leb_le. apply G. assumption.
Qed.

(** X4. On a search tree [onion_dict_add] puts the new entry behind all the
    entries whose key is less than or equal to its key and before all those
    of a greater key; the other entries keep their order.  Entries of equal
    keys therefore come in the order of their insertion. *)
Theorem add_goes_after_equal_keys (h : heap) (dict : onion_dict) (k v : cstr)
  (fl : Z) :
  bst (root dict) ->
  exists d,
    entries (root (fst (onion_dict_add h dict k v fl)))
    = filter (fun e => 0 <=? strcmp (bytes k) (dkey e)) (entries (root dict))
      ++ d :: filter (fun e => strcmp (bytes k) (dkey e) <? 0) (entries (root dict))
    /\ bytes (key d) = bytes k /\ bytes (value d) = bytes v.
Proof.
  intros B. apply bst_sorted in B.
  destruct (dict_add_shape h dict k v fl) as (d & h' & E & Hk & Hv & _).
  exists d. rewrite E. cbn [fst root].
  rewrite (entries_add_sorted _ _ _ B). unfold dkey at 1 3. rewrite Hk. auto.
Qed.

(** ** Removal on any tree *)

Lemma remove_absent_any t k :
  count_key k t = O ->
  snd (onion_dict_node_remove t k) = []
  /\ inorder (fst (onion_dict_node_remove t k)) = inorder t.
Proof.
  induction t as [|a d lv l IHl r IHr]; intros C;
    simp onion_dict_node_remove; [auto|].
  cbv zeta. rewrite count_key_node in C. fold (dkey d).
  destruct (Z.eqb_spec (strcmp k (dkey d)) 0) as [E|E]; [lia|].
  destruct (Z.ltb_spec (strcmp k (dkey d)) 0).
  - destruct (IHl ltac:(lia)) as (W & I).
    destruct (onion_dict_node_remove l k) as [l' w]. cbn [fst snd] in *.
    rewrite inorder_remove_rebalance. simpl. rewrite I. auto.
  - destruct (Z.gtb_spec (strcmp k (dkey d)) 0); [|lia].
    destruct (IHr ltac:(lia)) as (W & I).
    destruct (onion_dict_node_remove r k) as [r' w]. cbn [fst snd] in *.
    rewrite inorder_remove_rebalance. simpl. rewrite I. auto.
Qed.

(** X5. Removing a key that no entry has releases nothing and keeps every
    node and entry in its place in the order of the keys, on every tree,
    balanced or not; [onion_dict_remove] returns 1 all the same. *)
Theorem remove_absent_keeps_entries (h : heap) (dict : onion_dict) (k : string) :
  count_key k (root dict) = O ->
  inorder (root (snd (fst (onion_dict_remove h dict k)))) = inorder (root dict)
  /\ snd (onion_dict_remove h dict k) = h
  /\ fst (fst (onion_dict_remove h dict k)) = 1.
Proof.
  intros C. rewrite dict_remove_shape. cbn [fst snd root].
  destruct (remove_absent_any _ _ C) as (W & I). rewrite W.
  repeat split; auto.
  destruct h. unfold free_all. cbn. rewrite app_nil_r. reflexivity.
Qed.

(** ** Removal on a search tree *)

Lemma size_remove t :
  forall k, sorted t -> (0 < count_key k t)%nat ->
            size t = S (size (fst (onion_dict_node_remove t k))).
Proof.
  induction t as [t IH] using tree_size_ind. intros k S C.
  rewrite remove_tree_eq.
  destruct t as [|a d lv l r]; [rewrite count_key_nil in C; lia|].
  apply sorted_node in S. destruct S as (Sl & Sr & Fl & Fr).
  cbn [remove_relinked]. cbv zeta. fold (dkey d).
  rewrite count_key_node in C.
  destruct (Z.ltb_spec (strcmp k (dkey d)) 0) as [C1|C1].
  { rewrite <- (size_inorder (remove_rebalance _)), inorder_remove_rebalance,
      size_inorder.
    assert (count_key k r = O) as Cr by (eapply count_key_above; eauto).
    destruct (Z.eqb_spec (strcmp k (dkey d)) 0); [lia|].
    cbn [size]. rewrite (IH l ltac:(simpl; lia) k Sl ltac:(lia)). lia. }
  destruct (Z.gtb_spec (strcmp k (dkey d)) 0) as [C2|C2].
  { rewrite <- (size_inorder (remove_rebalance _)), inorder_remove_rebalance,
      size_inorder.
    assert (count_key k l = O) as Cl.
    { eapply count_key_below; [|exact Fl].
      unfold key_lt. rewrite (strcmp_opp k (dkey d)). lia. }
    destruct (Z.eqb_spec (strcmp k (dkey d)) 0); [lia|].
    cbn [size]. rewrite (IH r ltac:(simpl; lia) k Sr ltac:(lia)). lia. }
  destruct l as [|la ld llv ll lr].
  - destruct r as [|ra rd rlv rl rr]; [reflexivity|].
    rewrite <- (size_inorder (remove_rebalance _)), inorder_remove_rebalance,
      size_inorder.
    destruct (leftmost_head ra rd rlv rl rr) as (tl & Et).
    assert (Sc : sorted (clear_leftmost (Node ra rd rlv rl rr))).
    { unfold sorted. rewrite keys_clear_leftmost. exact Sr. }
    assert (Ct : (0 < count_key (dkey (leftmost rd rl))
                              (clear_leftmost (Node ra rd rlv rl rr)))%nat).
    { unfold count_key. rewrite keys_clear_leftmost, Et. simpl.
      rewrite strcmp_refl. simpl. lia. }
    pose proof (IH (clear_leftmost (Node ra rd rlv rl rr))
                  ltac:(rewrite size_clear_leftmost; simpl; lia)
                  (dkey (leftmost rd rl)) Sc Ct) as R.
    rewrite size_clear_leftmost in R. unfold dkey in R.
    remember (Node ra rd rlv rl rr) as r0.
    cbn [size]. lia.
  - rewrite <- (size_inorder (remove_rebalance _)), inorder_remove_rebalance,
      size_inorder.
    destruct (rightmost_last la ld llv ll lr) as (init & Et).
    assert (Sc : sorted (clear_rightmost (Node la ld llv ll lr))).
    { unfold sorted. rewrite keys_clear_rightmost. exact Sl. }
    assert (Ct : (0 < count_key (dkey (rightmost ld lr))
                              (clear_rightmost (Node la ld llv ll lr)))%nat).
    { unfold count_key. rewrite keys_clear_rightmost, Et, filter_app, length_app.
      simpl. rewrite strcmp_refl. simpl. lia. }
    pose proof (IH (clear_rightmost (Node la ld llv ll lr))
                  ltac:(rewrite size_clear_rightmost; simpl; lia)
                  (dkey (rightmost ld lr)) Sc Ct) as R.
    rewrite size_clear_rightmost in R. unfold dkey in R.
    remember (Node la ld llv ll lr) as l0.
    cbn [size]. lia.
Qed.

(** X6. Take a search tree, equal keys allowed, whose keys are readable,
    and a key that some node has.  After [onion_dict_remove] of that key one
    node less has a key comparing equal to it, as many nodes as before have
    a key comparing equal to any other key, and [onion_dict_count] is one
    less (the number of nodes being an [int]).  This counts the nodes of a
    key and says nothing of their values: with equal keys in the tree the
    node taken out can hold another entry than the one found,
    [remove_drops_entry_of_equal_key]. *)
Theorem remove_leaves_one_key_less (h : heap) (dict : onion_dict)
  (k k' : string) :
  keys_readable (dict, h) = true ->
  bst (root dict) -> (0 < count_key k (root dict))%nat ->
  Z.of_nat (size (root dict)) <= INT_MAX ->
  count_key k' (root dict)
  = (count_key k' (root (snd (fst (onion_dict_remove h dict k))))
     + (if Z.eqb (strcmp k' k) 0 then 1 else 0))%nat
  /\ onion_dict_count (Some (snd (fst (onion_dict_remove h dict k))))
     = onion_dict_count (Some dict) - 1.
Proof.
  intros _ B C M. apply bst_sorted in B.
  rewrite dict_remove_shape. cbn [fst snd].
  split; [apply count_key_remove; assumption|].
  pose proof (size_remove _ k B C) as S.
  rewrite !dict_count_size; cbn [root]; lia.
Qed.

(** ** Containers without equal keys *)

Lemma key_lt_trans a b c : key_lt a b -> key_lt b c -> key_lt a c.
Proof.
  intros H1 H2. eapply key_lt_le_trans; [exact H1|].
  unfold key_lt, key_le in *. lia.
Qed.

Lemma distinct_app_cons l1 x l2 :
  StronglySorted key_lt (l1 ++ x :: l2) <->
  StronglySorted key_lt l1 /\ StronglySorted key_lt l2
  /\ Forall (fun y => key_lt y x) l1 /\ Forall (key_lt x) l2.
Proof.
  induction l1 as [|y l1 IH]; simpl.
  - split.
    + intros H. inversion H; subst. repeat split; auto. constructor.
    + intros (_ & H2 & _ & H4). constructor; auto.
  - split.
    + intros H. inversion H as [|? ? Hs Hf]; subst.
      apply IH in Hs. destruct Hs as (S1 & S2 & F1 & F2).
      rewrite Forall_app in Hf. destruct Hf as (Hf1 & Hf2).
      inversion Hf2; subst.
      repeat split; auto. constructor; auto.
    + intros (S1 & S2 & F1 & F2).
      inversion S1; subst. inversion F1; subst.
      constructor.
      * apply IH. auto.
      * rewrite Forall_app. split; [assumption|].
        constructor; [assumption|].
        eapply Forall_impl; [|exact F2].
        intros z Hz. eapply key_lt_trans; eauto.
Qed.

Lemma distinct_node a d lv l r :
  distinct_keys (Node a d lv l r) <->
  distinct_keys l /\ distinct_keys r
  /\ Forall (fun y => key_lt y (dkey d)) (keys l)
  /\ Forall (key_lt (dkey d)) (keys r).
Proof. unfold distinct_keys. rewrite keys_node. apply distinct_app_cons. Qed.

Lemma distinct_sorted t : distinct_keys t -> sorted t.
Proof.
  unfold distinct_keys, sorted. induction 1 as [|x l S IH F]; constructor; auto.
  eapply Forall_impl; [|exact F]. unfold key_lt, key_le. intros. lia.
Qed.

Lemma entries_leftmost ra rd rlv rl rr :
  exists tl,
    entries (Node ra rd rlv rl rr) = leftmost rd rl :: tl
    /\ entries (clear_leftmost (Node ra rd rlv rl rr))
       = clear_flags (leftmost rd rl) :: tl
    /\ map fst (inorder (clear_leftmost (Node ra rd rlv rl rr)))
       = map fst (inorder (Node ra rd rlv rl rr)).
Proof.
  revert ra rd rlv rr. induction rl as [|la ld llv ll IHl lr _]; intros.
  - exists (entries rr). cbn [clear_leftmost leftmost].
    rewrite !entries_node. repeat split; reflexivity.
  - destruct (IHl la ld llv lr) as (tl & E1 & E2 & E3).
    exists (tl ++ rd :: entries rr).
    change (clear_leftmost (Node ra rd rlv (Node la ld llv ll lr) rr))
      with (Node ra rd rlv (clear_leftmost (Node la ld llv ll lr)) rr).
    cbn [leftmost]. remember (Node la ld llv ll lr) as l0.
    rewrite (entries_node ra rd rlv l0),
      (entries_node ra rd rlv (clear_leftmost l0)), E1, E2.
    cbn [inorder]. rewrite !map_app, E3. repeat split; reflexivity.
Qed.

Lemma entries_rightmost la ld llv ll lr :
  exists init,
    entries (Node la ld llv ll lr) = init ++ [rightmost ld lr]
    /\ entries (clear_rightmost (Node la ld llv ll lr))
       = init ++ [clear_flags (rightmost ld lr)]
    /\ map fst (inorder (clear_rightmost (Node la ld llv ll lr)))
       = map fst (inorder (Node la ld llv ll lr)).
Proof.
  revert la ld llv ll. induction lr as [|ra rd rlv rl _ rr IHr]; intros.
  - exists (entries ll). cbn [clear_rightmost rightmost].
    rewrite !entries_node. repeat split; try reflexivity.
    cbn [inorder]. rewrite !map_app. reflexivity.
  - destruct (IHr ra rd rlv rl) as (init & E1 & E2 & E3).
    exists (entries ll ++ ld :: init).
    change (clear_rightmost (Node la ld llv ll (Node ra rd rlv rl rr)))
      with (Node la ld llv ll (clear_rightmost (Node ra rd rlv rl rr))).
    cbn [rightmost]. remember (Node ra rd rlv rl rr) as r0.
    rewrite (entries_node la ld llv ll r0),
      (entries_node la ld llv ll (clear_rightmost r0)), E1, E2.
    cbn [inorder]. rewrite !map_app. cbn [map]. rewrite E3.
    rewrite <- !app_assoc. repeat split; reflexivity.
Qed.

Lemma differs_above k x (l : list onion_dict_node_data) :
  key_le k x -> Forall (key_lt x) (map dkey l) ->
  filter (fun e => negb (strcmp k (dkey e) =? 0)) l = l.
Proof.
  intros Hk F. apply filter_all. intros e He.
  rewrite Forall_forall in F. specialize (F (dkey e) (in_map dkey _ _ He)).
  pose proof (key_le_lt_trans _ _ _ Hk F) as T. unfold key_lt in T.
  destruct (Z.eqb_spec (strcmp k (dkey e)) 0); [lia | reflexivity].
Qed.

Lemma differs_below k x (l : list onion_dict_node_data) :
  key_le x k -> Forall (fun y => key_lt y x) (map dkey l) ->
  filter (fun e => negb (strcmp k (dkey e) =? 0)) l = l.
Proof.
  intros Hk F. apply filter_all. intros e He.
  rewrite Forall_forall in F. specialize (F (dkey e) (in_map dkey _ _ He)).
  pose proof (key_lt_le_trans _ _ _ F Hk) as T. unfold key_lt in T.
  pose proof (strcmp_opp k (dkey e)).
  destruct (Z.eqb_spec (strcmp k (dkey e)) 0); [lia | reflexivity].
Qed.

(** Without equal keys removal takes out the entry of the key and leaves the
    others as they are.  What it releases is what this entry owns and one
    node. *)
Lemma remove_distinct t :
  forall k, distinct_keys t ->
    entries (fst (onion_dict_node_remove t k))
    = filter (fun e => negb (strcmp k (dkey e) =? 0)) (entries t)
    /\ (forall d, In d (entries t) -> strcmp k (dkey d) = 0 ->
        exists a, In a (map fst (inorder t))
                  /\ snd (onion_dict_node_remove t k)
                     = onion_dict_node_data_free d ++ [a]).
Proof.
  induction t as [t IH] using tree_size_ind. intros k D.
  destruct t as [|a d lv l r]; simp onion_dict_node_remove.
  { split; [reflexivity | intros ? []]. }
  apply distinct_node in D. destruct D as (Dl & Dr & Fl & Fr).
  cbv zeta. fold (dkey d).
  rewrite (entries_node a d lv l r), filter_app. cbn [filter].
  destruct (Z.ltb_spec (strcmp k (dkey d)) 0) as [C1|C1].
  { destruct (IH l ltac:(simpl; lia) k Dl) as (E & W).
    destruct (onion_dict_node_remove l k) as [l' w]. cbn [fst snd] in *.
    rewrite (entries_inorder_eq _ _ (inorder_remove_rebalance _)), entries_node, E.
    destruct (Z.eqb_spec (strcmp k (dkey d)) 0); [lia|]. cbn [negb].
    rewrite (differs_above k (dkey d) (entries r)); [|unfold key_le; lia | exact Fr].
    split; [reflexivity|].
    intros e He Z0. apply in_app_or in He. destruct He as [He|[<-|He]]; [|lia|].
    - destruct (W e He Z0) as (x & Ix & Ex). exists x. split; [|assumption].
      simpl. rewrite map_app. apply in_or_app. left. assumption.
    - exfalso. pose proof (Forall_keys_entries _ _ Fr e He) as T.
      pose proof (key_lt_trans _ _ _ C1 T) as U. unfold key_lt in *. lia. }
  destruct (Z.gtb_spec (strcmp k (dkey d)) 0) as [C2|C2].
  { destruct (IH r ltac:(simpl; lia) k Dr) as (E & W).
    destruct (onion_dict_node_remove r k) as [r' w]. cbn [fst snd] in *.
    rewrite (entries_inorder_eq _ _ (inorder_remove_rebalance _)), entries_node, E.
    destruct (Z.eqb_spec (strcmp k (dkey d)) 0); [lia|]. cbn [negb].
    rewrite (differs_below k (dkey d) (entries l));
      [|unfold key_le; pose proof (strcmp_opp k (dkey d)); lia | exact Fl].
    split; [reflexivity|].
    intros e He Z0. apply in_app_or in He. destruct He as [He|[<-|He]]; [|lia|].
    - exfalso. pose proof (Forall_keys_entries _ _ Fl e He) as T. cbv beta in T.
      assert (key_lt (dkey d) k) as U
        by (unfold key_lt; pose proof (strcmp_opp k (dkey d)); lia).
      pose proof (key_lt_trans _ _ _ T U) as V.
      unfold key_lt in V. pose proof (strcmp_opp k (dkey e)). lia.
    - destruct (W e He Z0) as (x & Ix & Ex). exists x. split; [|assumption].
      simpl. rewrite map_app. apply in_or_app. right. right. assumption. }
  assert (E0 : strcmp k (dkey d) = 0) by lia.
  rewrite E0. cbn [Z.eqb negb].
  assert (Kd : key_le k (dkey d)) by (unfold key_le; lia).
  assert (Dk : key_le (dkey d) k)
    by (unfold key_le; pose proof (strcmp_opp k (dkey d)); lia).
  rewrite (differs_above k (dkey d) (entries r) Kd Fr),
    (differs_below k (dkey d) (entries l) Dk Fl).
  assert (Only : forall e, In e (entries l ++ d :: entries r) ->
                           strcmp k (dkey e) = 0 -> e = d).
  { intros e He Z0. apply in_app_or in He. destruct He as [He|[<-|He]]; auto.
    - exfalso. pose proof (Forall_keys_entries _ _ Fl e He) as T. cbv beta in T.
      pose proof (key_lt_le_trans _ _ _ T Dk) as V.
      unfold key_lt in V. pose proof (strcmp_opp k (dkey e)). lia.
    - exfalso. pose proof (Forall_keys_entries _ _ Fr e He) as T.
      pose proof (key_le_lt_trans _ _ _ Kd T) as V. unfold key_lt in V. lia. }
  destruct l as [|la ld llv ll lr].
  - destruct r as [|ra rd rlv rl rr].
    + cbn [fst snd]. split; [reflexivity|].
      intros e He Z0. rewrite (Only e He Z0). exists a.
      split; [left; reflexivity | reflexivity].
    + destruct (entries_leftmost ra rd rlv rl rr) as (tl & E1 & E2 & E3).
      assert (Dc : distinct_keys (clear_leftmost (Node ra rd rlv rl rr))).
      { unfold distinct_keys. rewrite keys_clear_leftmost. exact Dr. }
      destruct (IH (clear_leftmost (Node ra rd rlv rl rr))
                  ltac:(rewrite size_clear_leftmost; simpl; lia)
                  (bytes (key (leftmost rd rl))) Dc) as (E & W).
      specialize (W (clear_flags (leftmost rd rl))).
      rewrite E2 in W, E. specialize (W (or_introl eq_refl) (strcmp_refl _)).
      destruct W as (x & Ix & Ex). rewrite E3 in Ix.
      destruct (onion_dict_node_remove _ _) as [r' w]. cbn [fst snd] in *.
      rewrite (entries_inorder_eq _ _ (inorder_remove_rebalance _)), entries_node, E.
      cbn [filter]. change (dkey (clear_flags (leftmost rd rl)))
        with (bytes (key (leftmost rd rl))).
      rewrite strcmp_refl. cbn [Z.eqb negb].
      unfold distinct_keys in Dr. rewrite keys_entries, E1 in Dr.
      cbn [map] in Dr. apply StronglySorted_inv in Dr. destruct Dr as (_ & Ftl).
      rewrite (differs_above (bytes (key (leftmost rd rl)))
                 (dkey (leftmost rd rl)) tl (key_le_refl _) Ftl).
      split; [rewrite E1; reflexivity|].
      intros e He Z0. rewrite (Only e He Z0). exists x.
      split; [|rewrite Ex, data_free_clear; reflexivity].
      cbn [inorder app map]. right. assumption.
  - destruct (entries_rightmost la ld llv ll lr) as (init & E1 & E2 & E3).
    assert (Dc : distinct_keys (clear_rightmost (Node la ld llv ll lr))).
    { unfold distinct_keys. rewrite keys_clear_rightmost. exact Dl. }
    destruct (IH (clear_rightmost (Node la ld llv ll lr))
                ltac:(rewrite size_clear_rightmost; simpl; lia)
                (bytes (key (rightmost ld lr))) Dc) as (E & W).
    specialize (W (clear_flags (rightmost ld lr))).
    rewrite E2 in W, E.
    specialize (W ltac:(apply in_or_app; right; left; reflexivity)
                    (strcmp_refl _)).
    destruct W as (x & Ix & Ex). rewrite E3 in Ix.
    destruct (onion_dict_node_remove _ _) as [l' w]. cbn [fst snd] in *.
    rewrite (entries_inorder_eq _ _ (inorder_remove_rebalance _)), entries_node, E.
    rewrite filter_app. cbn [filter].
    change (dkey (clear_flags (rightmost ld lr)))
      with (bytes (key (rightmost ld lr))).
    rewrite strcmp_refl. cbn [Z.eqb negb].
    unfold distinct_keys in Dl. rewrite keys_entries, E1, map_app in Dl.
    apply distinct_app_cons in Dl. destruct Dl as (_ & _ & Finit & _).
    rewrite (differs_below (bytes (key (rightmost ld lr)))
               (dkey (rightmost ld lr)) init (key_le_refl _) Finit).
    split; [rewrite E1, app_nil_r, <- app_assoc; reflexivity|].
    intros e He Z0. rewrite (Only e He Z0). exists x.
    split; [|rewrite Ex, data_free_clear; reflexivity].
    remember (Node la ld llv ll lr) as l0.
    cbn [inorder]. rewrite map_app. apply in_or_app. left. assumption.
Qed.

Lemma distinct_filter (f : onion_dict_node_data -> bool) l :
  StronglySorted key_lt (map dkey l) ->
  StronglySorted key_lt (map dkey (filter f l)).
Proof.
  induction l as [|x l IH]; intros S; [constructor|].
  cbn [map] in S. apply StronglySorted_inv in S. destruct S as (S & F).
  cbn [filter]. destruct (f x); [|auto].
  cbn [map]. constructor; [auto|].
  rewrite Forall_forall in *. intros y Hy. apply F.
  apply in_map_iff in Hy. destruct Hy as (e & <- & He).
  apply filter_In in He. apply in_map. apply He.
Qed.

Lemma distinct_unique l d e :
  StronglySorted key_lt (map dkey l) ->
  In d l -> In e l -> strcmp (dkey d) (dkey e) = 0 -> d = e.
Proof.
  induction l as [|x l IH]; intros S Hd He Z0; [destruct Hd|].
  cbn [map] in S. apply StronglySorted_inv in S. destruct S as (S & F).
  rewrite Forall_forall in F.
  destruct Hd as [<-|Hd], He as [<-|He]; auto.
  - exfalso. specialize (F (dkey e) (in_map dkey _ _ He)).
    unfold key_lt in F. lia.
  - exfalso. specialize (F (dkey d) (in_map dkey _ _ Hd)).
    unfold key_lt in F. pose proof (strcmp_opp (dkey d) (dkey x)). lia.
Qed.

Lemma absent_entries k t :
  count_key k t = O -> forall e, In e (entries t) -> strcmp k (dkey e) <> 0.
Proof.
  intros C e He Z0. unfold entries in He. apply in_map_iff in He.
  destruct He as ((a & e') & <- & I). cbn [snd] in Z0.
  pose proof (count_key_In k t a e' I Z0). lia.
Qed.

Lemma distinct_add t a d :
  distinct_keys t -> count_key (dkey d) t = O ->
  distinct_keys (onion_dict_node_add t (Node a d 1 Null Null)).
Proof.
  intros D C. pose proof (absent_entries _ _ C) as A.
  unfold distinct_keys in *. rewrite keys_entries in *.
  rewrite (entries_add_sorted t a d (distinct_sorted t D)), map_app. cbn [map].
  apply distinct_app_cons.
  split; [apply distinct_filter; assumption|].
  split; [apply distinct_filter; assumption|].
  split; apply Forall_forall; intros y Hy; apply in_map_iff in Hy;
    destruct Hy as (e & <- & He); apply filter_In in He; destruct He as (He & T).
  - apply Z.leb_le in T. specialize (A e He).
    unfold key_lt. pose proof (strcmp_opp (dkey d) (dkey e)). lia.
  - apply Z.ltb_lt in T. exact T.
Qed.

(** X7. In a container without equal keys [onion_dict_remove] takes out the
    entry of the key and leaves every other entry as it is, key, value and
    flags, in the same order; the keys stay without equals. *)
Theorem remove_takes_the_entry (h : heap) (dict : onion_dict) (k : string) :
  distinct_keys (root dict) ->
  entries (root (snd (fst (onion_dict_remove h dict k))))
  = filter (fun e => negb (strcmp k (dkey e) =? 0)) (entries (root dict))
  /\ distinct_keys (root (snd (fst (onion_dict_remove h dict k)))).
Proof.
  intros D. rewrite dict_remove_shape. cbn [fst snd root].
  destruct (remove_distinct _ k D) as (E & _).
  split; [exact E|].
  unfold distinct_keys. rewrite keys_entries, E.
  apply distinct_filter. exact D.
Qed.

(** X8. In a container without equal keys [onion_dict_remove] of the key of
    an entry passes to [free] the key and the value of that entry, each if
    its flags say so, and then one node of the tree, and nothing else. *)
Theorem remove_releases_the_entry (h : heap) (dict : onion_dict) (k : string)
  (d : onion_dict_node_data) :
  distinct_keys (root dict) -> In d (entries (root dict)) ->
  strcmp k (dkey d) = 0 ->
  exists a,
    In a (map fst (inorder (root dict)))
    /\ released (snd (onion_dict_remove h dict k))
       = released h ++ onion_dict_node_data_free d ++ [a].
Proof.
  intros D I Z0. rewrite dict_remove_shape. cbn [snd].
  destruct (remove_distinct _ k D) as (_ & W).
  destruct (W d I Z0) as (a & Ia & Ea).
  exists a. split; [assumption|]. rewrite Ea. reflexivity.
Qed.

(** X9. Adding a key that no entry has to a container without equal keys
    leaves it without equal keys. *)
Theorem add_keeps_keys_distinct (h : heap) (dict : onion_dict) (k v : cstr)
  (fl : Z) :
  distinct_keys (root dict) -> count_key (bytes k) (root dict) = O ->
  distinct_keys (root (fst (onion_dict_add h dict k v fl))).
Proof.
  intros D C.
  destruct (dict_add_shape h dict k v fl) as (d & h' & E & Hk & _).
  rewrite E. cbn [fst root]. apply distinct_add; [assumption|].
  unfold dkey. rewrite Hk. assumption.
Qed.

Lemma get_entry dict k e :
  distinct_keys (root dict) -> Forall seven_bit (keys (root dict)) ->
  seven_bit k -> In e (entries (root dict)) -> strcmp k (dkey e) = 0 ->
  onion_dict_get dict k = Some (value e).
Proof.
  intros D T7 K7 I Z0. unfold onion_dict_get.
  assert (C : (0 < count_key k (root dict))%nat).
  { unfold entries in I. apply in_map_iff in I.
    destruct I as ((a & e') & <- & I).
    apply (count_key_In _ _ a e' I). exact Z0. }
  destruct (find_present (root dict) k (distinct_sorted _ D) C K7 T7 None)
    as (a & d & lv & l & r & F & Id & Z1).
  rewrite F.
  assert (d = e) as ->; [|reflexivity].
  apply (distinct_unique (entries (root dict))); auto.
  - unfold entries. apply (in_map snd _ _ Id).
  - apply (key_eq_trans (dkey d) k (dkey e)); [|exact Z0].
    apply key_eq_sym. exact Z1.
Qed.

(** X10. In a container without equal keys, with keys of bytes below 128,
    [onion_dict_get] of the key of any entry returns the value of that
    entry: what the traversal visits is what the lookup finds. *)
Theorem get_finds_every_entry (dict : onion_dict) (e : onion_dict_node_data) :
  distinct_keys (root dict) -> Forall seven_bit (keys (root dict)) ->
  In e (entries (root dict)) ->
  onion_dict_get dict (dkey e) = Some (value e).
Proof.
  intros D T7 I.
  apply get_entry; auto.
  - apply (Forall_keys_entries _ _ T7 e I).
  - apply strcmp_refl.
Qed.

(** X11. Adding a key that no entry has and removing it again gives back the
    entries there were, in a container without equal keys. *)
Theorem add_then_remove (h : heap) (dict : onion_dict) (k v : cstr) (fl : Z) :
  distinct_keys (root dict) -> count_key (bytes k) (root dict) = O ->
  entries
    (root (snd (fst (onion_dict_remove
                       (snd (onion_dict_add h dict k v fl))
                       (fst (onion_dict_add h dict k v fl)) (bytes k)))))
  = entries (root dict).
Proof.
  intros D C.
  destruct (dict_add_shape h dict k v fl) as (d & h' & E & Hk & _).
  rewrite E. cbn [fst snd]. rewrite dict_remove_shape. cbn [fst snd root].
  assert (C' : count_key (dkey d) (root dict) = O)
    by (unfold dkey; rewrite Hk; exact C).
  destruct (remove_distinct _ (bytes k) (distinct_add _ (brk h) d D C')) as (R & _).
  rewrite R.
  destruct (inorder_add (root dict) (Node (brk h) d 1 Null Null))
    as (l1 & l2 & E1 & E2).
  unfold entries. rewrite E2, E1, !map_app, !filter_app. cbn [inorder map app filter snd].
  fold (dkey d). unfold dkey at 2. rewrite Hk, strcmp_refl. cbn [Z.eqb negb].
  pose proof (absent_entries _ _ C) as A. unfold entries in A.
  rewrite E1, map_app in A.
  rewrite !filter_all; [reflexivity | |];
    intros x Hx; (destruct (Z.eqb_spec (strcmp (bytes k) (dkey x)) 0) as [Z0|Z0];
                  [|reflexivity]); exfalso; apply (A x); auto;
    apply in_or_app; auto.
Qed.

Lemma present_entry k t :
  (0 < count_key k t)%nat ->
  exists e, In e (entries t) /\ strcmp k (dkey e) = 0.
Proof.
  unfold count_key. rewrite keys_entries. intros C.
  induction (entries t) as [|x l IH]; [simpl in C; lia|].
  cbn [map filter] in C.
  destruct (Z.eqb_spec (strcmp k (dkey x)) 0) as [Z0|Z0].
  - exists x. split; [left; reflexivity | assumption].
  - destruct (IH C) as (e & I & Z1). exists e. split; [right|]; assumption.
Qed.

Lemma get_same dict1 dict2 k :
  distinct_keys (root dict1) -> distinct_keys (root dict2) ->
  Forall seven_bit (keys (root dict1)) -> Forall seven_bit (keys (root dict2)) ->
  seven_bit k ->
  (forall e, strcmp k (dkey e) = 0 ->
             (In e (entries (root dict1)) <-> In e (entries (root dict2)))) ->
  onion_dict_get dict1 k = onion_dict_get dict2 k.
Proof.
  intros D1 D2 T1 T2 K7 Same.
  destruct (count_key k (root dict1)) eqn:C1.
  - assert (C2 : count_key k (root dict2) = O).
    { destruct (count_key k (root dict2)) eqn:C2; [reflexivity|].
      destruct (present_entry k (root dict2) ltac:(lia)) as (e & I & Z0).
      apply Same in I; [|assumption].
      exfalso. apply (absent_entries _ _ C1 e I Z0). }
    unfold onion_dict_get. rewrite !find_absent; auto.
  - destruct (present_entry k (root dict1) ltac:(lia)) as (e & I & Z0).
    rewrite (get_entry dict1 k e); auto.
    rewrite (get_entry dict2 k e); auto.
    apply Same; assumption.
Qed.


(** X17. In a container without equal keys, with keys of bytes below 128,
    removing a key does not change what [onion_dict_get] returns for any
    other key. *)
Theorem remove_keeps_other_lookups (h : heap) (dict : onion_dict)
  (k k' : string) :
  distinct_keys (root dict) -> Forall seven_bit (keys (root dict)) ->
  seven_bit k' -> strcmp k' k <> 0 ->
  onion_dict_get (snd (fst (onion_dict_remove h dict k))) k'
  = onion_dict_get dict k'.
Proof.
  intros D T7 K7' Ne. rewrite dict_remove_shape. cbn [fst snd].
  destruct (remove_distinct _ k D) as (E & _).
  apply get_same; cbn [root]; auto.
  - unfold distinct_keys. rewrite keys_entries, E. apply distinct_filter. exact D.
  - rewrite Forall_forall in *. intros x Hx. apply T7.
    eapply keys_remove_incl; eauto.
  - intros e Z0. rewrite E, filter_In. split; [tauto|].
    intros I. split; [assumption|].
    destruct (Z.eqb_spec (strcmp k (dkey e)) 0) as [Z1|Z1]; [|reflexivity].
    exfalso. apply Ne.
    apply (key_eq_trans k' (dkey e) k); [exact Z0|].
    apply key_eq_sym. exact Z1.
Qed.

(** ** Height *)

Lemma aa_height t :
  aa_tree t ->
  height t <= 2 * lvl t /\ (sngl t -> height t <= 2 * lvl t - 1).
Proof.
  induction t as [|a d lv l IHl r IHr]; intros H.
  - unfold sngl. simpl. lia.
  - destruct (proj1 (aa_tree_node _ _ _ _ _) H) as (Hl & Hr & El & Er).
    destruct (IHl Hl) as (L1 & _). destruct (IHr Hr) as (R1 & R2).
    unfold sngl in *. cbn [height lvl node_right] in *.
    destruct Er as [Er|(Er & Err)]; lia.
Qed.

(** X12. After every sequence of [add] and [remove] on a new container the
    height of the tree is at most twice the level of the root, and two to
    the power of that level is at most the number of nodes plus one: the
    height is at most twice the binary logarithm of the number of nodes
    plus one.  As long as the number of nodes is an [int], no level exceeds
    31. *)
Theorem run_height_logarithmic (h : heap) (ops : list operation) :
  height (root (fst (run h ops)))
  <= 2 * Z.log2 (Z.of_nat (size (root (fst (run h ops)))) + 1)
  /\ (Z.of_nat (size (root (fst (run h ops)))) <= INT_MAX ->
      lvl (root (fst (run h ops))) <= 31).
Proof.
  destruct (run_dict_invariant h ops) as (_ & A).
  pose proof (aa_level_log _ A) as P. pose proof (aa_height _ A) as (Hh & _).
  pose proof (aa_tree_lvl_nonneg _ A) as N.
  assert (L : lvl (root (fst (run h ops)))
              <= Z.log2 (Z.of_nat (size (root (fst (run h ops)))) + 1)).
  { apply Z.log2_le_pow2; lia. }
  split; [lia|]. unfold INT_MAX. intros M.
  assert (Z.log2 (Z.of_nat (size (root (fst (run h ops)))) + 1) <= Z.log2 (2 ^ 31)).
  { apply Z.log2_le_mono. lia. }
  rewrite Z.log2_pow2 in H by lia. lia.
Qed.

(** ** Count, traversal and dump *)

(** X13. [onion_dict_count] returns the number of calls the traversal makes
    to its visitor, the number of nodes being an [int]. *)
Theorem count_is_number_of_visits (dict : onion_dict) :
  Z.of_nat (size (root dict)) <= INT_MAX ->
  onion_dict_count (Some dict)
  = Z.of_nat (List.length (onion_dict_preorder (Some dict) record_visit [])).
Proof.
  intros M. rewrite (dict_count_size _ M), dict_preorder_fold.
  unfold record_visit.
  rewrite (fold_left_record (fun e => (key e, value e))).
  cbn [app]. rewrite length_map, size_entries. reflexivity.
Qed.

Lemma node_print_dot_length t :
  List.length (onion_dict_node_print_dot t) = Nat.pred (size t).
Proof.
  induction t as [|a d lv l IHl r IHr]; [reflexivity|].
  cbn [onion_dict_node_print_dot size]. rewrite length_app.
  destruct l as [|la ld llv ll lr], r as [|ra rd rlv rl rr];
    cbn [List.length app]; rewrite ?IHl, ?IHr; cbn [size Nat.pred]; lia.
Qed.

(** X14. The dump writes one line for every node but the root, none for an
    empty container and none for a container of one node. *)
Theorem print_dot_one_line_per_link (dict : onion_dict) :
  List.length (onion_dict_print_dot dict) = Nat.pred (size (root dict)).
Proof.
  unfold onion_dict_print_dot. rewrite <- node_print_dot_length.
  destruct (root dict); reflexivity.
Qed.

(** ** The heap over the life of a container *)

Lemma addresses_nil a : addresses a a = [].
Proof. unfold addresses. rewrite Z.sub_diag. reflexivity. Qed.

Lemma addresses_snoc a b : a <= b -> addresses a (b + 1) = addresses a b ++ [b].
Proof.
  intros H. unfold addresses.
  replace (Z.to_nat (b + 1 - a)) with (S (Z.to_nat (b - a))) by lia.
  rewrite seq_S, map_app. cbn [map Nat.add]. f_equal. f_equal. lia.
Qed.

Lemma map_seq_from a n m :
  map (fun i => a + Z.of_nat i) (seq n m)
  = map (fun i => a + Z.of_nat n + Z.of_nat i) (seq 0 m).
Proof.
  induction m as [|m IH]; [reflexivity|].
  rewrite !seq_S, !map_app, IH. cbn [map Nat.add]. f_equal. f_equal. lia.
Qed.

Lemma addresses_app a b c :
  a <= b -> b <= c -> addresses a c = addresses a b ++ addresses b c.
Proof.
  intros H1 H2. unfold addresses.
  replace (Z.to_nat (c - a)) with (Z.to_nat (b - a) + Z.to_nat (c - b))%nat by lia.
  rewrite seq_app, map_app, (map_seq_from a (0 + Z.to_nat (b - a))). f_equal.
  apply map_ext. intros i. lia.
Qed.

Lemma addresses_NoDup a b : NoDup (addresses a b).
Proof.
  unfold addresses. apply Finite.Injective_map_NoDup; [|apply seq_NoDup].
  intros x y H. lia.
Qed.

Lemma node_free_add t nn :
  Permutation (onion_dict_node_free (onion_dict_node_add t nn))
    (onion_dict_node_free t ++ onion_dict_node_free nn).
Proof.
  destruct (inorder_add t nn) as (l1 & l2 & E1 & E2).
  pose proof (node_free_inorder (onion_dict_node_add t nn)) as P1.
  pose proof (node_free_inorder t) as P2.
  pose proof (node_free_inorder nn) as P3.
  rewrite E2 in P1. rewrite E1 in P2. rewrite !flat_map_app in *.
  perm_count x. lia.
Qed.

(** What an addition with such flags allocates is what the tree owns more. *)
Lemma dict_add_owned h dict k v fl :
  copies_key fl = frees_key fl -> copies_value fl = frees_value fl ->
  Permutation
    (onion_dict_node_free (root (fst (onion_dict_add h dict k v fl))))
    (onion_dict_node_free (root dict)
     ++ addresses (brk h) (brk (snd (onion_dict_add h dict k v fl))))
  /\ released (snd (onion_dict_add h dict k v fl)) = released h
  /\ brk h < brk (snd (onion_dict_add h dict k v fl)).
Proof.
  unfold copies_key, copies_value, frees_key, frees_value. intros Ck Cv.
  unfold onion_dict_add, onion_dict_node_new, onion_dict_set_node_data,
    strdup, malloc.
  cbn [brk released].
  destruct (Z.land fl OD_DUP_KEY =? OD_DUP_KEY),
    (Z.land fl OD_DUP_VALUE =? OD_DUP_VALUE);
    cbn [fst snd root brk released];
    (split; [|split; [reflexivity | lia]]);
    (eapply Permutation_trans; [apply node_free_add|]);
    apply Permutation_app_head;
    cbn [onion_dict_node_free app]; unfold onion_dict_node_data_free;
    cbn [flags key value addr]; rewrite <- Ck, <- Cv; cbn [negb app];
    rewrite ?addresses_snoc, ?addresses_nil by lia; cbn [app].
  - symmetry. apply (Permutation_cons_append [brk h + 1; brk h + 1 + 1]).
  - symmetry. apply (Permutation_cons_append [brk h + 1]).
  - symmetry. apply (Permutation_cons_append [brk h + 1]).
  - reflexivity.
Qed.

Lemma apply_operation_heap b0 st o :
  owns_its_copies o ->
  b0 <= brk (snd st) ->
  Permutation
    (released (snd st) ++ onion_dict_node_free (root (fst st)))
    (addresses b0 (brk (snd st))) ->
  b0 <= brk (snd (apply_operation st o))
  /\ Permutation
       (released (snd (apply_operation st o))
        ++ onion_dict_node_free (root (fst (apply_operation st o))))
       (addresses b0 (brk (snd (apply_operation st o)))).
Proof.
  intros O B P. destruct o as [k v fl|k]; cbn [apply_operation].
  - destruct O as (Ck & Cv).
    destruct (dict_add_owned (snd st) (fst st) k v fl Ck Cv) as (Q & R & L).
    split; [lia|]. rewrite R.
    rewrite (addresses_app b0 (brk (snd st))
               (brk (snd (onion_dict_add (snd st) (fst st) k v fl)))) by lia.
    perm_count x. lia.
  - rewrite dict_remove_shape. cbn [fst snd root].
    unfold free_all. cbn [brk released]. split; [assumption|].
    pose proof (remove_conserves (root (fst st)) k) as Q.
    perm_count x. lia.
Qed.

Lemma fold_operations_heap b0 ops :
  Forall owns_its_copies ops ->
  forall st,
    b0 <= brk (snd st) ->
    Permutation
      (released (snd st) ++ onion_dict_node_free (root (fst st)))
      (addresses b0 (brk (snd st))) ->
    b0 <= brk (snd (fold_left apply_operation ops st))
    /\ Permutation
         (released (snd (fold_left apply_operation ops st))
          ++ onion_dict_node_free (root (fst (fold_left apply_operation ops st))))
         (addresses b0 (brk (snd (fold_left apply_operation ops st)))).
Proof.
  induction 1 as [|o ops Ho _ IH]; intros st B P; [auto|].
  cbn [fold_left].
  destruct (apply_operation_heap b0 st o Ho B P) as (B' & P').
  apply IH; assumption.
Qed.

(** X15. Take a heap with nothing released, create a container, run any
    sequence of [add] and [remove] whose flags ask for a copy of the key
    (value) exactly when they ask for it to be freed, and destroy the
    container.  Then every address allocated since the creation, the
    container itself included, has been passed to [free] exactly once, and
    nothing else has: no leak, no double free, and no string of the caller
    is freed. *)
Theorem free_releases_all_allocated (h : heap) (ops : list operation) :
  released h = [] -> Forall owns_its_copies ops ->
  Permutation
    (released (onion_dict_free (snd (run h ops)) (brk h) (fst (run h ops))))
    (addresses (brk h)
       (brk (onion_dict_free (snd (run h ops)) (brk h) (fst (run h ops)))))
  /\ NoDup (released (onion_dict_free (snd (run h ops)) (brk h) (fst (run h ops)))).
Proof.
  intros R O.
  assert (P : Permutation
                (released (onion_dict_free (snd (run h ops)) (brk h) (fst (run h ops))))
                (addresses (brk h)
                   (brk (onion_dict_free (snd (run h ops)) (brk h) (fst (run h ops)))))).
  { unfold onion_dict_free, free_all. cbn [brk released]. unfold run.
    destruct (fold_operations_heap (brk h + 1) ops O (onion_dict_new h))
      as (B & Q).
    - unfold onion_dict_new, malloc. cbn. lia.
    - unfold onion_dict_new, malloc. cbn. rewrite R, addresses_nil. constructor.
    - assert (A1 : addresses (brk h) (brk h + 1) = [brk h])
        by (rewrite addresses_snoc, addresses_nil by lia; reflexivity).
      rewrite (addresses_app (brk h) (brk h + 1)), A1 by lia.
      perm_count x. lia. }
  split; [exact P|].
  eapply Permutation_NoDup; [symmetry; exact P | apply addresses_NoDup].
Qed.

(** ** Rebalancing a balanced tree, and the order of removals *)

Lemma skew_aa t : aa_tree t -> skew t = t.
Proof.
  intros H. destruct t as [|a d lv l r]; [reflexivity|].
  destruct l as [|la ld llv ll lr]; [reflexivity|].
  unfold skew. aa_open; destruct (Z.eqb_spec llv lv); cbn [negb];
    first [reflexivity | exfalso; lia].
Qed.

Lemma split_aa t : aa_tree t -> split t = t.
Proof.
  intros H. destruct t as [|a d lv l r]; [reflexivity|].
  destruct r as [|ra rd rlv rl rr]; [reflexivity|].
  destruct rr as [|ta td tlv tl tr]; [reflexivity|].
  unfold split. aa_open; destruct (Z.eqb_spec lv tlv); cbn [negb];
    first [reflexivity | exfalso; lia].
Qed.

Lemma decrease_level_aa t : aa_tree t -> decrease_level t = t.
Proof.
  intros H. destruct t as [|a d lv l r]; [reflexivity|].
  unfold decrease_level.
  destruct l as [|la ld llv ll lr]; destruct r as [|ra rd rlv rl rr];
    aa_open;
    repeat match goal with
           | |- context [if ?u <? ?v then _ else _] =>
               destruct (Z.ltb_spec u v)
           end; first [reflexivity | exfalso; lia].
Qed.

Lemma remove_skews_aa t : aa_tree t -> remove_skews t = t.
Proof.
  intros H. unfold remove_skews.
  rewrite (decrease_level_aa t H), (skew_aa t H).
  destruct t as [|a d lv l r]; [reflexivity|].
  destruct r as [|ra rd rlv rl rr]; [reflexivity|].
  assert (Hr : aa_tree (Node ra rd rlv rl rr)) by (destruct H as (_ & Hr & _); exact Hr).
  rewrite (skew_aa _ Hr).
  destruct rr as [|ta td tlv tl tr]; [reflexivity|].
  assert (Hrr : aa_tree (Node ta td tlv tl tr))
    by (destruct Hr as (_ & Hrr & _); exact Hrr).
  rewrite (skew_aa _ Hrr). reflexivity.
Qed.

Lemma remove_splits_aa t : aa_tree t -> remove_splits t = t.
Proof.
  intros H. unfold remove_splits. rewrite (split_aa t H).
  destruct t as [|a d lv l r]; [reflexivity|].
  destruct r as [|ra rd rlv rl rr]; [reflexivity|].
  assert (Hr : aa_tree (Node ra rd rlv rl rr)) by (destruct H as (_ & Hr & _); exact Hr).
  rewrite (split_aa _ Hr). reflexivity.
Qed.

(** X18. On a tree that satisfies the level rules the balancing steps change
    nothing: [skew], [split] and [decrease_level] return the node as it is,
    and so does the whole sequence that ends [onion_dict_node_remove]. *)
Theorem rebalance_fixes_balanced (t : onion_dict_node) :
  aa_tree t ->
  skew t = t /\ split t = t /\ decrease_level t = t /\ remove_rebalance t = t.
Proof.
  intros H.
  split; [apply skew_aa; exact H|].
  split; [apply split_aa; exact H|].
  split; [apply decrease_level_aa; exact H|].
  unfold remove_rebalance.
  rewrite (remove_skews_aa t H). apply remove_splits_aa. exact H.
Qed.

Lemma filter_comm {A : Type} (f g : A -> bool) (l : list A) :
  filter f (filter g l) = filter g (filter f l).
Proof.
  induction l as [|x l IH]; [reflexivity|]. cbn [filter].
  destruct (f x) eqn:Ef; destruct (g x) eqn:Eg; cbn [filter];
    rewrite ?Ef, ?Eg, IH; reflexivity.
Qed.

Lemma filter_twice {A : Type} (f : A -> bool) (l : list A) :
  filter f (filter f l) = filter f l.
Proof.
  induction l as [|x l IH]; [reflexivity|]. cbn [filter].
  destruct (f x) eqn:Ef; cbn [filter]; rewrite ?Ef, IH; reflexivity.
Qed.

Lemma remove_distinct_keeps t k :
  distinct_keys t -> distinct_keys (fst (onion_dict_node_remove t k)).
Proof.
  intros D. destruct (remove_distinct t k D) as (E & _).
  unfold distinct_keys. rewrite keys_entries, E.
  apply distinct_filter. exact D.
Qed.

Lemma filter_out_none k (l : list onion_dict_node_data) :
  List.length
    (filter (fun s => strcmp k s =? 0)
       (map dkey (filter (fun e => negb (strcmp k (dkey e) =? 0)) l))) = O.
Proof.
  induction l as [|e l IH]; [reflexivity|].
  cbn [filter]. destruct (Z.eqb_spec (strcmp k (dkey e)) 0) as [Z0|N];
    cbn [negb]; [exact IH|].
  cbn [map filter]. destruct (Z.eqb_spec (strcmp k (dkey e)) 0);
    [contradiction | exact IH].
Qed.

(** X19. In a container without equal keys the entries left by two calls of
    [onion_dict_remove] do not depend on the order of the calls, and a
    second removal of the same key takes nothing more out and passes
    nothing to [free]. *)
Theorem removals_commute (h : heap) (dict : onion_dict) (k1 k2 : string) :
  distinct_keys (root dict) ->
  let r1 := onion_dict_remove h dict k1 in
  let r2 := onion_dict_remove h dict k2 in
  let r12 := onion_dict_remove (snd r1) (snd (fst r1)) k2 in
  let r21 := onion_dict_remove (snd r2) (snd (fst r2)) k1 in
  let r11 := onion_dict_remove (snd r1) (snd (fst r1)) k1 in
  entries (root (snd (fst r12))) = entries (root (snd (fst r21)))
  /\ entries (root (snd (fst r11))) = entries (root (snd (fst r1)))
  /\ snd r11 = snd r1.
Proof.
  intros D r1 r2 r12 r21 r11. subst r1 r2 r12 r21 r11.
  rewrite !dict_remove_shape. cbn [fst snd root].
  pose proof (remove_distinct_keeps _ k1 D) as D1.
  pose proof (remove_distinct_keeps _ k2 D) as D2.
  destruct (remove_distinct _ k1 D) as (E1 & _).
  destruct (remove_distinct _ k2 D) as (E2 & _).
  destruct (remove_distinct _ k2 D1) as (E12 & _).
  destruct (remove_distinct _ k1 D2) as (E21 & _).
  destruct (remove_distinct _ k1 D1) as (E11 & _).
  split; [|split].
  - rewrite E12, E21, E1, E2. apply filter_comm.
  - rewrite E11, E1. apply filter_twice.
  - assert (C : count_key k1 (fst (onion_dict_node_remove (root dict) k1)) = O).
    { unfold count_key. rewrite keys_entries, E1. apply filter_out_none. }
    destruct (remove_absent_any _ k1 C) as (W & _).
    rewrite W. unfold free_all. cbn [brk released]. rewrite app_nil_r.
    reflexivity.
Qed.

(** X20. From a state in which no key of the tree lies in a released block
    and the key blocks are apart, no [strcmp] of [onion_dict_remove] reads a
    block that has been passed to [free], neither one released before the
    call nor one released during it; and after the call no key of the tree
    lies in a released block. *)
Theorem remove_reads_no_released_key (h : heap) (dict : onion_dict)
  (k : string) :
  keys_readable (dict, h) = true ->
  remove_stale_reads (released h) (root dict) None k = []
  /\ forall e,
      In e (entries (root (snd (fst (onion_dict_remove h dict k))))) ->
      ~ In (addr (key e)) (released (snd (onion_dict_remove h dict k))).
Proof.
  intros H. split.
  - apply stale_reads_nil.
    + apply keys_readable_live. exact H.
    + exact I.
    + apply (keys_readable_apart dict h). exact H.
  - rewrite dict_remove_shape. cbn [fst snd root]. unfold free_all.
    cbn [released]. intros e He Q.
    unfold entries in He. apply in_map_iff in He.
    destruct He as (n' & <- & I').
    apply in_app_or in Q. destruct Q as [Q|Q].
    + destruct (remove_keys_from _ _ _ I') as (n & In_ & Kn).
      rewrite Kn in Q. exact (keys_readable_live dict h H n In_ Q).
    + revert Q. apply live_after; [| |exact I'].
      * apply (keys_readable_apart dict h). exact H.
      * apply keys_apart_no_node.
        unfold keys_readable in H. cbn [fst snd] in H.
        apply andb_prop in H. exact (proj2 H).
Qed.
End Dict.

(** * The theorems at sample inputs

    The flag constants are given the values 2, 4, 18 and 36. *)

Ltac sample_order :=
  repeat split; unfold key_le, key_lt; simpl; try lia; try exact I.

(** C1: three additions of the key "a" leave an equal key in the left
    subtree of the root, against the strict order of the claim. *)
Lemma run_breaks_strict_order :
  ~ (bst_strict
       (root (fst (run 2 4 18 36 sample_heap
                       [Add (mk_cstr 1000 "a") (mk_cstr 1001 "x") 0;
                        Add (mk_cstr 1000 "a") (mk_cstr 1002 "y") 0;
                        Add (mk_cstr 1000 "a") (mk_cstr 1003 "z") 0])))
     /\ aa_levels
          (root (fst (run 2 4 18 36 sample_heap
                          [Add (mk_cstr 1000 "a") (mk_cstr 1001 "x") 0;
                           Add (mk_cstr 1000 "a") (mk_cstr 1002 "y") 0;
                           Add (mk_cstr 1000 "a") (mk_cstr 1003 "z") 0])))).
Proof.
  intros (H & _). vm_compute in H.
  destruct H as ((_ & H & _) & _). discriminate H.
Qed.

Lemma run_keeps_invariants_witness :
  (forall n,
      keys_readable 2 4
        (run 2 4 18 36 sample_heap
             (firstn n
                [Add (mk_cstr 1000 "a") (mk_cstr 1001 "x") 54;
                 Add (mk_cstr 1000 "a") (mk_cstr 1001 "y") 54;
                 Add (mk_cstr 1000 "b") (mk_cstr 1001 "1") 54;
                 Add (mk_cstr 1000 "a") (mk_cstr 1001 "z") 0;
                 Remove "b"; Remove "a"])) = true)
  /\ bst (root (fst (run 2 4 18 36 sample_heap
                       [Add (mk_cstr 1000 "a") (mk_cstr 1001 "x") 54;
                        Add (mk_cstr 1000 "a") (mk_cstr 1001 "y") 54;
                        Add (mk_cstr 1000 "b") (mk_cstr 1001 "1") 54;
                        Add (mk_cstr 1000 "a") (mk_cstr 1001 "z") 0;
                        Remove "b"; Remove "a"])))
  /\ map (fun e => (bytes (key e), bytes (value e)))
       (entries (root (fst (run 2 4 18 36 sample_heap
                       [Add (mk_cstr 1000 "a") (mk_cstr 1001 "x") 54;
                        Add (mk_cstr 1000 "a") (mk_cstr 1001 "y") 54;
                        Add (mk_cstr 1000 "b") (mk_cstr 1001 "1") 54;
                        Add (mk_cstr 1000 "a") (mk_cstr 1001 "z") 0;
                        Remove "b"; Remove "a"]))))
     = [("a", "x"); ("a", "z")]%string.
Proof.
  assert (R : forall n,
             keys_readable 2 4
               (run 2 4 18 36 sample_heap
                    (firstn n
                       [Add (mk_cstr 1000 "a") (mk_cstr 1001 "x") 54;
                        Add (mk_cstr 1000 "a") (mk_cstr 1001 "y") 54;
                        Add (mk_cstr 1000 "b") (mk_cstr 1001 "1") 54;
                        Add (mk_cstr 1000 "a") (mk_cstr 1001 "z") 0;
                        Remove "b"; Remove "a"])) = true).
  { intros n. do 6 (destruct n as [|n]; [vm_compute; reflexivity|]).
    destruct n; vm_compute; reflexivity. }
  split; [exact R|].
  split; [|vm_compute; reflexivity].
  exact (proj1 (run_keeps_invariants 2 4 18 36 sample_heap _ R)).
Defined.

(** The sequence in which the source reads a key it has freed.  The key "a"
    is added twice with copies that the container owns.  Removing "b"
    relocates the second entry "a" into the root and then removes the first
    node of the key "a", not the donor: the root and the donor now hold the
    block 12 as key, the root owning it, and the keys are no longer apart.
    Removing "a" then frees the block 12 for the root (l.207), copies the
    same pointer back from the donor (l.225) and compares it (l.227, l.196):
    two reads of a released block, and the root is left with a key in a
    released block. *)
Example remove_reads_released_key :
  map (keys_readable 2 4)
      (map (fun n => run 2 4 18 36 sample_heap
                       (firstn n
                          [Add (mk_cstr 1000 "b") (mk_cstr 1001 "1") 54;
                           Add (mk_cstr 1000 "a") (mk_cstr 1001 "1") 54;
                           Add (mk_cstr 1000 "c") (mk_cstr 1001 "3") 54;
                           Add (mk_cstr 1000 "a") (mk_cstr 1001 "9") 54;
                           Remove "b"; Remove "a"]))
           [4; 5; 6]%nat)
  = [true; false; false]
  /\ remove_stale_reads 2 4
       (released (snd (run 2 4 18 36 sample_heap
                         [Add (mk_cstr 1000 "b") (mk_cstr 1001 "1") 54;
                          Add (mk_cstr 1000 "a") (mk_cstr 1001 "1") 54;
                          Add (mk_cstr 1000 "c") (mk_cstr 1001 "3") 54;
                          Add (mk_cstr 1000 "a") (mk_cstr 1001 "9") 54;
                          Remove "b"])))
       (root (fst (run 2 4 18 36 sample_heap
                       [Add (mk_cstr 1000 "b") (mk_cstr 1001 "1") 54;
                        Add (mk_cstr 1000 "a") (mk_cstr 1001 "1") 54;
                        Add (mk_cstr 1000 "c") (mk_cstr 1001 "3") 54;
                        Add (mk_cstr 1000 "a") (mk_cstr 1001 "9") 54;
                        Remove "b"])))
       None "a"
     = [12; 12]
  /\ map (fun n => (fst n, addr (key (snd n))))
       (inorder (root (fst (run 2 4 18 36 sample_heap
                       [Add (mk_cstr 1000 "b") (mk_cstr 1001 "1") 54;
                        Add (mk_cstr 1000 "a") (mk_cstr 1001 "1") 54;
                        Add (mk_cstr 1000 "c") (mk_cstr 1001 "3") 54;
                        Add (mk_cstr 1000 "a") (mk_cstr 1001 "9") 54;
                        Remove "b"; Remove "a"]))))
     = [(2, 12); (8, 9)]
  /\ released (snd (run 2 4 18 36 sample_heap
                       [Add (mk_cstr 1000 "b") (mk_cstr 1001 "1") 54;
                        Add (mk_cstr 1000 "a") (mk_cstr 1001 "1") 54;
                        Add (mk_cstr 1000 "c") (mk_cstr 1001 "3") 54;
                        Add (mk_cstr 1000 "a") (mk_cstr 1001 "9") 54;
                        Remove "b"; Remove "a"]))
     = [3; 4; 6; 7; 11; 12; 13; 5].
Proof. vm_compute. repeat split; reflexivity. Qed.

Lemma remove_absent_unchanged_witness :
  aa_tree (root sample_dict) /\ count_key "d" (root sample_dict) = O
  /\ onion_dict_remove 2 4 sample_heap sample_dict "d" = (1, sample_dict, sample_heap)
  /\ onion_dict_remove 2 4 sample_heap (mk_dict Null) "d"
     = (1, mk_dict Null, sample_heap).
Proof.
  assert (A : aa_tree (root sample_dict)) by (simpl; intuition lia).
  assert (C : count_key "d" (root sample_dict) = O) by reflexivity.
  split; [exact A|]. split; [exact C|]. split.
  - exact (proj1 (remove_absent_unchanged 2 4 sample_heap sample_dict "d" A C)).
  - exact (proj1 (remove_absent_unchanged 2 4 sample_heap (mk_dict Null) "d"
                    I eq_refl)).
Defined.

Lemma add_creates_one_node_witness :
  Forall is_add [Add (mk_cstr 1000 "b") (mk_cstr 1001 "2") 54;
                 Add (mk_cstr 1000 "b") (mk_cstr 1002 "3") 54]
  /\ 2 <= INT_MAX
  /\ onion_dict_count
       (Some (fst (run 2 4 18 36 sample_heap
                       [Add (mk_cstr 1000 "b") (mk_cstr 1001 "2") 54;
                        Add (mk_cstr 1000 "b") (mk_cstr 1002 "3") 54])))
     = 2.
Proof.
  assert (F : Forall is_add [Add (mk_cstr 1000 "b") (mk_cstr 1001 "2") 54;
                             Add (mk_cstr 1000 "b") (mk_cstr 1002 "3") 54])
    by (repeat constructor).
  assert (L : 2 <= INT_MAX) by (unfold INT_MAX; lia).
  split; [exact F|]. split; [exact L|].
  exact (proj2 (add_creates_one_node 2 4 18 36 sample_heap sample_dict
                  (mk_cstr 1000 "b") (mk_cstr 1001 "2") 54 _) F L).
Defined.

(** C5: with the key "a" already there, the value found after adding
    "a" with "y" is the old one. *)
Lemma get_after_add_duplicate :
  ~ (exists v',
        onion_dict_get
          (fst (onion_dict_add 18 36
                  (snd (run 2 4 18 36 sample_heap
                            [Add (mk_cstr 1000 "a") (mk_cstr 1001 "x") 0]))
                  (fst (run 2 4 18 36 sample_heap
                            [Add (mk_cstr 1000 "a") (mk_cstr 1001 "x") 0]))
                  (mk_cstr 1000 "a") (mk_cstr 1002 "y") 0))
          "a" = Some v'
        /\ bytes v' = "y"%string).
Proof.
  intros (v' & G & B). vm_compute in G.
  injection G as <-. discriminate B.
Qed.

Lemma get_after_add_witness :
  bst (root sample_dict) /\ count_key "d" (root sample_dict) = O
  /\ seven_bit "d" /\ Forall seven_bit (keys (root sample_dict))
  /\ exists v',
      onion_dict_get
        (fst (onion_dict_add 18 36 sample_heap sample_dict
                (mk_cstr 1000 "d") (mk_cstr 1001 "4") 54)) "d" = Some v'
      /\ bytes v' = "4"%string
      /\ ((Z.land 54 36 =? 36) = false -> v' = mk_cstr 1001 "4").
Proof.
  assert (B : bst (root sample_dict)) by sample_order.
  assert (C : count_key "d" (root sample_dict) = O) by reflexivity.
  assert (K : seven_bit "d") by (simpl; unfold byte_at; simpl; lia).
  assert (T : Forall seven_bit (keys (root sample_dict)))
    by (repeat constructor; unfold byte_at; simpl; lia).
  repeat (split; [assumption|]).
  exact (get_after_add 18 36 sample_heap sample_dict
           (mk_cstr 1000 "d") (mk_cstr 1001 "4") 54 B C K T).
Defined.

(** The comparison kept in a [signed char]: the key made of the byte 225 is
    added to the right of "a" (the difference is 128) and looked for on the
    left (the difference reads -128). *)
Example get_misses_high_byte :
  onion_dict_get
    (fst (onion_dict_add 18 36
            (snd (run 2 4 18 36 sample_heap
                      [Add (mk_cstr 1000 "a") (mk_cstr 1001 "x") 0]))
            (fst (run 2 4 18 36 sample_heap
                      [Add (mk_cstr 1000 "a") (mk_cstr 1001 "x") 0]))
            (mk_cstr 1002 (String (ascii_of_nat 225) EmptyString))
            (mk_cstr 1003 "y") 0))
    (String (ascii_of_nat 225) EmptyString) = None.
Proof. vm_compute. reflexivity. Qed.

Lemma preorder_in_key_order_witness :
  bst (root sample_dict)
  /\ onion_dict_preorder (Some sample_dict) record_visit []
     = [(mk_cstr 21 "a", mk_cstr 22 "1");
        (mk_cstr 11 "b", mk_cstr 12 "2");
        (mk_cstr 31 "c", mk_cstr 32 "3")].
Proof.
  assert (B : bst (root sample_dict)) by sample_order.
  split; [exact B|].
  exact (proj1 (preorder_in_key_order sample_dict B)).
Defined.

Lemma get_after_remove_witness :
  bst (root sample_dict) /\ count_key "b" (root sample_dict) = 1%nat
  /\ onion_dict_get
       (snd (fst (onion_dict_remove 2 4 sample_heap sample_dict "b"))) "b"
     = None.
Proof.
  assert (B : bst (root sample_dict)) by sample_order.
  assert (C : count_key "b" (root sample_dict) = 1%nat) by reflexivity.
  split; [exact B|]. split; [exact C|].
  exact (get_after_remove 2 4 sample_heap sample_dict "b" B C).
Defined.

Lemma decrease_level_recomputes_witness :
  aa_tree sample_tree
  /\ decrease_level_call 2 4 sample_tree "a"
       (Node 10 (sample_entry 10 "b" "2" 6) 2 Null
             (Node 30 (sample_entry 30 "c" "3" 6) 1 Null Null))
  /\ decrease_level
       (Node 10 (sample_entry 10 "b" "2" 6) 2 Null
             (Node 30 (sample_entry 30 "c" "3" 6) 1 Null Null))
     = Node 10 (sample_entry 10 "b" "2" 6) 1 Null
            (Node 30 (sample_entry 30 "c" "3" 6) 1 Null Null)
  /\ lvl (decrease_level
            (Node 10 (sample_entry 10 "b" "2" 6) 2 Null
                  (Node 30 (sample_entry 30 "c" "3" 6) 1 Null Null)))
     = Z.min 0 1 + 1.
Proof.
  assert (A : aa_tree sample_tree) by (simpl; intuition lia).
  assert (C : decrease_level_call 2 4 sample_tree "a"
                (Node 10 (sample_entry 10 "b" "2" 6) 2 Null
                      (Node 30 (sample_entry 30 "c" "3" 6) 1 Null Null)))
    by (apply call_here; vm_compute; reflexivity).
  split; [exact A|]. split; [exact C|]. split; [reflexivity|].
  exact (proj1 (decrease_level_recomputes 2 4 sample_tree "a"%string _ A C)).
Defined.

Lemma remove_releases_once_witness :
  NoDup (onion_dict_node_free 2 4 sample_tree)
  /\ NoDup (snd (onion_dict_node_remove 2 4 sample_tree "b")
            ++ onion_dict_node_free 2 4
                 (fst (onion_dict_node_remove 2 4 sample_tree "b")))
  /\ snd (onion_dict_node_remove 2 4 sample_tree "b") = [11; 12; 20].
Proof.
  assert (N : NoDup (onion_dict_node_free 2 4 sample_tree)).
  { vm_compute. repeat (constructor; [simpl; lia|]). constructor. }
  split; [exact N|]. split; [|vm_compute; reflexivity].
  exact (proj1 (proj2 (remove_releases_once 2 4 sample_tree "b"%string N))).
Defined.

(** With equal keys the recursive removal of the relocated entry stops at the
    first node of its key, which need not be the donor: removing "b" here
    releases the entry "a" -> "6" (value address 19) and leaves the entry
    "a" -> "7" in two nodes, the donor keeping it with flags 0. *)
Example remove_drops_entry_of_equal_key :
  map (fun e => (bytes (key e), bytes (value e), addr (value e), flags e))
      (entries (root (fst (run 2 4 18 36 sample_heap
         [Add (mk_cstr 1000 "b") (mk_cstr 1001 "1") 54;
          Add (mk_cstr 1000 "a") (mk_cstr 1001 "2") 54;
          Add (mk_cstr 1000 "c") (mk_cstr 1001 "3") 54;
          Add (mk_cstr 1000 "d") (mk_cstr 1001 "4") 54;
          Add (mk_cstr 1000 "e") (mk_cstr 1001 "5") 54;
          Add (mk_cstr 1000 "a") (mk_cstr 1001 "6") 54;
          Add (mk_cstr 1000 "a") (mk_cstr 1001 "7") 54;
          Remove "b"]))))
  = [("a", "2", 7, 54); ("a", "7", 22, 0); ("a", "7", 22, 54);
     ("c", "3", 10, 54); ("d", "4", 13, 54); ("e", "5", 16, 54)]%string.
Proof. vm_compute. reflexivity. Qed.

(** * The further properties at sample inputs *)

Lemma sample_bst : bst (root sample_dict).
Proof. sample_order. Qed.

Lemma sample_distinct : distinct_keys (root sample_dict).
Proof.
  unfold distinct_keys. cbn. repeat constructor; unfold key_lt; simpl; lia.
Qed.

Lemma sample_seven_bit : Forall seven_bit (keys (root sample_dict)).
Proof. repeat constructor; unfold byte_at; simpl; lia. Qed.

Lemma get_returns_stored_value_witness :
  onion_dict_get sample_dict "a" = Some (mk_cstr 22 "1")
  /\ exists e, In e (entries (root sample_dict))
               /\ strcmp "a" (dkey e) = 0 /\ value e = mk_cstr 22 "1".
Proof.
  assert (G : onion_dict_get sample_dict "a" = Some (mk_cstr 22 "1"))
    by reflexivity.
  split; [exact G|].
  exact (get_returns_stored_value sample_dict "a" (mk_cstr 22 "1") G).
Defined.

Lemma get_none_iff_absent_witness :
  bst (root sample_dict) /\ seven_bit "d"
  /\ Forall seven_bit (keys (root sample_dict))
  /\ (onion_dict_get sample_dict "d" = None
      <-> count_key "d" (root sample_dict) = O).
Proof.
  assert (K : seven_bit "d") by (simpl; unfold byte_at; simpl; lia).
  split; [exact sample_bst|]. split; [exact K|].
  split; [exact sample_seven_bit|].
  exact (get_none_iff_absent sample_dict "d" sample_bst K sample_seven_bit).
Defined.

Lemma add_goes_after_equal_keys_witness :
  bst (root sample_dict)
  /\ exists d,
      entries (root (fst (onion_dict_add 18 36 sample_heap sample_dict
                            (mk_cstr 1000 "b") (mk_cstr 1001 "9") 0)))
      = [sample_entry 20 "a" "1" 6; sample_entry 10 "b" "2" 6]
          ++ d :: [sample_entry 30 "c" "3" 6]
      /\ bytes (key d) = "b"%string /\ bytes (value d) = "9"%string.
Proof.
  split; [exact sample_bst|].
  exact (add_goes_after_equal_keys 18 36 sample_heap sample_dict
           (mk_cstr 1000 "b") (mk_cstr 1001 "9") 0 sample_bst).
Defined.

Lemma remove_absent_keeps_entries_witness :
  count_key "d" (root sample_dict) = O
  /\ inorder (root (snd (fst (onion_dict_remove 2 4 sample_heap sample_dict "d"))))
     = inorder (root sample_dict)
  /\ snd (onion_dict_remove 2 4 sample_heap sample_dict "d") = sample_heap.
Proof.
  assert (C : count_key "d" (root sample_dict) = O) by reflexivity.
  split; [exact C|].
  pose proof (remove_absent_keeps_entries 2 4 sample_heap sample_dict "d" C)
    as (I & H & _).
  split; assumption.
Defined.

Lemma remove_leaves_one_key_less_witness :
  keys_readable 2 4
    (run 2 4 18 36 sample_heap
         [Add (mk_cstr 1000 "b") (mk_cstr 1001 "1") 54;
          Add (mk_cstr 1000 "a") (mk_cstr 1001 "1") 54;
          Add (mk_cstr 1000 "c") (mk_cstr 1001 "3") 54;
          Add (mk_cstr 1000 "a") (mk_cstr 1001 "9") 54]) = true
  /\ count_key "a"
       (root (fst (run 2 4 18 36 sample_heap
                       [Add (mk_cstr 1000 "b") (mk_cstr 1001 "1") 54;
                        Add (mk_cstr 1000 "a") (mk_cstr 1001 "1") 54;
                        Add (mk_cstr 1000 "c") (mk_cstr 1001 "3") 54;
                        Add (mk_cstr 1000 "a") (mk_cstr 1001 "9") 54]))) = 2%nat
  /\ count_key "a"
       (root (snd (fst (onion_dict_remove 2 4
          (snd (run 2 4 18 36 sample_heap
                    [Add (mk_cstr 1000 "b") (mk_cstr 1001 "1") 54;
                     Add (mk_cstr 1000 "a") (mk_cstr 1001 "1") 54;
                     Add (mk_cstr 1000 "c") (mk_cstr 1001 "3") 54;
                     Add (mk_cstr 1000 "a") (mk_cstr 1001 "9") 54]))
          (fst (run 2 4 18 36 sample_heap
                    [Add (mk_cstr 1000 "b") (mk_cstr 1001 "1") 54;
                     Add (mk_cstr 1000 "a") (mk_cstr 1001 "1") 54;
                     Add (mk_cstr 1000 "c") (mk_cstr 1001 "3") 54;
                     Add (mk_cstr 1000 "a") (mk_cstr 1001 "9") 54]))
          "b")))) = 2%nat
  /\ count_key "b"
       (root (snd (fst (onion_dict_remove 2 4
          (snd (run 2 4 18 36 sample_heap
                    [Add (mk_cstr 1000 "b") (mk_cstr 1001 "1") 54;
                     Add (mk_cstr 1000 "a") (mk_cstr 1001 "1") 54;
                     Add (mk_cstr 1000 "c") (mk_cstr 1001 "3") 54;
                     Add (mk_cstr 1000 "a") (mk_cstr 1001 "9") 54]))
          (fst (run 2 4 18 36 sample_heap
                    [Add (mk_cstr 1000 "b") (mk_cstr 1001 "1") 54;
                     Add (mk_cstr 1000 "a") (mk_cstr 1001 "1") 54;
                     Add (mk_cstr 1000 "c") (mk_cstr 1001 "3") 54;
                     Add (mk_cstr 1000 "a") (mk_cstr 1001 "9") 54]))
          "b")))) = 0%nat.
Proof.
  pose (st := run 2 4 18 36 sample_heap
                [Add (mk_cstr 1000 "b") (mk_cstr 1001 "1") 54;
                 Add (mk_cstr 1000 "a") (mk_cstr 1001 "1") 54;
                 Add (mk_cstr 1000 "c") (mk_cstr 1001 "3") 54;
                 Add (mk_cstr 1000 "a") (mk_cstr 1001 "9") 54]).
  assert (R : keys_readable 2 4 (fst st, snd st) = true)
    by (vm_compute; reflexivity).
  assert (B : bst (root (fst st)))
    by (vm_compute; repeat split; try exact I; intros Q; discriminate Q).
  assert (C : (0 < count_key "b" (root (fst st)))%nat) by (vm_compute; lia).
  assert (M : Z.of_nat (size (root (fst st))) <= INT_MAX)
    by (vm_compute; discriminate).
  pose proof (proj1 (remove_leaves_one_key_less 2 4 (snd st) (fst st)
                       "b" "a" R B C M)) as Ha.
  pose proof (proj1 (remove_leaves_one_key_less 2 4 (snd st) (fst st)
                       "b" "b" R B C M)) as Hb.
  assert (Ea : count_key "a" (root (fst st)) = 2%nat) by (vm_compute; reflexivity).
  assert (Eb : count_key "b" (root (fst st)) = 1%nat) by (vm_compute; reflexivity).
  change (if Z.eqb (strcmp "a" "b") 0 then 1%nat else 0%nat) with 0%nat in Ha.
  change (if Z.eqb (strcmp "b" "b") 0 then 1%nat else 0%nat) with 1%nat in Hb.
  rewrite Ea in Ha. rewrite Eb in Hb.
  split; [vm_compute; reflexivity|]. split; [exact Ea|].
  split; [symmetry; rewrite Nat.add_0_r in Ha; exact Ha|].
  apply Nat.add_cancel_r with (p := 1%nat). symmetry. exact Hb.
Defined.

Lemma remove_takes_the_entry_witness :
  distinct_keys (root sample_dict)
  /\ entries (root (snd (fst (onion_dict_remove 2 4 sample_heap sample_dict "b"))))
     = [sample_entry 20 "a" "1" 6; sample_entry 30 "c" "3" 6].
Proof.
  split; [exact sample_distinct|].
  exact (proj1 (remove_takes_the_entry 2 4 sample_heap sample_dict "b"
                  sample_distinct)).
Defined.

Lemma remove_releases_the_entry_witness :
  distinct_keys (root sample_dict)
  /\ In (sample_entry 10 "b" "2" 6) (entries (root sample_dict))
  /\ strcmp "b" (dkey (sample_entry 10 "b" "2" 6)) = 0
  /\ exists a,
      In a (map fst (inorder (root sample_dict)))
      /\ released (snd (onion_dict_remove 2 4 sample_heap sample_dict "b"))
         = released sample_heap ++ [11; 12] ++ [a].
Proof.
  assert (I : In (sample_entry 10 "b" "2" 6) (entries (root sample_dict)))
    by (right; left; reflexivity).
  assert (Z0 : strcmp "b" (dkey (sample_entry 10 "b" "2" 6)) = 0) by reflexivity.
  split; [exact sample_distinct|]. split; [exact I|]. split; [exact Z0|].
  exact (remove_releases_the_entry 2 4 sample_heap sample_dict "b"
           (sample_entry 10 "b" "2" 6) sample_distinct I Z0).
Defined.

Lemma add_keeps_keys_distinct_witness :
  distinct_keys (root sample_dict) /\ count_key "d" (root sample_dict) = O
  /\ distinct_keys
       (root (fst (onion_dict_add 18 36 sample_heap sample_dict
                     (mk_cstr 1000 "d") (mk_cstr 1001 "4") 54))).
Proof.
  assert (C : count_key "d" (root sample_dict) = O) by reflexivity.
  split; [exact sample_distinct|]. split; [exact C|].
  exact (add_keeps_keys_distinct 18 36 sample_heap sample_dict
           (mk_cstr 1000 "d") (mk_cstr 1001 "4") 54 sample_distinct C).
Defined.

Lemma get_finds_every_entry_witness :
  distinct_keys (root sample_dict)
  /\ Forall seven_bit (keys (root sample_dict))
  /\ In (sample_entry 30 "c" "3" 6) (entries (root sample_dict))
  /\ onion_dict_get sample_dict "c" = Some (mk_cstr 32 "3").
Proof.
  assert (I : In (sample_entry 30 "c" "3" 6) (entries (root sample_dict)))
    by (right; right; left; reflexivity).
  split; [exact sample_distinct|]. split; [exact sample_seven_bit|].
  split; [exact I|].
  exact (get_finds_every_entry sample_dict (sample_entry 30 "c" "3" 6)
           sample_distinct sample_seven_bit I).
Defined.

Lemma add_then_remove_witness :
  distinct_keys (root sample_dict) /\ count_key "d" (root sample_dict) = O
  /\ entries
       (root (snd (fst (onion_dict_remove 2 4
                          (snd (onion_dict_add 18 36 sample_heap sample_dict
                                  (mk_cstr 1000 "d") (mk_cstr 1001 "4") 54))
                          (fst (onion_dict_add 18 36 sample_heap sample_dict
                                  (mk_cstr 1000 "d") (mk_cstr 1001 "4") 54))
                          "d"))))
     = entries (root sample_dict).
Proof.
  assert (C : count_key "d" (root sample_dict) = O) by reflexivity.
  split; [exact sample_distinct|]. split; [exact C|].
  exact (add_then_remove 2 4 18 36 sample_heap sample_dict
           (mk_cstr 1000 "d") (mk_cstr 1001 "4") 54 sample_distinct C).
Defined.

Lemma count_is_number_of_visits_witness :
  Z.of_nat (size (root sample_dict)) <= INT_MAX
  /\ onion_dict_count (Some sample_dict) = 3.
Proof.
  assert (M : Z.of_nat (size (root sample_dict)) <= INT_MAX)
    by (unfold INT_MAX; simpl; lia).
  split; [exact M|].
  exact (count_is_number_of_visits sample_dict M).
Defined.

Lemma free_releases_all_allocated_witness :
  released sample_heap = []
  /\ Forall (owns_its_copies 2 4 18 36)
       [Add (mk_cstr 1000 "b") (mk_cstr 1001 "2") 54;
        Add (mk_cstr 1002 "a") (mk_cstr 1003 "1") 0;
        Remove "b";
        Add (mk_cstr 1004 "c") (mk_cstr 1005 "3") 54]
  /\ NoDup
       (released
          (onion_dict_free 2 4
             (snd (run 2 4 18 36 sample_heap
                       [Add (mk_cstr 1000 "b") (mk_cstr 1001 "2") 54;
                        Add (mk_cstr 1002 "a") (mk_cstr 1003 "1") 0;
                        Remove "b";
                        Add (mk_cstr 1004 "c") (mk_cstr 1005 "3") 54]))
             (brk sample_heap)
             (fst (run 2 4 18 36 sample_heap
                       [Add (mk_cstr 1000 "b") (mk_cstr 1001 "2") 54;
                        Add (mk_cstr 1002 "a") (mk_cstr 1003 "1") 0;
                        Remove "b";
                        Add (mk_cstr 1004 "c") (mk_cstr 1005 "3") 54])))).
Proof.
  assert (R : released sample_heap = []) by reflexivity.
  assert (O : Forall (owns_its_copies 2 4 18 36)
                [Add (mk_cstr 1000 "b") (mk_cstr 1001 "2") 54;
                 Add (mk_cstr 1002 "a") (mk_cstr 1003 "1") 0;
                 Remove "b";
                 Add (mk_cstr 1004 "c") (mk_cstr 1005 "3") 54])
    by (repeat constructor).
  split; [exact R|]. split; [exact O|].
  exact (proj2 (free_releases_all_allocated 2 4 18 36 sample_heap _ R O)).
Defined.


Lemma remove_keeps_other_lookups_witness :
  distinct_keys (root sample_dict)
  /\ Forall seven_bit (keys (root sample_dict))
  /\ seven_bit "a" /\ strcmp "a" "b" <> 0
  /\ onion_dict_get
       (snd (fst (onion_dict_remove 2 4 sample_heap sample_dict "b"))) "a"
     = onion_dict_get sample_dict "a".
Proof.
  assert (K' : seven_bit "a") by (simpl; unfold byte_at; simpl; lia).
  assert (N : strcmp "a" "b" <> 0) by (simpl; lia).
  split; [exact sample_distinct|]. split; [exact sample_seven_bit|].
  split; [exact K'|]. split; [exact N|].
  exact (remove_keeps_other_lookups 2 4 sample_heap sample_dict "b" "a"
           sample_distinct sample_seven_bit K' N).
Defined.

Lemma rebalance_fixes_balanced_witness :
  aa_tree sample_tree
  /\ skew sample_tree = sample_tree /\ split sample_tree = sample_tree
  /\ decrease_level sample_tree = sample_tree
  /\ remove_rebalance sample_tree = sample_tree.
Proof.
  assert (A : aa_tree sample_tree) by (simpl; lia).
  split; [exact A|].
  exact (rebalance_fixes_balanced sample_tree A).
Defined.

Lemma removals_commute_witness :
  distinct_keys (root sample_dict)
  /\ entries
       (root (snd (fst (onion_dict_remove 2 4
                          (snd (onion_dict_remove 2 4 sample_heap sample_dict "a"))
                          (snd (fst (onion_dict_remove 2 4 sample_heap sample_dict "a")))
                          "b"))))
     = entries
         (root (snd (fst (onion_dict_remove 2 4
                            (snd (onion_dict_remove 2 4 sample_heap sample_dict "b"))
                            (snd (fst (onion_dict_remove 2 4 sample_heap sample_dict "b")))
                            "a")))).
Proof.
  split; [exact sample_distinct|].
  exact (proj1 (removals_commute 2 4 sample_heap sample_dict "a" "b"
                  sample_distinct)).
Defined.

Lemma run_height_logarithmic_witness :
  Z.of_nat (size (root (fst (run 2 4 18 36 sample_heap
                               [Add (mk_cstr 1000 "b") (mk_cstr 1001 "2") 54;
                                Add (mk_cstr 1002 "a") (mk_cstr 1003 "1") 0;
                                Remove "b"])))) <= INT_MAX
  /\ lvl (root (fst (run 2 4 18 36 sample_heap
                       [Add (mk_cstr 1000 "b") (mk_cstr 1001 "2") 54;
                        Add (mk_cstr 1002 "a") (mk_cstr 1003 "1") 0;
                        Remove "b"]))) <= 31.
Proof.
  assert (M : Z.of_nat (size (root (fst (run 2 4 18 36 sample_heap
                               [Add (mk_cstr 1000 "b") (mk_cstr 1001 "2") 54;
                                Add (mk_cstr 1002 "a") (mk_cstr 1003 "1") 0;
                                Remove "b"])))) <= INT_MAX)
    by (vm_compute; discriminate).
  split; [exact M|].
  exact (proj2 (run_height_logarithmic 2 4 18 36 sample_heap _) M).
Defined.

Lemma remove_reads_no_released_key_witness :
  keys_readable 2 4 (sample_dict, sample_heap) = true
  /\ remove_stale_reads 2 4 (released sample_heap) (root sample_dict) None "b" = [].
Proof.
  assert (R : keys_readable 2 4 (sample_dict, sample_heap) = true) by reflexivity.
  split; [exact R|].
  exact (proj1 (remove_reads_no_released_key 2 4 sample_heap sample_dict "b" R)).
Defined.
